(** * graph-tools-playground: the ChallengeGraph store and its clique queries

    A shallow embedding of [graph_tools_playground/graph.py].  The class
    [ChallengeGraph] extends networkx's [MultiDiGraph]; the parts of networkx
    and of the Python runtime that the class relies on (string splitting,
    dictionaries, [add_nodes_from], [add_edge], [Graph.add_edges_from],
    [enumerate_all_cliques]) are modelled next to the methods that call
    them. *)

From Stdlib Require Import String Ascii.
From stdpp Require Import base option list gmap strings fin_maps fin_sets sorting.

Set Warnings "-clear-no-such-hyp".

Local Open Scope string_scope.
Local Open Scope nat_scope.
Local Open Scope list_scope.

(** ** Python strings

    A character is a code point below 256.  [isspace] is Python's
    [str.isspace] on that range: TAB..CR, FS..US, space, NEL and NBSP. *)

Module PyStr.

Definition isspace (c : ascii) : bool :=
  let n := nat_of_ascii c in
  ((9 <=? n) && (n <=? 13)) || ((28 <=? n) && (n <=? 32))
  || (n =? 133) || (n =? 160).

Fixpoint lstrip (s : string) : string :=
  match s with
  | EmptyString => EmptyString
  | String c s' => if isspace c then lstrip s' else s
  end.

Definition rstrip (s : string) : string := String.rev (lstrip (String.rev s)).

(** [str.strip()] *)
Definition strip (s : string) : string := rstrip (lstrip s).

(** [str.split()] without separator: the maximal runs of non-whitespace
    characters.  [cur] is the token being read, reversed. *)
Fixpoint split_go (cur : string) (s : string) : list string :=
  match s with
  | EmptyString =>
      match cur with EmptyString => [] | _ => [String.rev cur] end
  | String c s' =>
      if isspace c then
        match cur with
        | EmptyString => split_go EmptyString s'
        | _ => String.rev cur :: split_go EmptyString s'
        end
      else split_go (String c cur) s'
  end.

Definition split (s : string) : list string := split_go EmptyString s.

(** [sep.join(l)] *)
Definition join (sep : string) (l : list string) : string := String.concat sep l.

End PyStr.

(** ** Exceptions and results *)

Inductive exn : Type :=
| FileNotFoundError (msg : string)
| StopIteration
| IndexError
| KeyError (key : string)
| InvalidRelationshipLine (msg : string)
| NetworkXError.

Inductive result (A : Type) : Type :=
| Ok (a : A)
| Raise (e : exn).
Arguments Ok {A} a.
Arguments Raise {A} e.

Definition is_ok {A} (r : result A) : bool :=
  match r with Ok _ => true | Raise _ => false end.

#[global] Instance exn_eq_dec : EqDecision exn.
Proof. solve_decision. Defined.

#[global] Instance result_eq_dec {A} `{!EqDecision A} : EqDecision (result A).
Proof. solve_decision. Defined.

(** ** The directed multigraph (networkx [MultiDiGraph])

    networkx keeps three dictionaries keyed by the same node set: [_node]
    (attribute dictionary of each node), [_succ] and its mirror [_pred].
    The store is one map from a node to its attribute dictionary and its
    successor dictionary.  The program creates edges only through
    [add_edge(u, v, relation=rel)] without a key, so the key dictionary of
    the edges from [u] to [v] is [{0: {"relation": r0}, 1: ...}]: the list
    of relation labels in insertion order. *)

Record node_data : Type := NodeData {
  attrs : gmap string string;
  succ : gmap string (list string)
}.

#[global] Instance node_data_eq_dec : EqDecision node_data.
Proof. solve_decision. Defined.

Abbreviation ChallengeGraph := (gmap string node_data).

Module NX.

(** One step of [add_nodes_from] for a pair [(n, ndict)]: the node is
    created when new, then [self._node[n].update(ndict)]. *)
Definition add_node (n : string) (ndict : gmap string string)
    (g : ChallengeGraph) : ChallengeGraph :=
  let d := default (NodeData ∅ ∅) (g !! n) in
  <[n := NodeData (ndict ∪ attrs d) (succ d)]> g.

Definition add_nodes_from (nodes_for_adding : list (string * gmap string string))
    (g : ChallengeGraph) : ChallengeGraph :=
  foldl (λ g nd, add_node nd.1 nd.2 g) g nodes_for_adding.

Definition ensure_node (u : string) (g : ChallengeGraph) : ChallengeGraph :=
  match g !! u with
  | None => <[u := NodeData ∅ ∅]> g
  | Some _ => g
  end.

(** [add_edge(u, v, relation=rel)]: both endpoints are added when missing,
    the new edge gets the key [len(keydict)]. *)
Definition add_edge (u v rel : string) (g : ChallengeGraph) : ChallengeGraph :=
  let g := ensure_node v (ensure_node u g) in
  match g !! u with
  | None => g
  | Some d =>
      let keydict := default [] (succ d !! v) in
      <[u := NodeData (attrs d) (<[v := keydict ++ [rel]]> (succ d))]> g
  end.

(** [self.edges(data=True)]: every edge as (source, target, relation). *)
Definition edges (g : ChallengeGraph) : list (string * string * string) :=
  '(u, d) ← map_to_list g;
  '(v, keydict) ← map_to_list (succ d);
  rel ← keydict;
  [(u, v, rel)].

End NX.

(** The key dictionary of the edges from [u] to [v] ([g[u][v]], empty when
    there is none), and the number of those edges. *)
Definition edges_between (g : ChallengeGraph) (u v : string) : list string :=
  default [] (d ← g !! u; succ d !! v).

Definition number_of_edges (g : ChallengeGraph) (u v : string) : nat :=
  length (edges_between g u v).

(** [g.nodes[n]] as an optional attribute dictionary, and one attribute. *)
Definition node_attrs (g : ChallengeGraph) (n : string) : option (gmap string string) :=
  attrs <$> g !! n.

Definition node_attr (g : ChallengeGraph) (n key : string) : option string :=
  d ← g !! n; attrs d !! key.

(** ** Stateful, fallible code

    The methods mutate the graph in place and may raise: a computation takes
    the store and gives back a result and the store as the exception (or the
    normal return) leaves it. *)

Definition M (A : Type) : Type := ChallengeGraph → result A * ChallengeGraph.

Definition ret {A} (a : A) : M A := λ g, (Ok a, g).
Definition raise {A} (e : exn) : M A := λ g, (Raise e, g).
Definition bind {A B} (m : M A) (k : A → M B) : M B :=
  λ g, match m g with
       | (Ok a, g') => k a g'
       | (Raise e, g') => (Raise e, g')
       end.
Definition lift {A} (r : result A) : M A := λ g, (r, g).
Definition modify (f : ChallengeGraph → ChallengeGraph) : M unit := λ g, (Ok tt, f g).

Notation "x <- m ;; k" := (bind m (λ x, k))
  (at level 100, m at next level, right associativity).
Notation "m ;;; k" := (bind m (λ _, k))
  (at level 100, right associativity).

(** A file system: the paths that exist, each with the lines that iterating
    over the opened file yields. *)
Abbreviation filesystem := (gmap string (list string)).

(** ** ChallengeGraph *)

Definition parse_property_line (line : string) : result (string * string * string) :=
  let entity_property := PyStr.split line in
  match entity_property !! 0, entity_property !! 1 with
  | Some id, Some property =>
      Ok (id, property, PyStr.join " " (drop 2 entity_property))
  | _, _ => Raise IndexError
  end.

Definition parse_relationship_line (line : string)
    : result (string * string * string * string * string) :=
  let relationship := PyStr.split line in
  match relationship with
  | [rel; id1; type1; id2; type2] => Ok (rel, id1, type1, id2, type2)
  | _ => Raise (InvalidRelationshipLine ("Error processing relationship: " +:+ line))
  end.

(** The loop of [add_properties_from_file] over the lines after the header;
    [parsed_entities] is the [defaultdict(dict)]. *)
Fixpoint parse_property_lines (lines : list string)
    (parsed_entities : gmap string (gmap string string))
    : result (gmap string (gmap string string)) :=
  match lines with
  | [] => Ok parsed_entities
  | line :: lines =>
      let line := PyStr.strip line in
      if decide (line = "") then parse_property_lines lines parsed_entities
      else
        match parse_property_line line with
        | Raise e => Raise e
        | Ok (id, property, value) =>
            let props := default ∅ (parsed_entities !! id) in
            parse_property_lines lines
              (<[id := <[property := value]> props]> parsed_entities)
        end
  end.

Definition add_properties_from_file (fs : filesystem) (properties : string) : M unit :=
  match fs !! properties with
  | None =>
      raise (FileNotFoundError ("Properties file " +:+ properties +:+ " not found."))
  | Some fp =>
      match fp with
      | [] => raise StopIteration
      | _header :: lines =>
          parsed_entities <- lift (parse_property_lines lines ∅);;
          modify (NX.add_nodes_from (map_to_list parsed_entities))
      end
  end.

(** [dict.setdefault(key, value)] *)
Definition setdefault (key value : string) (d : gmap string string) : gmap string string :=
  match d !! key with
  | Some _ => d
  | None => <[key := value]> d
  end.

(** [self.nodes[id].setdefault(key, value)]: [self.nodes[id]] indexes the
    plain dictionary [_node] and raises [KeyError] for an unknown node. *)
Definition nodes_setdefault (id key value : string) : M unit :=
  λ g, match g !! id with
       | None => (Raise (KeyError id), g)
       | Some d => (Ok tt, <[id := NodeData (setdefault key value (attrs d)) (succ d)]> g)
       end.

(** The three statements that record a parsed relationship:
    [self.nodes[id1].setdefault("Type", type1)],
    [self.nodes[id2].setdefault("Type", type2)] and
    [self.add_edge(id1, id2, relation=rel)]. *)
Definition add_relationship (rel id1 type1 id2 type2 : string) : M unit :=
  nodes_setdefault id1 "Type" type1;;;
  nodes_setdefault id2 "Type" type2;;;
  modify (NX.add_edge id1 id2 rel).

(** The body of the loop of [add_relationships_from_file]. *)
Definition add_relationship_line (line : string) : M unit :=
  let line := PyStr.strip line in
  if decide (line = "") then ret tt
  else
    r <- lift (parse_relationship_line line);;
    let '(rel, id1, type1, id2, type2) := r in
    add_relationship rel id1 type1 id2 type2.

Fixpoint add_relationship_lines (lines : list string) : M unit :=
  match lines with
  | [] => ret tt
  | line :: lines => add_relationship_line line;;; add_relationship_lines lines
  end.

Definition add_relationships_from_file (fs : filesystem) (relationships : string) : M unit :=
  match fs !! relationships with
  | None =>
      raise (FileNotFoundError ("Relationship file " +:+ relationships +:+ " not found."))
  | Some fp =>
      match fp with
      | [] => raise StopIteration
      | _header :: lines => add_relationship_lines lines
      end
  end.

(** [ChallengeGraph.from_file] *)
Definition from_file (fs : filesystem) (properties relationships : string) : M unit :=
  add_properties_from_file fs properties;;;
  add_relationships_from_file fs relationships.

(** ** The undirected graph (networkx [Graph])

    [_node] lists the nodes in insertion order, which is the order in which
    iterating over the graph yields them; [_adj] maps a node to the set of
    its neighbours. *)

Record Graph : Type := MkGraph {
  _node : list string;
  _adj : gmap string (gset string)
}.

(** Python leaves the iteration order of a set unspecified.  A [set_order]
    is any such order: for the set of derived edges ([for e in edges]) and
    for one edge, a frozenset ([u, v = e]). *)
Record set_order : Type := SetOrder {
  iter_edges : gset (gset string) → list (gset string);
  iter_pair : gset string → list string;
  iter_edges_perm : ∀ E, iter_edges E ≡ₚ elements E;
  iter_pair_perm : ∀ e, iter_pair e ≡ₚ elements e
}.

Definition elements_order : set_order :=
  SetOrder elements elements (λ _, reflexivity _) (λ _, reflexivity _).

Module NXGraph.

Definition empty : Graph := MkGraph [] ∅.

Definition add_node (u : string) (G : Graph) : Graph :=
  if decide (u ∈ _node G) then G
  else MkGraph (_node G ++ [u]) (<[u := ∅]> (_adj G)).

(** The body of the loop of [add_edges_from] for the edge [(u, v)]:
    [self._adj[u][v] = datadict; self._adj[v][u] = datadict]. *)
Definition add_edge (u v : string) (G : Graph) : Graph :=
  let G := add_node v (add_node u G) in
  let adj := <[u := {[v]} ∪ default ∅ (_adj G !! u)]> (_adj G) in
  let adj := <[v := {[u]} ∪ default ∅ (adj !! v)]> adj in
  MkGraph (_node G) adj.

(** [add_edges_from(ebunch)]: an element of the bunch is given by the list
    of its members in iteration order; anything but a pair raises
    ("Edge tuple ... must be a 2-tuple or 3-tuple"; the elements here are
    frozensets of at most two nodes, never triples). *)
Fixpoint add_edges_from (ebunch_to_add : list (list string)) (G : Graph) : result Graph :=
  match ebunch_to_add with
  | [] => Ok G
  | e :: ebunch =>
      match e with
      | [u; v] => add_edges_from ebunch (add_edge u v G)
      | _ => Raise NetworkXError
      end
  end.

(** [G[u]] *)
Definition neighbors (G : Graph) (u : string) : gset string :=
  default ∅ (_adj G !! u).

End NXGraph.

(** ** Enumeration of all cliques (networkx [enumerate_all_cliques]) *)

Module NXClique.

(** The first loop: [index[u] = len(index)] and
    [nbrs[u] = {v for v in G[u] if v not in index}]. *)
Definition index_nbrs_step (G : Graph)
    (st : gmap string nat * gmap string (gset string)) (u : string)
    : gmap string nat * gmap string (gset string) :=
  let index := <[u := size st.1]> st.1 in
  (index, <[u := filter (λ v, v ∉ dom index) (NXGraph.neighbors G u)]> st.2).

Definition index_nbrs (G : Graph) : gmap string nat * gmap string (gset string) :=
  foldl (index_nbrs_step G) (∅, ∅) (_node G).

Definition index_le (index : gmap string nat) (x y : string) : Prop :=
  default 0 (index !! x) ≤ default 0 (index !! y).

#[global] Instance index_le_dec index : RelDecision (index_le index).
Proof. intros x y. unfold index_le. apply _. Defined.

(** [sorted(s, key=index.__getitem__)] *)
Definition sorted_by_index (index : gmap string nat) (s : gset string) : list string :=
  merge_sort (index_le index) (elements s).

(** The queue entries appended after [base] is yielded: for the [i]-th
    candidate [u], the clique [base + [u]] with the later candidates that
    are in [nbrs[u]]. *)
Definition extensions (nbrs : gmap string (gset string))
    (base cnbrs : list string) : list (list string * list string) :=
  imap (λ i u, (base ++ [u],
                filter (λ v, v ∈ default ∅ (nbrs !! u)) (drop (S i) cnbrs)))
       cnbrs.

(** The [while queue] loop; the result lists what the generator yields. *)
Fixpoint drain (fuel : nat) (nbrs : gmap string (gset string))
    (queue : list (list string * list string)) : list (list string) :=
  match fuel with
  | 0 => []
  | S fuel =>
      match queue with
      | [] => []
      | (base, cnbrs) :: queue =>
          base :: drain fuel nbrs (queue ++ extensions nbrs base cnbrs)
      end
  end.

(** A bound on the number of yields a queue can cause: an entry with [k]
    candidates stands for at most [2 ^ k] cliques. *)
Definition weight (queue : list (list string * list string)) : nat :=
  sum_list_with (λ entry, 2 ^ length entry.2) queue.

Definition enumerate_all_cliques (G : Graph) : list (list string) :=
  let '(index, nbrs) := index_nbrs G in
  let queue :=
    (λ u, ([u], sorted_by_index index (default ∅ (nbrs !! u)))) <$> _node G in
  drain (weight queue) nbrs queue.

End NXClique.

(** ** ChallengeGraph: the clique queries *)

(** The loop of [find_friend_cliques] that collects the frozensets. *)
Definition friend_edges (g : ChallengeGraph) : gset (gset string) :=
  foldl (λ (edges : gset (gset string)) (nnd : string * string * string),
           let '(n1, n2, d) := nnd in
           let edge : gset string := {[n1; n2]} in
           if decide (d = "FRIENDS_WITH") then edges ∪ {[edge]} else edges)
        ∅ (NX.edges g).

(** [self.nodes[n].get("Type")] *)
Definition nodes_get_Type (g : ChallengeGraph) (n : string) : result (option string) :=
  match g !! n with
  | None => Raise (KeyError n)
  | Some d => Ok (attrs d !! "Type")
  end.

(** The loop of [find_person_cliques]; the test is the chained comparison
    [t1 == t2 == "Person"]. *)
Fixpoint person_edges_loop (g : ChallengeGraph)
    (es : list (string * string * string)) (edges : gset (gset string))
    : result (gset (gset string)) :=
  match es with
  | [] => Ok edges
  | (n1, n2, _) :: es =>
      let edge : gset string := {[n1; n2]} in
      match nodes_get_Type g n1 with
      | Raise e => Raise e
      | Ok t1 =>
          match nodes_get_Type g n2 with
          | Raise e => Raise e
          | Ok t2 =>
              if decide (t1 = t2 ∧ t2 = Some "Person")
              then person_edges_loop g es (edges ∪ {[edge]})
              else person_edges_loop g es edges
          end
      end
  end.

Definition person_edges (g : ChallengeGraph) : result (gset (gset string)) :=
  person_edges_loop g (NX.edges g) ∅.

(** [G = nx.Graph(); G.add_edges_from(edges)] *)
Definition graph_of_edges (o : set_order) (edges : gset (gset string)) : result Graph :=
  NXGraph.add_edges_from (iter_pair o <$> iter_edges o edges) NXGraph.empty.

Definition find_friend_graph (o : set_order) (g : ChallengeGraph) : result Graph :=
  graph_of_edges o (friend_edges g).

Definition find_person_graph (o : set_order) (g : ChallengeGraph) : result Graph :=
  match person_edges g with
  | Raise e => Raise e
  | Ok edges => graph_of_edges o edges
  end.

Definition find_friend_cliques (o : set_order) (g : ChallengeGraph)
    : result (list (list string)) :=
  match find_friend_graph o g with
  | Raise e => Raise e
  | Ok G => Ok (NXClique.enumerate_all_cliques G)
  end.

Definition find_person_cliques (o : set_order) (g : ChallengeGraph)
    : result (list (list string)) :=
  match find_person_graph o g with
  | Raise e => Raise e
  | Ok G => Ok (NXClique.enumerate_all_cliques G)
  end.

(** ** Vocabulary of the statements *)

(** A property line that the loop of [add_properties_from_file] gets past:
    blank, or with at least two tokens. *)
Definition property_line_ok (line : string) : Prop :=
  PyStr.strip line = "" ∨ 2 ≤ length (PyStr.split (PyStr.strip line)).

(** A non-blank relationship line that does not split into five tokens. *)
Definition malformed_relationship_line (line : string) : Prop :=
  PyStr.strip line ≠ "" ∧ length (PyStr.split (PyStr.strip line)) ≠ 5.

(** The data lines of a source: its lines without the header. *)
Definition data_lines (fs : filesystem) (path : string) : list string :=
  match fs !! path with
  | Some (_ :: lines) => lines
  | _ => []
  end.

(** The records of the data lines that an ingestion into a store whose nodes
    are [nodes] turns into edges, as (source, target, label) and in line
    order: blank lines are left out, and the first line that has not five
    tokens or names an ID outside [nodes] ends the list. *)
Fixpoint ingested_records (nodes : gset string) (lines : list string)
    : list (string * string * string) :=
  match lines with
  | [] => []
  | line :: lines =>
      if decide (PyStr.strip line = "") then ingested_records nodes lines
      else match parse_relationship_line (PyStr.strip line) with
           | Ok (rel, id1, _, id2, _) =>
               if decide (id1 ∈ nodes ∧ id2 ∈ nodes)
               then (id1, id2, rel) :: ingested_records nodes lines
               else []
           | Raise _ => []
           end
  end.

(** The labels of the records from [u] to [v], in order. *)
Definition labels_between (records : list (string * string * string))
    (u v : string) : list string :=
  omap (λ nnd : string * string * string,
          if decide (nnd.1.1 = u ∧ nnd.1.2 = v) then Some nnd.2 else None)
       records.

(** The sublists (subsequences) of a list, those that keep the head first. *)
Fixpoint sublists {A} (l : list A) : list (list A) :=
  match l with
  | [] => [[]]
  | x :: l => ((x ::.) <$> sublists l) ++ sublists l
  end.

(** [chain R s]: every element of [s] is [R]-related to all later ones. *)
Fixpoint chain {A} (R : A → A → Prop) (s : list A) : Prop :=
  match s with
  | [] => True
  | x :: s => Forall (R x) s ∧ chain R s
  end.

#[global] Instance chain_dec {A} (R : A → A → Prop) `{!RelDecision R} s :
  Decision (chain R s).
Proof. induction s as [|x s IH]; simpl; apply _. Defined.

(** [v] is in [nbrs[u]]: the test that [extensions] filters with. *)
Definition in_nbrs (nbrs : gmap string (gset string)) (u v : string) : Prop :=
  v ∈ default ∅ (nbrs !! u).

#[global] Instance in_nbrs_dec nbrs : RelDecision (in_nbrs nbrs).
Proof. intros u v. unfold in_nbrs. apply _. Defined.

(** The cliques that a queue entry stands for: [base] extended by a chain
    of candidates. *)
Definition yields (nbrs : gmap string (gset string))
    (entry : list string * list string) : list (list string) :=
  (entry.1 ++.) <$> filter (chain (in_nbrs nbrs)) (sublists entry.2).

(** The invariant of an undirected graph: no node is listed twice,
    neighbours are nodes, and adjacency is symmetric. *)
Definition well_formed (G : Graph) : Prop :=
  NoDup (_node G)
  ∧ ∀ u v, v ∈ NXGraph.neighbors G u →
      u ∈ _node G ∧ v ∈ _node G ∧ u ∈ NXGraph.neighbors G v.

(** A clique of an undirected graph: a non-empty set of nodes that are
    pairwise adjacent. *)
Definition clique_of (G : Graph) (S : gset string) : Prop :=
  S ≠ ∅
  ∧ (∀ u, u ∈ S → u ∈ _node G)
  ∧ (∀ u v, u ∈ S → v ∈ S → u ≠ v → v ∈ NXGraph.neighbors G u).

(** The derived undirected graph as a set of edges, each the set of its two
    endpoints: its nodes are the endpoints of the edges, and a clique is a
    non-empty set of nodes in which any two distinct nodes form an edge. *)
Definition nodes_of (E : gset (gset string)) : gset string := ⋃ elements E.

Definition clique (E : gset (gset string)) (S : gset string) : Prop :=
  S ≠ ∅
  ∧ S ⊆ nodes_of E
  ∧ (∀ a b, a ∈ S → b ∈ S → a ≠ b → {[a; b]} ∈ E).

(** [out] lists every clique, each one once, and nothing else. *)
Definition lists_all_cliques (E : gset (gset string)) (out : list (list string)) : Prop :=
  (∀ c, c ∈ out → NoDup c ∧ clique E (list_to_set c))
  ∧ (∀ S, clique E S → ∃ c, c ∈ out ∧ list_to_set c = S)
  ∧ NoDup (list_to_set <$> out : list (gset string)).

(** The edge set of a triangle and its seven cliques. *)
Definition triangle (a b c : string) : gset (gset string) :=
  {[ {[a; b]}; {[a; c]}; {[b; c]} ]}.

Definition seven_cliques (a b c : string) : gset (gset string) :=
  {[ {[a]}; {[b]}; {[c]}; {[a; b]}; {[a; c]}; {[b; c]}; {[a; b; c]} ]}.

(** The two filters on a directed edge (source, target, relation). *)
Definition friend_filter (g : ChallengeGraph) (nnd : string * string * string) : Prop :=
  nnd.2 = "FRIENDS_WITH".

Definition person_filter (g : ChallengeGraph) (nnd : string * string * string) : Prop :=
  node_attr g nnd.1.1 "Type" = node_attr g nnd.1.2 "Type"
  ∧ node_attr g nnd.1.2 "Type" = Some "Person".

(** No edge that passes the filter is a self-loop. *)
Definition no_loop (filter : ChallengeGraph → string * string * string → Prop)
    (g : ChallengeGraph) : Prop :=
  Forall (λ nnd, filter g nnd → nnd.1.1 ≠ nnd.1.2) (NX.edges g).

(** The target of every edge is a node (networkx adds both endpoints with
    an edge). *)
Definition store_closed (g : ChallengeGraph) : Prop :=
  Forall (λ nnd : string * string * string, is_Some (g !! nnd.1.2)) (NX.edges g).

#[global] Instance friend_filter_dec g nnd : Decision (friend_filter g nnd).
Proof. unfold friend_filter. apply _. Defined.

#[global] Instance person_filter_dec g nnd : Decision (person_filter g nnd).
Proof. unfold person_filter. apply _. Defined.

#[global] Instance no_loop_dec filter
  `{!∀ g nnd, Decision (filter g nnd)} g : Decision (no_loop filter g).
Proof. unfold no_loop. apply _. Defined.

#[global] Instance store_closed_dec g : Decision (store_closed g).
Proof. unfold store_closed. apply _. Defined.

(** ** Sample data

    The files of [tests/test_graph.py] and small stores used to instantiate
    the statements below. *)

Module Sample.

Definition lf : string := String (ascii_of_nat 10) EmptyString.

Definition properties_txt : list string :=
  [ "ID      Property        Value" +:+ lf;
    "A       Name            Frank" +:+ lf;
    "B       Name            Ally" +:+ lf;
    "C       Name            Oscar" +:+ lf ].

Definition friends_txt : list string :=
  [ "Relationship    ID1     Type1   ID2     Type2" +:+ lf;
    "FRIENDS_WITH    A       Person  C       Person" +:+ lf;
    "FRIENDS_WITH    A       Person  B       Person" +:+ lf;
    "FRIENDS_WITH    B       Person  C       Person" +:+ lf ].

Definition persons_txt : list string :=
  [ "Relationship    ID1     Type1   ID2     Type2" +:+ lf;
    "FRIENDS_WITH    A       Person  C       Person" +:+ lf;
    "STUDIES_WITH    A       Person  B       Person" +:+ lf;
    "CLASSMATE       B       Person  C       Person" +:+ lf ].

(** A relationship file with a four-token line after a valid one. *)
Definition broken_txt : list string :=
  [ "Relationship    ID1     Type1   ID2     Type2" +:+ lf;
    "FRIENDS_WITH    A       Person  C       Person" +:+ lf;
    "FRIENDS_WITH    A       Person  B" +:+ lf;
    "FRIENDS_WITH    B       Person  C       Person" +:+ lf ].

(** A relationship file that declares another type for [A]. *)
Definition retype_txt : list string :=
  [ "Relationship    ID1     Type1   ID2     Type2" +:+ lf;
    "RESEARCHES      C       Person  A       Field" +:+ lf ].

(** A relationship file with a self-loop. *)
Definition selfloop_txt : list string :=
  [ "Relationship    ID1     Type1   ID2     Type2" +:+ lf;
    "FRIENDS_WITH    A       Person  A       Person" +:+ lf ].

(** A property file with a one-token data line. *)
Definition short_txt : list string :=
  [ "ID      Property        Value" +:+ lf;
    "A       Name            Frank" +:+ lf;
    "B" +:+ lf ].

Definition fs : filesystem :=
  {[ "properties.txt" := properties_txt;
     "relationships.txt" := friends_txt;
     "persons.txt" := persons_txt;
     "broken.txt" := broken_txt;
     "retype.txt" := retype_txt;
     "selfloop.txt" := selfloop_txt;
     "short.txt" := short_txt;
     "header.txt" := ["ID      Property        Value" +:+ lf];
     "empty.txt" := [] ]}.

(** The stores after [from_file] on the test files. *)
Definition g_props : ChallengeGraph :=
  (add_properties_from_file fs "properties.txt" ∅).2.

Definition g_friends : ChallengeGraph :=
  (from_file fs "properties.txt" "relationships.txt" ∅).2.

Definition g_persons : ChallengeGraph :=
  (from_file fs "properties.txt" "persons.txt" ∅).2.

Definition g_selfloop : ChallengeGraph :=
  (from_file fs "properties.txt" "selfloop.txt" ∅).2.

End Sample.

(** Closed facts about the sample data are decided by evaluation. *)
Ltac by_evaluation := apply (bool_decide_unpack _); vm_compute; exact I.

(** ** Further vocabulary *)

(** Every character of the string is whitespace. *)
Fixpoint all_whitespace (s : string) : bool :=
  match s with
  | EmptyString => true
  | String c s => PyStr.isspace c && all_whitespace s
  end.

(** No character of the string is whitespace. *)
Fixpoint no_whitespace (s : string) : bool :=
  match s with
  | EmptyString => true
  | String c s => negb (PyStr.isspace c) && no_whitespace s
  end.

(** The value that the data lines of a property source give last to
    property [key] of entity [id], if any line does. *)
Fixpoint last_value (lines : list string) (id key : string) : option string :=
  match lines with
  | [] => None
  | line :: lines =>
      match last_value lines id key with
      | Some value => Some value
      | None =>
          match parse_property_line (PyStr.strip line) with
          | Ok (id', key', value) =>
              if decide (PyStr.strip line ≠ "" ∧ id' = id ∧ key' = key)
              then Some value else None
          | Raise _ => None
          end
      end
  end.

(** [parsed_entities[n][k]], if present. *)
Definition lookup2 (m : gmap string (gmap string string)) (n k : string)
    : option string :=
  d ← m !! n; d !! k.

(** The entities that the data lines of a property source mention: the
    first token of every non-blank line. *)
Fixpoint property_ids (lines : list string) : gset string :=
  match lines with
  | [] => ∅
  | line :: lines =>
      match PyStr.split (PyStr.strip line) with
      | id :: _ => {[id]} ∪ property_ids lines
      | [] => property_ids lines
      end
  end.

(** A relationship line that is ingested without error on a store whose
    node set is [nodes]: blank, or five tokens whose two IDs are nodes. *)
Definition relationship_line_ok (nodes : gset string) (line : string) : Prop :=
  PyStr.strip line = ""
  ∨ ∃ rel id1 type1 id2 type2,
      parse_relationship_line (PyStr.strip line) = Ok (rel, id1, type1, id2, type2)
      ∧ id1 ∈ nodes ∧ id2 ∈ nodes.

(** The edges that leave node [u], whose entry in the store is [d]. *)
Definition node_edges (u : string) (d : node_data) : list (string * string * string) :=
  '(v, keydict) ← map_to_list (succ d); rel ← keydict; [(u, v, rel)].

(** The lines that the ingestion loops do not skip. *)
Definition non_blank (lines : list string) : list string :=
  filter (λ line, PyStr.strip line ≠ "") lines.

(** ** The application ([app.py])

    [friend_cliques] and [person_cliques] are computed when the module is
    loaded: [list(filter(lambda x: len(x) == 3, G.find_..._cliques()))]. *)

Module App.

Definition keep_size_3 (cliques : result (list (list string)))
    : result (list (list string)) :=
  match cliques with
  | Raise e => Raise e
  | Ok cliques => Ok (filter (λ x, length x = 3) cliques)
  end.

Definition friend_cliques (o : set_order) (G : ChallengeGraph)
    : result (list (list string)) :=
  keep_size_3 (find_friend_cliques o G).

Definition person_cliques (o : set_order) (G : ChallengeGraph)
    : result (list (list string)) :=
  keep_size_3 (find_person_cliques o G).

(** [len(G.nodes)] and [len(G.edges)], shown as "Num of nodes" and
    "Num of edges". *)
Definition num_nodes (G : ChallengeGraph) : nat := size G.
Definition num_edges (G : ChallengeGraph) : nat := length (NX.edges G).

End App.

(** * Properties of the store *)

Section Store.

Implicit Types (g h : ChallengeGraph) (fs : filesystem).
Implicit Types (u v n id key rel line path : string).

(** *** networkx operations *)

Lemma add_node_lookup n ndict g n' :
  NX.add_node n ndict g !! n' =
    if decide (n = n')
    then Some (NodeData (ndict ∪ attrs (default (NodeData ∅ ∅) (g !! n)))
                        (succ (default (NodeData ∅ ∅) (g !! n))))
    else g !! n'.
Proof.
  unfold NX.add_node. case_decide as Hn.
  - subst. by rewrite lookup_insert_eq.
  - by rewrite lookup_insert_ne.
Qed.

Lemma add_nodes_from_lookup (l : list (string * gmap string string)) g n :
  NoDup l.*1 →
  NX.add_nodes_from l g !! n =
    match (list_to_map l : gmap string (gmap string string)) !! n with
    | Some ndict =>
        Some (NodeData (ndict ∪ attrs (default (NodeData ∅ ∅) (g !! n)))
                       (succ (default (NodeData ∅ ∅) (g !! n))))
    | None => g !! n
    end.
Proof.
  revert g. induction l as [|[k nd] l IH]; intros g Hnd; [done|].
  apply NoDup_cons in Hnd as [Hk Hnd].
  change (NX.add_nodes_from ((k, nd) :: l) g)
    with (NX.add_nodes_from l (NX.add_node k nd g)).
  rewrite IH by done. simpl.
  rewrite !add_node_lookup.
  destruct (decide (k = n)) as [->|Hne].
  - rewrite lookup_insert_eq.
    by rewrite (not_elem_of_list_to_map_1 l n Hk).
  - rewrite lookup_insert_ne by done. done.
Qed.

Lemma add_nodes_from_map_lookup (m : gmap string (gmap string string)) g n :
  NX.add_nodes_from (map_to_list m) g !! n =
    match m !! n with
    | Some ndict =>
        Some (NodeData (ndict ∪ attrs (default (NodeData ∅ ∅) (g !! n)))
                       (succ (default (NodeData ∅ ∅) (g !! n))))
    | None => g !! n
    end.
Proof.
  rewrite add_nodes_from_lookup by apply NoDup_fst_map_to_list.
  by rewrite list_to_map_to_list.
Qed.

Lemma add_nodes_from_idemp (m : gmap string (gmap string string)) g :
  NX.add_nodes_from (map_to_list m) (NX.add_nodes_from (map_to_list m) g)
  = NX.add_nodes_from (map_to_list m) g.
Proof.
  apply map_eq; intros n.
  rewrite (add_nodes_from_map_lookup m (NX.add_nodes_from _ _)).
  rewrite add_nodes_from_map_lookup.
  destruct (m !! n) as [nd|]; [|done]. simpl.
  by rewrite (assoc_L (∪)), (idemp_L (∪)).
Qed.

(** *** Property ingestion *)

Lemma parse_property_line_short line :
  length (PyStr.split line) < 2 → parse_property_line line = Raise IndexError.
Proof.
  unfold parse_property_line.
  destruct (PyStr.split line) as [|a [|b l]]; simpl; intros; [done|done|lia].
Qed.

Lemma parse_property_line_long line :
  2 ≤ length (PyStr.split line) → is_ok (parse_property_line line) = true.
Proof.
  unfold parse_property_line.
  destruct (PyStr.split line) as [|a [|b l]]; simpl; intros; [lia|lia|done].
Qed.

Lemma parse_property_lines_prefix pre :
  Forall property_line_ok pre →
  ∀ parsed, ∃ parsed', ∀ rest,
    parse_property_lines (pre ++ rest) parsed = parse_property_lines rest parsed'.
Proof.
  induction 1 as [|l pre Hl _ IH]; intros parsed; [by exists parsed|].
  simpl. case_decide as Hblank; [apply IH|].
  destruct Hl as [?|Hl]; [done|].
  apply parse_property_line_long in Hl.
  destruct (parse_property_line (PyStr.strip l)) as [[[id p] val]|e]; [|done].
  apply IH.
Qed.

Lemma parse_property_lines_short bad post parsed :
  PyStr.strip bad ≠ "" → length (PyStr.split (PyStr.strip bad)) < 2 →
  parse_property_lines (bad :: post) parsed = Raise IndexError.
Proof.
  intros Hne Hlen. simpl. case_decide; [done|].
  by rewrite parse_property_line_short.
Qed.

(** C3. Property ingestion is idempotent: whatever the files and the store,
    a second ingestion of the same source ends as the first did and leaves
    the store exactly as the first left it, so every node keeps the
    attribute dictionary it had after the first ingestion. *)
Theorem add_properties_from_file_idempotent fs path g :
  let once := add_properties_from_file fs path g in
  let twice := add_properties_from_file fs path once.2 in
  twice = once ∧ ∀ n, node_attrs twice.2 n = node_attrs once.2 n.
Proof.
  simpl.
  assert (add_properties_from_file fs path (add_properties_from_file fs path g).2
          = add_properties_from_file fs path g) as Heq.
  { unfold add_properties_from_file.
    destruct (fs !! path) as [[|header lines]|]; [done| |done].
    unfold bind, lift, modify.
    destruct (parse_property_lines lines ∅) as [parsed|e]; [|done].
    simpl. by rewrite add_nodes_from_idemp. }
  split; [done|]. intros n. by rewrite Heq.
Qed.

(** C7. A source whose path does not resolve makes either ingestion raise
    [FileNotFoundError] with the store exactly as it was before the call. *)
Theorem missing_source_raises_and_keeps_store fs path g :
  fs !! path = None →
  (∃ msg, add_properties_from_file fs path g = (Raise (FileNotFoundError msg), g))
  ∧ (∃ msg, add_relationships_from_file fs path g = (Raise (FileNotFoundError msg), g)).
Proof.
  intros Hnone.
  unfold add_properties_from_file, add_relationships_from_file.
  rewrite Hnone. split; eexists; reflexivity.
Qed.

Lemma missing_source_raises_and_keeps_store_witness :
  (∃ msg, add_properties_from_file Sample.fs "idontexist" Sample.g_friends
          = (Raise (FileNotFoundError msg), Sample.g_friends))
  ∧ (∃ msg, add_relationships_from_file Sample.fs "idontexist" Sample.g_friends
          = (Raise (FileNotFoundError msg), Sample.g_friends)).
Proof.
  apply (missing_source_raises_and_keeps_store Sample.fs "idontexist" Sample.g_friends).
  vm_compute. reflexivity.
Defined.

(** C9. A non-blank property line with fewer than two tokens is not
    guarded: when the data lines before it are blank or have at least two
    tokens, ingestion raises [IndexError] (no domain error), and the store
    is left as it was. *)
Theorem short_property_line_raises_IndexError fs path g header pre bad post :
  fs !! path = Some (header :: pre ++ bad :: post) →
  Forall property_line_ok pre →
  PyStr.strip bad ≠ "" →
  length (PyStr.split (PyStr.strip bad)) < 2 →
  add_properties_from_file fs path g = (Raise IndexError, g).
Proof.
  intros Hfs Hpre Hne Hlen. unfold add_properties_from_file. rewrite Hfs.
  destruct (parse_property_lines_prefix pre Hpre ∅) as [parsed' Hpar].
  unfold bind, lift. rewrite Hpar.
  by rewrite parse_property_lines_short.
Qed.

Lemma short_property_line_raises_IndexError_witness :
  add_properties_from_file Sample.fs "short.txt" ∅ = (Raise IndexError, ∅).
Proof.
  apply (short_property_line_raises_IndexError Sample.fs "short.txt" ∅
           ("ID      Property        Value" +:+ Sample.lf)
           ["A       Name            Frank" +:+ Sample.lf]
           ("B" +:+ Sample.lf) []).
  - vm_compute. reflexivity.
  - constructor; [right; vm_compute; lia | constructor].
  - vm_compute. discriminate.
  - vm_compute. lia.
Defined.

(** C10. A source that exists but has no line at all makes either ingestion
    raise [StopIteration] at the skipped header, the store unchanged; a
    source with a header line only is ingested successfully and leaves the
    store unchanged. *)
Theorem empty_and_header_only_sources fs path g :
  (fs !! path = Some [] →
     add_properties_from_file fs path g = (Raise StopIteration, g)
     ∧ add_relationships_from_file fs path g = (Raise StopIteration, g))
  ∧ (∀ header, fs !! path = Some [header] →
     add_properties_from_file fs path g = (Ok tt, g)
     ∧ add_relationships_from_file fs path g = (Ok tt, g)).
Proof.
  unfold add_properties_from_file, add_relationships_from_file.
  split; [intros ->; done|]. intros header ->. split; [|done].
  unfold bind, lift, modify. simpl. by rewrite map_to_list_empty.
Qed.

Lemma empty_and_header_only_sources_witness :
  (add_properties_from_file Sample.fs "empty.txt" Sample.g_friends
     = (Raise StopIteration, Sample.g_friends)
   ∧ add_relationships_from_file Sample.fs "empty.txt" Sample.g_friends
     = (Raise StopIteration, Sample.g_friends))
  ∧ (add_properties_from_file Sample.fs "header.txt" Sample.g_friends
     = (Ok tt, Sample.g_friends)
   ∧ add_relationships_from_file Sample.fs "header.txt" Sample.g_friends
     = (Ok tt, Sample.g_friends)).
Proof.
  split.
  - apply (proj1 (empty_and_header_only_sources Sample.fs "empty.txt" Sample.g_friends)).
    vm_compute. reflexivity.
  - apply (proj2 (empty_and_header_only_sources Sample.fs "header.txt" Sample.g_friends)
             ("ID      Property        Value" +:+ Sample.lf)).
    vm_compute. reflexivity.
Defined.

(** *** Relationship ingestion *)

Lemma edges_between_insert_same_succ g id d a' a b :
  g !! id = Some d →
  edges_between (<[id := NodeData a' (succ d)]> g) a b = edges_between g a b.
Proof.
  intros Hd. unfold edges_between.
  destruct (decide (id = a)) as [->|Hne].
  - by rewrite lookup_insert_eq, Hd.
  - by rewrite lookup_insert_ne.
Qed.

Lemma ensure_node_edges_between x g a b :
  edges_between (NX.ensure_node x g) a b = edges_between g a b.
Proof.
  unfold NX.ensure_node. destruct (g !! x) as [d|] eqn:Hx; [done|].
  unfold edges_between. destruct (decide (x = a)) as [->|Hne].
  - by rewrite lookup_insert_eq, Hx.
  - by rewrite lookup_insert_ne.
Qed.

Lemma ensure_node_node_attr x g n key :
  node_attr (NX.ensure_node x g) n key = node_attr g n key.
Proof.
  unfold NX.ensure_node. destruct (g !! x) as [d|] eqn:Hx; [done|].
  unfold node_attr. destruct (decide (x = n)) as [->|Hne].
  - by rewrite lookup_insert_eq, Hx.
  - by rewrite lookup_insert_ne.
Qed.

Lemma ensure_node_lookup_self x g : is_Some (NX.ensure_node x g !! x).
Proof.
  unfold NX.ensure_node. destruct (g !! x) as [d|] eqn:Hx.
  - by rewrite Hx.
  - by rewrite lookup_insert_eq.
Qed.

Lemma ensure_node_lookup_Some x g y d :
  g !! y = Some d → NX.ensure_node x g !! y = Some d.
Proof.
  intros Hy. unfold NX.ensure_node. destruct (g !! x) as [d'|] eqn:Hx; [done|].
  rewrite lookup_insert_ne; [done|congruence].
Qed.

Lemma ensure_node_present x g : is_Some (g !! x) → NX.ensure_node x g = g.
Proof. intros [d Hd]. unfold NX.ensure_node. by rewrite Hd. Qed.

Lemma add_edge_edges_between u v rel g a b :
  edges_between (NX.add_edge u v rel g) a b =
    edges_between g a b ++ (if decide (a = u ∧ b = v) then [rel] else []).
Proof.
  unfold NX.add_edge.
  destruct (ensure_node_lookup_self u g) as [d0 Hd0].
  rewrite (ensure_node_lookup_Some v _ u d0 Hd0).
  rewrite <-(ensure_node_edges_between u g a b).
  rewrite <-(ensure_node_edges_between v (NX.ensure_node u g) a b).
  pose proof (ensure_node_lookup_Some v _ u d0 Hd0) as Hu.
  set (g2 := NX.ensure_node v (NX.ensure_node u g)) in *.
  unfold edges_between. destruct (decide (u = a)) as [->|Hne].
  - rewrite lookup_insert_eq, Hu. simpl.
    destruct (decide (v = b)) as [->|Hne].
    + rewrite lookup_insert_eq. rewrite decide_True by done. done.
    + rewrite lookup_insert_ne by done.
      rewrite decide_False by (intros [_ ?]; congruence).
      by rewrite app_nil_r.
  - rewrite lookup_insert_ne by done.
    rewrite decide_False by (intros [? _]; congruence).
    by rewrite app_nil_r.
Qed.

Lemma add_edge_node_attr u v rel g n key :
  node_attr (NX.add_edge u v rel g) n key = node_attr g n key.
Proof.
  unfold NX.add_edge.
  destruct (ensure_node_lookup_self u g) as [d0 Hd0].
  pose proof (ensure_node_lookup_Some v _ u d0 Hd0) as Hu. rewrite Hu.
  rewrite <-(ensure_node_node_attr u g n key).
  rewrite <-(ensure_node_node_attr v (NX.ensure_node u g) n key).
  set (g2 := NX.ensure_node v (NX.ensure_node u g)) in *.
  unfold node_attr. destruct (decide (u = n)) as [->|Hne].
  - by rewrite lookup_insert_eq, Hu.
  - by rewrite lookup_insert_ne.
Qed.

Lemma add_edge_dom u v rel g :
  is_Some (g !! u) → is_Some (g !! v) → dom (NX.add_edge u v rel g) = dom g.
Proof.
  intros Hu Hv. unfold NX.add_edge.
  rewrite (ensure_node_present u g Hu), (ensure_node_present v g Hv).
  destruct Hu as [d Hd]. rewrite Hd. rewrite dom_insert_L.
  apply elem_of_dom_2 in Hd. set_solver.
Qed.

Lemma setdefault_lookup key value (d : gmap string string) k :
  setdefault key value d !! k =
    if decide (k = key) then Some (default value (d !! key)) else d !! k.
Proof.
  unfold setdefault. case_decide as Hk.
  - subst. destruct (d !! key) eqn:Hd; [by rewrite Hd|by rewrite lookup_insert_eq].
  - destruct (d !! key) eqn:Hd; [done|by rewrite lookup_insert_ne].
Qed.

Lemma nodes_setdefault_None id key value g :
  g !! id = None → nodes_setdefault id key value g = (Raise (KeyError id), g).
Proof. intros H. unfold nodes_setdefault. by rewrite H. Qed.

Lemma nodes_setdefault_Some id key value g d :
  g !! id = Some d →
  nodes_setdefault id key value g
  = (Ok tt, <[id := NodeData (setdefault key value (attrs d)) (succ d)]> g).
Proof. intros H. unfold nodes_setdefault. by rewrite H. Qed.

Lemma nodes_setdefault_dom id key value g :
  dom (nodes_setdefault id key value g).2 = dom g.
Proof.
  unfold nodes_setdefault. destruct (g !! id) as [d|] eqn:Hd; [|done].
  simpl. rewrite dom_insert_L. apply elem_of_dom_2 in Hd. set_solver.
Qed.

Lemma nodes_setdefault_edges_between id key value g a b :
  edges_between (nodes_setdefault id key value g).2 a b = edges_between g a b.
Proof.
  unfold nodes_setdefault. destruct (g !! id) as [d|] eqn:Hd; [|done].
  simpl. by apply edges_between_insert_same_succ.
Qed.

Lemma nodes_setdefault_node_attr id key value g n k :
  node_attr (nodes_setdefault id key value g).2 n k =
    if decide (n = id ∧ k = key ∧ is_Some (g !! id))
    then Some (default value (node_attr g id key))
    else node_attr g n k.
Proof.
  unfold nodes_setdefault, node_attr.
  destruct (g !! id) as [d|] eqn:Hd; simpl.
  - destruct (decide (n = id)) as [->|Hne].
    + rewrite lookup_insert_eq, Hd. simpl. rewrite setdefault_lookup.
      destruct (decide (k = key)) as [->|Hk].
      * by rewrite decide_True by eauto.
      * by rewrite decide_False by (intros (_ & ? & _); done).
    + rewrite lookup_insert_ne by done.
      by rewrite decide_False by (intros (? & _); done).
  - rewrite decide_False; [done|]. intros (_ & _ & [? ?]); done.
Qed.

Lemma nodes_setdefault_keeps_attr id key value g n k t :
  node_attr g n k = Some t →
  node_attr (nodes_setdefault id key value g).2 n k = Some t.
Proof.
  intros Ht. rewrite nodes_setdefault_node_attr.
  case_decide as Hc; [|done]. destruct Hc as (-> & -> & _). by rewrite Ht.
Qed.

Lemma nodes_setdefault_lookup_is_Some id key value g n :
  is_Some ((nodes_setdefault id key value g).2 !! n) ↔ is_Some (g !! n).
Proof.
  rewrite <-!elem_of_dom. by rewrite nodes_setdefault_dom.
Qed.

(** The three outcomes of recording a relationship: the first endpoint is
    unknown, the second one is, or both are nodes already. *)
Lemma add_relationship_cases rel id1 type1 id2 type2 g :
  let g1 := (nodes_setdefault id1 "Type" type1 g).2 in
  let g2 := (nodes_setdefault id2 "Type" type2 g1).2 in
  (g !! id1 = None
   ∧ add_relationship rel id1 type1 id2 type2 g = (Raise (KeyError id1), g))
  ∨ (is_Some (g !! id1) ∧ g !! id2 = None
     ∧ add_relationship rel id1 type1 id2 type2 g = (Raise (KeyError id2), g1))
  ∨ (is_Some (g !! id1) ∧ is_Some (g !! id2)
     ∧ add_relationship rel id1 type1 id2 type2 g
       = (Ok tt, NX.add_edge id1 id2 rel g2)).
Proof.
  intros g1 g2. unfold add_relationship, bind, modify.
  destruct (g !! id1) as [d1|] eqn:H1.
  - right. destruct (g !! id2) as [d2|] eqn:H2.
    + right. split; [eauto|]. split; [eauto|].
      assert (is_Some (g1 !! id2)) as [d2' H2'].
      { subst g1. apply nodes_setdefault_lookup_is_Some. eauto. }
      subst g2. revert H2'. subst g1.
      rewrite (nodes_setdefault_Some _ _ _ _ _ H1). simpl. intros H2'.
      by rewrite (nodes_setdefault_Some _ _ _ _ _ H2').
    + left. split; [eauto|]. split; [done|].
      assert (g1 !! id2 = None) as H2'.
      { subst g1. apply eq_None_not_Some. rewrite nodes_setdefault_lookup_is_Some.
        rewrite H2. by intros [? ?]. }
      revert H2'. subst g1.
      rewrite (nodes_setdefault_Some _ _ _ _ _ H1). simpl. intros H2'.
      by rewrite (nodes_setdefault_None _ _ _ _ H2').
  - left. split; [done|]. by rewrite nodes_setdefault_None.
Qed.

Lemma add_relationship_dom rel id1 type1 id2 type2 g :
  dom (add_relationship rel id1 type1 id2 type2 g).2 = dom g.
Proof.
  destruct (add_relationship_cases rel id1 type1 id2 type2 g)
    as [[_ ->]|[(_ & _ & ->)|(H1 & H2 & ->)]]; simpl.
  - done.
  - apply nodes_setdefault_dom.
  - rewrite add_edge_dom.
    + by rewrite !nodes_setdefault_dom.
    + by rewrite !nodes_setdefault_lookup_is_Some.
    + by rewrite !nodes_setdefault_lookup_is_Some.
Qed.

Lemma add_relationship_keeps_attr rel id1 type1 id2 type2 g n k t :
  node_attr g n k = Some t →
  node_attr (add_relationship rel id1 type1 id2 type2 g).2 n k = Some t.
Proof.
  intros Ht.
  destruct (add_relationship_cases rel id1 type1 id2 type2 g)
    as [[_ ->]|[(_ & _ & ->)|(H1 & H2 & ->)]]; simpl.
  - done.
  - by apply nodes_setdefault_keeps_attr.
  - rewrite add_edge_node_attr. by do 2 apply nodes_setdefault_keeps_attr.
Qed.

(** The outcome of recording a relationship and the edges it appends depend
    on the store through its node set only. *)
Lemma add_relationship_uniform rel id1 type1 id2 type2 g :
  ∃ (r : result unit) (added : string → string → list string),
    ∀ h, dom h = dom g →
      (add_relationship rel id1 type1 id2 type2 h).1 = r
      ∧ ∀ a b, edges_between (add_relationship rel id1 type1 id2 type2 h).2 a b
               = edges_between h a b ++ added a b.
Proof.
  destruct (decide (id1 ∈ dom g)) as [Hin1|Hout1];
    [destruct (decide (id2 ∈ dom g)) as [Hin2|Hout2]|].
  - exists (Ok tt), (λ a b, if decide (a = id1 ∧ b = id2) then [rel] else []).
    intros h Hdom. rewrite <-Hdom in Hin1, Hin2.
    apply elem_of_dom in Hin1, Hin2.
    destruct (add_relationship_cases rel id1 type1 id2 type2 h)
      as [[E _]|[(_ & E & _)|(_ & _ & ->)]].
    + rewrite E in Hin1. by destruct Hin1.
    + rewrite E in Hin2. by destruct Hin2.
    + split; [done|]. intros a b. simpl.
      by rewrite add_edge_edges_between, !nodes_setdefault_edges_between.
  - exists (Raise (KeyError id2)), (λ _ _, []).
    intros h Hdom. rewrite <-Hdom in Hin1, Hout2.
    apply elem_of_dom in Hin1. apply not_elem_of_dom in Hout2.
    destruct (add_relationship_cases rel id1 type1 id2 type2 h)
      as [[E _]|[(_ & _ & ->)|(_ & E & _)]].
    + rewrite E in Hin1. by destruct Hin1.
    + split; [done|]. intros a b. simpl.
      by rewrite nodes_setdefault_edges_between, app_nil_r.
    + rewrite Hout2 in E. by destruct E.
  - exists (Raise (KeyError id1)), (λ _ _, []).
    intros h Hdom. rewrite <-Hdom in Hout1. apply not_elem_of_dom in Hout1.
    destruct (add_relationship_cases rel id1 type1 id2 type2 h)
      as [[_ ->]|[(E & _ & _)|(E & _ & _)]].
    + split; [done|]. intros a b. simpl. by rewrite app_nil_r.
    + rewrite Hout1 in E. by destruct E.
    + rewrite Hout1 in E. by destruct E.
Qed.

(** **** One line *)

Lemma parse_relationship_line_ok line :
  length (PyStr.split line) = 5 ↔ is_ok (parse_relationship_line line) = true.
Proof.
  unfold parse_relationship_line.
  destruct (PyStr.split line) as [|a [|b [|c [|d [|e [|f l]]]]]]; simpl;
    split; intros; try done; lia.
Qed.

Lemma parse_relationship_line_raises line e :
  parse_relationship_line line = Raise e →
  length (PyStr.split line) ≠ 5
  ∧ e = InvalidRelationshipLine ("Error processing relationship: " +:+ line).
Proof.
  intros He. split.
  - intros Hlen%parse_relationship_line_ok. by rewrite He in Hlen.
  - unfold parse_relationship_line in He.
    destruct (PyStr.split line) as [|a [|b [|c [|d [|f [|x l]]]]]];
      by inversion He.
Qed.

Lemma parse_relationship_line_malformed line :
  length (PyStr.split line) ≠ 5 →
  parse_relationship_line line
  = Raise (InvalidRelationshipLine ("Error processing relationship: " +:+ line)).
Proof.
  intros Hlen. destruct (parse_relationship_line line) as [r|e] eqn:E.
  - destruct Hlen. apply parse_relationship_line_ok. by rewrite E.
  - by apply parse_relationship_line_raises in E as [_ ->].
Qed.

Lemma add_relationship_line_blank line g :
  PyStr.strip line = "" → add_relationship_line line g = (Ok tt, g).
Proof. intros H. unfold add_relationship_line. by rewrite decide_True. Qed.

Lemma add_relationship_line_valid line rel id1 type1 id2 type2 g :
  PyStr.strip line ≠ "" →
  parse_relationship_line (PyStr.strip line) = Ok (rel, id1, type1, id2, type2) →
  add_relationship_line line g = add_relationship rel id1 type1 id2 type2 g.
Proof.
  intros Hne Hp. unfold add_relationship_line. rewrite decide_False by done.
  unfold bind, lift. by rewrite Hp.
Qed.

Lemma add_relationship_line_malformed line g :
  malformed_relationship_line line →
  add_relationship_line line g
  = (Raise (InvalidRelationshipLine
              ("Error processing relationship: " +:+ PyStr.strip line)), g).
Proof.
  intros [Hne Hlen]. unfold add_relationship_line. rewrite decide_False by done.
  unfold bind, lift. by rewrite parse_relationship_line_malformed.
Qed.

(** A line is blank, malformed, or a relationship. *)
Lemma relationship_line_cases line :
  PyStr.strip line = ""
  ∨ malformed_relationship_line line
  ∨ (PyStr.strip line ≠ "" ∧ ∃ rel id1 type1 id2 type2,
       parse_relationship_line (PyStr.strip line) = Ok (rel, id1, type1, id2, type2)).
Proof.
  destruct (decide (PyStr.strip line = "")) as [?|Hne]; [by left|right].
  destruct (parse_relationship_line (PyStr.strip line))
    as [[[[[rel id1] type1] id2] type2]|e] eqn:E.
  - right. split; [done|]. by exists rel, id1, type1, id2, type2.
  - left. split; [done|]. by apply parse_relationship_line_raises in E as [? _].
Qed.

Lemma add_relationship_never_invalid rel id1 type1 id2 type2 g msg :
  (add_relationship rel id1 type1 id2 type2 g).1 ≠ Raise (InvalidRelationshipLine msg).
Proof.
  destruct (add_relationship_cases rel id1 type1 id2 type2 g)
    as [[_ ->]|[(_ & _ & ->)|(_ & _ & ->)]]; done.
Qed.

Lemma add_relationship_line_dom line g :
  dom (add_relationship_line line g).2 = dom g.
Proof.
  destruct (relationship_line_cases line)
    as [Hb|[Hm|(Hne & rel & id1 & t1 & id2 & t2 & Hp)]].
  - by rewrite add_relationship_line_blank.
  - by rewrite add_relationship_line_malformed.
  - rewrite (add_relationship_line_valid _ _ _ _ _ _ _ Hne Hp).
    apply add_relationship_dom.
Qed.

Lemma add_relationship_line_keeps_attr line g n k t :
  node_attr g n k = Some t → node_attr (add_relationship_line line g).2 n k = Some t.
Proof.
  intros Ht. destruct (relationship_line_cases line)
    as [Hb|[Hm|(Hne & rel & id1 & t1 & id2 & t2 & Hp)]].
  - by rewrite add_relationship_line_blank.
  - by rewrite add_relationship_line_malformed.
  - rewrite (add_relationship_line_valid _ _ _ _ _ _ _ Hne Hp).
    by apply add_relationship_keeps_attr.
Qed.

Lemma add_relationship_line_uniform line g :
  ∃ (r : result unit) (added : string → string → list string),
    ∀ h, dom h = dom g →
      (add_relationship_line line h).1 = r
      ∧ ∀ a b, edges_between (add_relationship_line line h).2 a b
               = edges_between h a b ++ added a b.
Proof.
  destruct (relationship_line_cases line)
    as [Hb|[Hm|(Hne & rel & id1 & t1 & id2 & t2 & Hp)]].
  - exists (Ok tt), (λ _ _, []). intros h _.
    rewrite add_relationship_line_blank by done. split; [done|].
    intros. by rewrite app_nil_r.
  - exists (Raise (InvalidRelationshipLine
                     ("Error processing relationship: " +:+ PyStr.strip line))),
           (λ _ _, []).
    intros h _.
    rewrite add_relationship_line_malformed by done. split; [done|].
    intros. by rewrite app_nil_r.
  - destruct (add_relationship_uniform rel id1 t1 id2 t2 g) as (r & added & H).
    exists r, added. intros h Hdom.
    rewrite (add_relationship_line_valid _ _ _ _ _ _ _ Hne Hp). by apply H.
Qed.

(** **** The loop over the lines *)

Lemma add_relationship_lines_cons line lines g :
  add_relationship_lines (line :: lines) g =
    match add_relationship_line line g with
    | (Ok _, g') => add_relationship_lines lines g'
    | (Raise e, g') => (Raise e, g')
    end.
Proof. done. Qed.

Lemma add_relationship_lines_app pre rest g g' :
  add_relationship_lines pre g = (Ok tt, g') →
  add_relationship_lines (pre ++ rest) g = add_relationship_lines rest g'.
Proof.
  revert g. induction pre as [|l pre IH]; intros g Hpre.
  - by inversion Hpre.
  - simpl app. rewrite add_relationship_lines_cons in *.
    destruct (add_relationship_line l g) as [[[]|e] g1]; [by apply IH|done].
Qed.

Lemma add_relationship_lines_dom lines g :
  dom (add_relationship_lines lines g).2 = dom g.
Proof.
  revert g. induction lines as [|l lines IH]; intros g; [done|].
  rewrite add_relationship_lines_cons.
  pose proof (add_relationship_line_dom l g) as Hl.
  destruct (add_relationship_line l g) as [[[]|e] g1]; simpl in *; [|done].
  by rewrite IH.
Qed.

Lemma add_relationship_lines_keeps_attr lines g n k t :
  node_attr g n k = Some t →
  node_attr (add_relationship_lines lines g).2 n k = Some t.
Proof.
  revert g. induction lines as [|l lines IH]; intros g Ht; [done|].
  rewrite add_relationship_lines_cons.
  pose proof (add_relationship_line_keeps_attr l g n k t Ht) as Hl.
  destruct (add_relationship_line l g) as [[[]|e] g1]; simpl in *; [|done].
  by apply IH.
Qed.

Lemma add_relationship_lines_uniform lines g :
  ∃ (r : result unit) (added : string → string → list string),
    ∀ h, dom h = dom g →
      (add_relationship_lines lines h).1 = r
      ∧ ∀ a b, edges_between (add_relationship_lines lines h).2 a b
               = edges_between h a b ++ added a b.
Proof.
  revert g. induction lines as [|l lines IH]; intros g.
  { exists (Ok tt), (λ _ _, []). intros h _. split; [done|].
    intros. simpl. by rewrite app_nil_r. }
  destruct (add_relationship_line_uniform l g) as (r1 & added1 & H1).
  destruct r1 as [[]|e].
  - destruct (IH g) as (r2 & added2 & H2).
    exists r2, (λ a b, added1 a b ++ added2 a b). intros h Hdom.
    rewrite add_relationship_lines_cons.
    destruct (H1 h Hdom) as [Hr Hadd].
    pose proof (add_relationship_line_dom l h) as Hd.
    destruct (add_relationship_line l h) as [[[]|e] h1]; simpl in *; [|done].
    destruct (H2 h1) as [Hr2 Hadd2]; [congruence|].
    split; [done|]. intros a b. by rewrite Hadd2, Hadd, (assoc_L (++)).
  - exists (Raise e), added1. intros h Hdom.
    rewrite add_relationship_lines_cons.
    destruct (H1 h Hdom) as [Hr Hadd].
    destruct (add_relationship_line l h) as [[[]|e'] h1]; simpl in *; [done|].
    by split.
Qed.

Lemma add_relationship_line_invalid_inv line g msg :
  (add_relationship_line line g).1 = Raise (InvalidRelationshipLine msg) →
  malformed_relationship_line line
  ∧ msg = "Error processing relationship: " +:+ PyStr.strip line.
Proof.
  destruct (relationship_line_cases line)
    as [Hb|[Hm|(Hne & rel & id1 & t1 & id2 & t2 & Hp)]].
  - by rewrite add_relationship_line_blank.
  - rewrite add_relationship_line_malformed by done. simpl.
    intros [= <-]. done.
  - rewrite (add_relationship_line_valid _ _ _ _ _ _ _ Hne Hp).
    intros H. by apply add_relationship_never_invalid in H.
Qed.

Lemma add_relationship_lines_invalid_inv lines g msg g' :
  add_relationship_lines lines g = (Raise (InvalidRelationshipLine msg), g') →
  ∃ pre bad post,
    lines = pre ++ bad :: post
    ∧ add_relationship_lines pre g = (Ok tt, g')
    ∧ malformed_relationship_line bad
    ∧ msg = "Error processing relationship: " +:+ PyStr.strip bad.
Proof.
  revert g. induction lines as [|l lines IH]; intros g; [done|].
  rewrite add_relationship_lines_cons.
  destruct (add_relationship_line l g) as [[[]|e] g1] eqn:El.
  - intros (pre & bad & post & -> & Hpre & Hbad & ->)%IH.
    exists (l :: pre), bad, post. split; [done|].
    split; [|done]. rewrite add_relationship_lines_cons. by rewrite El.
  - intros [= -> ->].
    pose proof (add_relationship_line_invalid_inv l g msg) as Hinv.
    rewrite El in Hinv. destruct (Hinv eq_refl) as [Hm ->].
    exists [], l, lines. split; [done|]. split; [|done].
    rewrite add_relationship_line_malformed in El by done. by inversion El.
Qed.

(** C2 (amended). A valid relationship line is ingested only when both of
    its endpoints are nodes already: the line then succeeds, creates no
    node, leaves each endpoint with a [Type] (the one it had, else the
    declared one) and appends the labeled edge [id1 → id2].  Endpoints are
    not created on demand: an unknown [id1] raises [KeyError] with the
    store untouched, an unknown [id2] raises [KeyError] with no node and no
    edge added. *)
Theorem relationship_line_requires_known_endpoints
    line rel id1 type1 id2 type2 g :
  PyStr.strip line ≠ "" →
  parse_relationship_line (PyStr.strip line) = Ok (rel, id1, type1, id2, type2) →
  (is_Some (g !! id1) → is_Some (g !! id2) →
     ∃ g', add_relationship_line line g = (Ok tt, g')
       ∧ dom g' = dom g
       ∧ node_attr g' id1 "Type" = Some (default type1 (node_attr g id1 "Type"))
       ∧ node_attr g' id2 "Type"
         = Some (default (if decide (id1 = id2) then type1 else type2)
                         (node_attr g id2 "Type"))
       ∧ ∀ a b, edges_between g' a b
                = edges_between g a b
                  ++ (if decide (a = id1 ∧ b = id2) then [rel] else []))
  ∧ (g !! id1 = None →
     add_relationship_line line g = (Raise (KeyError id1), g))
  ∧ (is_Some (g !! id1) → g !! id2 = None →
     ∃ g', add_relationship_line line g = (Raise (KeyError id2), g')
       ∧ dom g' = dom g
       ∧ ∀ a b, edges_between g' a b = edges_between g a b).
Proof.
  intros Hne Hp. rewrite (add_relationship_line_valid _ _ _ _ _ _ _ Hne Hp).
  pose proof (add_relationship_dom rel id1 type1 id2 type2 g) as Hdom.
  destruct (add_relationship_cases rel id1 type1 id2 type2 g)
    as [[E1 Hr]|[(E1 & E2 & Hr)|(E1 & E2 & Hr)]]; rewrite Hr in *; simpl in *.
  - split; [|split]; [| |].
    + intros [? ?]; congruence.
    + done.
    + intros [? ?]; congruence.
  - split; [|split].
    + intros _ [? ?]; congruence.
    + intros ?. destruct E1; congruence.
    + intros _ _. eexists. split; [done|]. split; [done|].
      intros a b. apply nodes_setdefault_edges_between.
  - split; [|split].
    + intros _ _. eexists. split; [done|]. split; [done|].
      split; [|split].
      * rewrite add_edge_node_attr, !nodes_setdefault_node_attr.
        rewrite (decide_True (P := id1 = id1 ∧ _)) by done.
        case_decide as Hc; [|done]. destruct Hc as (<- & _ & _).
        rewrite decide_True by done. done.
      * rewrite add_edge_node_attr, !nodes_setdefault_node_attr.
        rewrite decide_True
          by (split; [done|split; [done|by apply nodes_setdefault_lookup_is_Some]]).
        destruct (decide (id1 = id2)) as [<-|Hdiff].
        -- rewrite (decide_True (P := id1 = id1 ∧ _)) by done. done.
        -- rewrite decide_False by (intros (? & _); done). done.
      * intros a b.
        by rewrite add_edge_edges_between, !nodes_setdefault_edges_between.
    + intros ?. destruct E1; congruence.
    + intros _ ?. destruct E2; congruence.
Qed.

Lemma relationship_line_requires_known_endpoints_witness :
  let line := "FRIENDS_WITH    A       Person  C       Person" +:+ Sample.lf in
  ∃ g', add_relationship_line line Sample.g_props = (Ok tt, g')
    ∧ dom g' = dom Sample.g_props
    ∧ node_attr g' "A" "Type"
      = Some (default "Person" (node_attr Sample.g_props "A" "Type"))
    ∧ node_attr g' "C" "Type"
      = Some (default (if decide ("A" = "C") then "Person" else "Person")
                      (node_attr Sample.g_props "C" "Type"))
    ∧ ∀ a b, edges_between g' a b
             = edges_between Sample.g_props a b
               ++ (if decide (a = "A" ∧ b = "C") then ["FRIENDS_WITH"] else []).
Proof.
  intros line.
  refine (proj1 (relationship_line_requires_known_endpoints
                   line "FRIENDS_WITH" "A" "Person" "C" "Person"
                   Sample.g_props _ _) _ _).
  - vm_compute. discriminate.
  - vm_compute. reflexivity.
  - vm_compute. eexists. reflexivity.
  - vm_compute. eexists. reflexivity.
Defined.

(** C2, as stated, fails: on a store without nodes the first line of the
    test relationship file is valid, yet ingestion raises [KeyError] for
    its first endpoint and adds neither node nor edge. *)
Lemma relationship_to_unknown_node_raises_KeyError :
  parse_relationship_line
    (PyStr.strip ("FRIENDS_WITH    A       Person  C       Person" +:+ Sample.lf))
  = Ok ("FRIENDS_WITH", "A", "Person", "C", "Person")
  ∧ add_relationships_from_file Sample.fs "relationships.txt" ∅
    = (Raise (KeyError "A"), ∅).
Proof. split; vm_compute; reflexivity. Qed.

(** C4. First write wins for [Type]: once a node has a [Type], ingesting
    any relationship source, whatever types its lines declare for that
    node and however the ingestion ends, leaves the stored [Type] as it
    was. *)
Theorem relationship_ingestion_keeps_Type fs path g id t :
  node_attr g id "Type" = Some t →
  node_attr (add_relationships_from_file fs path g).2 id "Type" = Some t.
Proof.
  intros Ht. unfold add_relationships_from_file.
  destruct (fs !! path) as [[|header lines]|]; [done| |done].
  by apply add_relationship_lines_keeps_attr.
Qed.

Lemma relationship_ingestion_keeps_Type_witness :
  node_attr Sample.g_friends "A" "Type" = Some "Person"
  ∧ (add_relationships_from_file Sample.fs "retype.txt" Sample.g_friends).1 = Ok tt
  ∧ node_attr (add_relationships_from_file Sample.fs "retype.txt" Sample.g_friends).2
      "A" "Type" = Some "Person".
Proof.
  split; [vm_compute; reflexivity|]. split; [vm_compute; reflexivity|].
  apply (relationship_ingestion_keeps_Type Sample.fs "retype.txt" Sample.g_friends
           "A" "Person").
  vm_compute. reflexivity.
Defined.

Lemma add_relationship_lines_records lines (g h : ChallengeGraph) u v :
  dom h = dom g →
  edges_between (add_relationship_lines lines h).2 u v
  = edges_between h u v
    ++ labels_between (ingested_records (dom g) lines) u v.
Proof.
  revert h. induction lines as [|l lines IH]; intros h Hdom.
  { by rewrite app_nil_r. }
  rewrite add_relationship_lines_cons. simpl.
  destruct (relationship_line_cases l)
    as [Hb|[Hm|(Hne & rel & id1 & t1 & id2 & t2 & Hp)]].
  - rewrite add_relationship_line_blank, decide_True by done. by apply IH.
  - rewrite add_relationship_line_malformed by done.
    destruct Hm as [Hne Hlen]. rewrite decide_False by done.
    rewrite (parse_relationship_line_malformed _ Hlen). simpl.
    by rewrite app_nil_r.
  - rewrite (add_relationship_line_valid _ _ _ _ _ _ _ Hne Hp).
    rewrite decide_False, Hp by done.
    pose proof (add_relationship_dom rel id1 t1 id2 t2 h) as Hd.
    destruct (add_relationship_cases rel id1 t1 id2 t2 h)
      as [[H1 Hr]|[(H1 & H2 & Hr)|(H1 & H2 & Hr)]]; rewrite Hr in *; simpl in *.
    + rewrite decide_False; [by rewrite app_nil_r|].
      intros [Hin _]. rewrite <-Hdom in Hin. apply elem_of_dom in Hin.
      rewrite H1 in Hin. by destruct Hin.
    + rewrite decide_False.
      { by rewrite app_nil_r, nodes_setdefault_edges_between. }
      intros [_ Hin]. rewrite <-Hdom in Hin. apply elem_of_dom in Hin.
      rewrite H2 in Hin. by destruct Hin.
    + rewrite decide_True by (rewrite <-Hdom; by split; apply elem_of_dom).
      rewrite IH.
      * rewrite add_edge_edges_between, !nodes_setdefault_edges_between.
        simpl. rewrite <-(assoc_L (++)). f_equal.
        destruct (decide (u = id1 ∧ v = id2)) as [[-> ->]|Hn].
        -- by rewrite decide_True.
        -- rewrite decide_False; [done|]. intros [-> ->]. by apply Hn.
      * congruence.
Qed.

(** C5 (amended). Relationship ingestion is not idempotent: a second
    ingestion of the same source ends as the first did and appends, between
    every ordered pair, the very edges the first one appended, which are the
    labels of the data lines from the first node to the second that were
    ingested, in line order and with nothing deduplicated.  So the edges the
    source contributes to a pair are doubled, the pair's edge count is
    doubled when the pair had no edge before the first ingestion, and for
    every ingested record the second ingestion changes the store again. *)
Theorem relationship_reingestion_appends_again fs path g u v :
  let once := add_relationships_from_file fs path g in
  let twice := add_relationships_from_file fs path once.2 in
  let added :=
    labels_between (ingested_records (dom g) (data_lines fs path)) u v in
  twice.1 = once.1
  ∧ edges_between once.2 u v = edges_between g u v ++ added
  ∧ edges_between twice.2 u v = edges_between g u v ++ added ++ added
  ∧ number_of_edges twice.2 u v = number_of_edges g u v + 2 * length added
  ∧ (number_of_edges g u v = 0 →
     number_of_edges twice.2 u v = 2 * number_of_edges once.2 u v)
  ∧ ((∃ rel, (u, v, rel) ∈ ingested_records (dom g) (data_lines fs path)) →
     number_of_edges once.2 u v < number_of_edges twice.2 u v
     ∧ twice.2 ≠ once.2).
Proof.
  simpl. set (added := labels_between _ u v).
  assert ((add_relationships_from_file fs path
             (add_relationships_from_file fs path g).2).1
          = (add_relationships_from_file fs path g).1
          ∧ edges_between (add_relationships_from_file fs path g).2 u v
            = edges_between g u v ++ added
          ∧ edges_between (add_relationships_from_file fs path
                             (add_relationships_from_file fs path g).2).2 u v
            = edges_between (add_relationships_from_file fs path g).2 u v
              ++ added) as (Hr & H1 & H2).
  { subst added. unfold add_relationships_from_file, data_lines.
    destruct (fs !! path) as [[|header lines]|]; simpl;
      [by rewrite app_nil_r| |by rewrite app_nil_r].
    destruct (add_relationship_lines_uniform lines g) as (r & a & H).
    destruct (H g eq_refl) as [Hr1 _].
    destruct (H (add_relationship_lines lines g).2) as [Hr2 _];
      [apply add_relationship_lines_dom|].
    split; [congruence|]. split.
    - by apply add_relationship_lines_records.
    - apply add_relationship_lines_records, add_relationship_lines_dom. }
  split; [done|]. split; [done|].
  split; [by rewrite H2, H1, (assoc_L (++))|].
  unfold number_of_edges. rewrite H2, H1, !length_app.
  split; [lia|]. split; [lia|].
  intros [rel Hin].
  assert (0 < length added) as Hpos.
  { assert (rel ∈ added) as Hrel.
    { subst added. unfold labels_between. apply list_elem_of_omap.
      exists (u, v, rel). split; [done|]. simpl. by rewrite decide_True. }
    destruct added; [by apply elem_of_nil in Hrel|simpl; lia]. }
  split; [lia|]. intros Heq.
  rewrite Heq, H1 in H2. apply (f_equal length) in H2.
  rewrite !length_app in H2. lia.
Qed.

(** C5, as stated, fails: the store of the test files already has an edge
    from [A] to [B] (a [STUDIES_WITH] one) when the friends file is
    ingested; the file adds one edge to that pair each time, so the pair
    goes from one edge to two and then to three, not to four. *)
Lemma reingestion_does_not_double_the_edge_count :
  let before := Sample.g_persons in
  let once := add_relationships_from_file Sample.fs "relationships.txt" before in
  let twice := add_relationships_from_file Sample.fs "relationships.txt" once.2 in
  once.1 = Ok tt ∧ twice.1 = Ok tt
  ∧ edges_between before "A" "B" = ["STUDIES_WITH"]
  ∧ edges_between once.2 "A" "B" = ["STUDIES_WITH"; "FRIENDS_WITH"]
  ∧ edges_between twice.2 "A" "B"
    = ["STUDIES_WITH"; "FRIENDS_WITH"; "FRIENDS_WITH"]
  ∧ number_of_edges twice.2 "A" "B" ≠ 2 * number_of_edges once.2 "A" "B".
Proof. simpl. by_evaluation. Qed.

(** The test relationship file ingested twice into the store of the test
    property file: each of its three pairs goes from one edge to two. *)
Example friends_ingested_twice :
  let once := add_relationships_from_file Sample.fs "relationships.txt" Sample.g_props in
  let twice := add_relationships_from_file Sample.fs "relationships.txt" once.2 in
  (edges_between once.2 "A" "C", edges_between twice.2 "A" "C")
  = (["FRIENDS_WITH"], ["FRIENDS_WITH"; "FRIENDS_WITH"])
  ∧ map (λ p, (number_of_edges once.2 p.1 p.2, number_of_edges twice.2 p.1 p.2))
        [("A", "C"); ("A", "B"); ("B", "C"); ("C", "A")]
    = [(1, 2); (1, 2); (1, 2); (0, 0)].
Proof. split; vm_compute; reflexivity. Qed.

(** C6 (amended). Relationship ingestion raises [InvalidRelationshipLine]
    exactly when the data lines consist of lines that are ingested
    successfully followed by a non-blank line that does not split into five
    tokens; the message names that line (stripped), and the store is the
    one the earlier lines produced: their edges stay, the bad line and the
    lines after it add nothing. *)
Theorem invalid_relationship_line_iff fs path g header lines msg g' :
  fs !! path = Some (header :: lines) →
  add_relationships_from_file fs path g = (Raise (InvalidRelationshipLine msg), g')
  ↔ ∃ pre bad post,
      lines = pre ++ bad :: post
      ∧ add_relationship_lines pre g = (Ok tt, g')
      ∧ malformed_relationship_line bad
      ∧ msg = "Error processing relationship: " +:+ PyStr.strip bad.
Proof.
  intros Hfs. unfold add_relationships_from_file. rewrite Hfs. split.
  - apply add_relationship_lines_invalid_inv.
  - intros (pre & bad & post & -> & Hpre & Hbad & ->).
    rewrite (add_relationship_lines_app _ _ _ _ Hpre).
    rewrite add_relationship_lines_cons.
    by rewrite add_relationship_line_malformed.
Qed.

Lemma invalid_relationship_line_iff_witness :
  add_relationships_from_file Sample.fs "broken.txt" Sample.g_props
  = (Raise (InvalidRelationshipLine
       "Error processing relationship: FRIENDS_WITH    A       Person  B"),
     (add_relationship_lines
        ["FRIENDS_WITH    A       Person  C       Person" +:+ Sample.lf]
        Sample.g_props).2).
Proof.
  apply (invalid_relationship_line_iff Sample.fs "broken.txt" Sample.g_props
           ("Relationship    ID1     Type1   ID2     Type2" +:+ Sample.lf)
           (tail Sample.broken_txt)).
  - vm_compute. reflexivity.
  - exists ["FRIENDS_WITH    A       Person  C       Person" +:+ Sample.lf],
           ("FRIENDS_WITH    A       Person  B" +:+ Sample.lf),
           ["FRIENDS_WITH    B       Person  C       Person" +:+ Sample.lf].
    split; [reflexivity|]. split; [vm_compute; reflexivity|].
    split; [|vm_compute; reflexivity].
    split; [vm_compute; discriminate|vm_compute; lia].
Defined.

(** C6, as stated, fails: the file below has a non-blank four-token line,
    yet on a store without nodes ingestion raises [KeyError] at the valid
    line before it, not [InvalidRelationshipLine]. *)
Lemma malformed_line_behind_unknown_node :
  (∃ bad, bad ∈ tail Sample.broken_txt ∧ malformed_relationship_line bad)
  ∧ add_relationships_from_file Sample.fs "broken.txt" ∅ = (Raise (KeyError "A"), ∅).
Proof.
  split; [|vm_compute; reflexivity].
  exists ("FRIENDS_WITH    A       Person  B" +:+ Sample.lf). split.
  - unfold Sample.broken_txt. simpl. set_solver.
  - split; [vm_compute; discriminate|vm_compute; lia].
Qed.

End Store.

(** * Properties of the clique engine *)

(** *** Sublists and chains *)

Section Sublists.
Context {A : Type}.
Implicit Types (l s : list A) (x : A).

Lemma elem_of_sublists s l : s ∈ sublists l ↔ s `sublist_of` l.
Proof.
  revert s. induction l as [|x l IH]; intros s; simpl.
  - rewrite list_elem_of_singleton, sublist_nil_r. done.
  - rewrite elem_of_app, list_elem_of_fmap, sublist_cons_r. split.
    + intros [(s' & -> & Hs')|Hs]; [right|left]; [|by apply IH].
      exists s'. split; [done|]. by apply IH.
    + intros [Hs|(s' & -> & Hs')]; [right|left]; [by apply IH|].
      exists s'. split; [done|]. by apply IH.
Qed.

Lemma NoDup_sublists l : NoDup l → NoDup (sublists l).
Proof.
  induction 1 as [|x l Hx Hl IH]; simpl.
  - apply NoDup_singleton.
  - apply NoDup_app. split; [|split; [|done]].
    + apply (NoDup_fmap_2 _). done.
    + intros s (s' & -> & _)%list_elem_of_fmap Hs%elem_of_sublists.
      apply Hx. eapply elem_of_sublist; [|done]. by left.
Qed.

Lemma filter_Forall_sublists (P : A → Prop) `{!∀ x, Decision (P x)} l :
  filter (Forall P) (sublists l) = sublists (filter P l).
Proof.
  induction l as [|x l IH]; [done|]. simpl.
  rewrite filter_app, IH. destruct (decide (P x)) as [HP|HP].
  - rewrite filter_cons_True by done. simpl. f_equal.
    rewrite <-IH. clear IH. induction (sublists l) as [|s ss IHs]; [done|].
    rewrite fmap_cons. destruct (decide (Forall P s)).
    + rewrite (filter_cons_True _ (x :: s)) by (by constructor).
      rewrite (filter_cons_True _ s) by done.
      by rewrite fmap_cons, IHs.
    + rewrite !filter_cons_False; [done..|]. by intros [_ ?]%Forall_cons.
  - rewrite filter_cons_False by done.
    assert (filter (Forall P) ((x ::.) <$> sublists l) = []) as ->; [|done].
    clear IH. induction (sublists l) as [|s ss IHs]; [done|].
    rewrite fmap_cons, filter_cons_False; [done|]. by intros [? _]%Forall_cons.
Qed.

Context (R : A → A → Prop) `{!RelDecision R}.

Lemma filter_chain_fmap_cons x (ss : list (list A)) :
  filter (chain R) ((x ::.) <$> ss)
  = (x ::.) <$> filter (chain R) (filter (Forall (R x)) ss).
Proof.
  induction ss as [|s ss IH]; [done|]. rewrite fmap_cons.
  destruct (decide (Forall (R x) s)) as [HF|HF].
  - rewrite (filter_cons_True (Forall (R x))) by done.
    destruct (decide (chain R s)) as [Hc|Hc].
    + rewrite !filter_cons_True by (simpl; done). by rewrite fmap_cons, IH.
    + rewrite !filter_cons_False; [done|done|]. by intros [_ ?].
  - rewrite (filter_cons_False (Forall (R x))) by done.
    rewrite filter_cons_False; [done|]. by intros [? _].
Qed.

(** The chains among the sublists of [x :: l]: those that start with [x]
    continue inside the elements that [x] is related to. *)
Lemma filter_chain_sublists_cons x l :
  filter (chain R) (sublists (x :: l))
  = ((x ::.) <$> filter (chain R) (sublists (filter (R x) l)))
    ++ filter (chain R) (sublists l).
Proof.
  simpl. by rewrite filter_app, filter_chain_fmap_cons, filter_Forall_sublists.
Qed.

Lemma chain_pairwise s :
  NoDup s → (∀ x y, R x y → R y x) →
  chain R s ↔ ∀ x y, x ∈ s → y ∈ s → x ≠ y → R x y.
Proof.
  intros Hnd Hsym. induction Hnd as [|x s Hx Hnd IH]; simpl.
  - split; [|done]. intros _ x y Hx. by apply elem_of_nil in Hx.
  - rewrite IH, Forall_forall. split.
    + intros [Hhead Htail] a b Ha Hb Hab.
      apply elem_of_cons in Ha as [->|Ha], Hb as [->|Hb]; [done|auto..].
    + intros Hall. split.
      * intros y Hy. apply Hall; [by left|by right|]. by intros ->.
      * intros a b Ha Hb. apply Hall; by right.
Qed.

End Sublists.

Lemma filter_ext_elem {A} (P Q : A → Prop)
    `{!∀ x, Decision (P x), !∀ x, Decision (Q x)} (l : list A) :
  (∀ x, x ∈ l → P x ↔ Q x) → filter P l = filter Q l.
Proof.
  induction l as [|x l IH]; intros Hext; [done|].
  rewrite !filter_cons, IH by (intros; apply Hext; by right).
  apply decide_ext, Hext. by left.
Qed.

(** A sublist of a duplicate-free list is determined by its elements. *)
Lemma sublist_as_filter (c ns : list string) :
  NoDup ns → c `sublist_of` ns →
  c = filter (λ v, v ∈ (list_to_set c : gset string)) ns.
Proof.
  intros Hnd Hsub. induction Hsub as [|x c ns Hsub IH|x c ns Hsub IH].
  - done.
  - apply NoDup_cons in Hnd as [Hx Hnd].
    rewrite filter_cons_True by set_solver. f_equal.
    rewrite IH at 1 by done. apply filter_ext_elem; intros v Hv.
    rewrite list_to_set_cons. set_solver.
  - apply NoDup_cons in Hnd as [Hx Hnd].
    rewrite filter_cons_False; [by apply IH|].
    rewrite elem_of_list_to_set. intros Hc. apply Hx.
    by eapply elem_of_sublist.
Qed.

(** *** The queue loop *)

Section Drain.
Context (nbrs : gmap string (gset string)).
Implicit Types (base cnbrs : list string) (queue : list (list string * list string)).

Lemma extensions_cons base u cnbrs :
  NXClique.extensions nbrs base (u :: cnbrs)
  = (base ++ [u], filter (in_nbrs nbrs u) cnbrs)
    :: NXClique.extensions nbrs base cnbrs.
Proof.
  unfold NXClique.extensions. rewrite imap_cons. f_equal.
Qed.

Lemma weight_cons entry queue :
  NXClique.weight (entry :: queue) = 2 ^ length entry.2 + NXClique.weight queue.
Proof. done. Qed.

Lemma weight_app queue1 queue2 :
  NXClique.weight (queue1 ++ queue2)
  = NXClique.weight queue1 + NXClique.weight queue2.
Proof.
  apply sum_list_with_app.
Qed.

Lemma weight_extensions base cnbrs :
  NXClique.weight (NXClique.extensions nbrs base cnbrs) + 1 ≤ 2 ^ length cnbrs.
Proof.
  induction cnbrs as [|u cnbrs IH]; [done|].
  rewrite extensions_cons, weight_cons. simpl length.
  pose proof (length_filter (in_nbrs nbrs u) cnbrs) as Hlen.
  pose proof (Nat.pow_le_mono_r 2 _ _ (ltac:(lia)) Hlen).
  rewrite Nat.pow_succ_r'. lia.
Qed.

Lemma yields_extensions base cnbrs :
  yields nbrs (base, cnbrs)
  ≡ₚ base :: (NXClique.extensions nbrs base cnbrs ≫= yields nbrs).
Proof.
  induction cnbrs as [|u cnbrs IH].
  - unfold yields. simpl. by rewrite app_nil_r.
  - rewrite extensions_cons, bind_cons, Permutation_middle, <-IH.
    unfold yields. simpl fst. simpl snd.
    rewrite filter_chain_sublists_cons, fmap_app, <-list_fmap_compose.
    assert (∀ ss : list (list string),
              (base ++.) ∘ (u ::.) <$> ss = ((base ++ [u]) ++.) <$> ss) as Hcomp.
    { intros ss. apply list_fmap_ext. intros i s _. simpl.
      by rewrite <-(assoc_L (++)). }
    by rewrite Hcomp.
Qed.

(** With enough fuel the loop yields, in some order, what the entries of
    the queue stand for. *)
Lemma drain_yields fuel queue :
  NXClique.weight queue ≤ fuel →
  NXClique.drain fuel nbrs queue ≡ₚ queue ≫= yields nbrs.
Proof.
  revert queue. induction fuel as [|fuel IH]; intros queue Hw.
  - destruct queue as [|entry queue]; [done|].
    rewrite weight_cons in Hw.
    pose proof (Nat.pow_nonzero 2 (length entry.2)). lia.
  - destruct queue as [|[base cnbrs] queue]; [done|]. simpl.
    rewrite weight_cons in Hw. simpl in Hw.
    pose proof (weight_extensions base cnbrs).
    rewrite IH by (rewrite weight_app; lia).
    rewrite bind_app, yields_extensions.
    simpl. by rewrite (comm (++)).
Qed.

End Drain.

(** *** The index and the later neighbours *)

Lemma index_nbrs_prefix G (p : list string) :
  NoDup p →
  let st := foldl (NXClique.index_nbrs_step G) (∅, ∅) p in
  dom st.1 = list_to_set p
  ∧ size st.1 = length p
  ∧ (∀ j v, p !! j = Some v → st.1 !! v = Some j)
  ∧ (∀ i u, p !! i = Some u →
       st.2 !! u = Some (filter (λ v, v ∉ (list_to_set (take (S i) p) : gset string))
                                (NXGraph.neighbors G u))).
Proof.
  induction p as [|u p IH] using rev_ind; intros Hnd.
  { simpl. split; [set_solver|]. split; [done|]. split; intros ? ? H; done. }
  apply NoDup_app in Hnd as (Hnd & Hu & _).
  assert (u ∉ p) as Hup by (intros ?; eapply Hu; [done|by left]).
  destruct (IH Hnd) as (Hdom & Hsize & Hidx & Hnb). clear IH.
  rewrite foldl_app. simpl.
  set (st := foldl (NXClique.index_nbrs_step G) (∅, ∅) p) in *.
  assert (st.1 !! u = None) as Hnone.
  { apply not_elem_of_dom. rewrite Hdom. set_solver. }
  split; [|split; [|split]].
  - rewrite dom_insert_L, Hdom, list_to_set_app_L. set_solver.
  - rewrite map_size_insert_None by done. rewrite length_app. simpl. lia.
  - intros j v Hj. destruct (decide (j < length p)) as [Hlt|Hge].
    + rewrite lookup_app_l in Hj by done.
      rewrite lookup_insert_ne; [by apply Hidx|].
      intros ->. apply Hup. by eapply list_elem_of_lookup_2.
    + rewrite lookup_app_r in Hj by lia.
      destruct (j - length p) as [|k] eqn:Hk; [|done].
      inversion Hj; subst v. rewrite lookup_insert_eq. f_equal. lia.
  - intros i w Hi. destruct (decide (i < length p)) as [Hlt|Hge].
    + rewrite lookup_app_l in Hi by done.
      rewrite lookup_insert_ne.
      * rewrite (Hnb i w Hi). by rewrite take_app_le by lia.
      * intros ->. apply Hup. by eapply list_elem_of_lookup_2.
    + rewrite lookup_app_r in Hi by lia.
      destruct (i - length p) as [|k] eqn:Hk; [|done].
      inversion Hi; subst w. rewrite lookup_insert_eq. f_equal.
      rewrite take_ge by (rewrite length_app; simpl; lia).
      apply set_eq. intros v. rewrite !elem_of_filter.
      rewrite dom_insert_L, Hdom, list_to_set_app_L. set_solver.
Qed.

Section Enumerate.
Context (G : Graph) (Hwf : well_formed G).

Let ns := _node G.
Let index := (NXClique.index_nbrs G).1.
Let nbrs := (NXClique.index_nbrs G).2.

Lemma index_lookup j v : ns !! j = Some v → index !! v = Some j.
Proof.
  destruct Hwf as [Hnd _].
  destruct (index_nbrs_prefix G ns Hnd) as (_ & _ & H & _). apply H.
Qed.

Lemma in_nbrs_later i u v :
  ns !! i = Some u →
  in_nbrs nbrs u v ↔ v ∈ NXGraph.neighbors G u ∧ v ∈ drop (S i) ns.
Proof.
  intros Hi. destruct Hwf as [Hnd Hadj].
  destruct (index_nbrs_prefix G ns Hnd) as (_ & _ & _ & H).
  unfold in_nbrs, nbrs, NXClique.index_nbrs. fold ns. rewrite (H i u Hi). simpl.
  rewrite elem_of_filter, elem_of_list_to_set.
  pose proof (take_drop (S i) ns) as Hsplit.
  assert (NoDup (take (S i) ns ++ drop (S i) ns)) as Hnd' by by rewrite Hsplit.
  apply NoDup_app in Hnd' as (_ & Hdisj & _).
  split.
  - intros [Hnot Hv]. split; [done|].
    destruct (Hadj u v Hv) as (_ & Hvn & _). fold ns in Hvn.
    rewrite <-Hsplit in Hvn. apply elem_of_app in Hvn as [?|?]; done.
  - intros [Hv Hd]. split; [|done]. intros Ht. by eapply Hdisj.
Qed.

#[local] Instance index_le_trans : Transitive (NXClique.index_le index).
Proof. intros x y z. unfold NXClique.index_le. lia. Qed.

#[local] Instance index_le_total : Total (NXClique.index_le index).
Proof. intros x y. unfold NXClique.index_le. lia. Qed.

Lemma StronglySorted_positions (l : list string) :
  (∀ i j x y, l !! i = Some x → l !! j = Some y → i < j →
     NXClique.index_le index x y) →
  StronglySorted (NXClique.index_le index) l.
Proof.
  induction l as [|x l IH]; intros H; constructor.
  - apply IH. intros i j a b Ha Hb Hij. apply (H (S i) (S j)); [done|done|lia].
  - apply Forall_forall. intros y [j Hj]%list_elem_of_lookup.
    apply (H 0 (S j)); [done|done|lia].
Qed.

Lemma StronglySorted_sublist_of {A} (R : relation A) (k l : list A) :
  k `sublist_of` l → StronglySorted R l → StronglySorted R k.
Proof.
  induction 1 as [|x k l Hs IH|x k l Hs IH]; intros Hl; [done| |].
  - apply StronglySorted_inv in Hl as [Hl Hx].
    constructor; [by apply IH|].
    apply Forall_forall. intros y Hy. rewrite Forall_forall in Hx.
    apply Hx. by eapply elem_of_sublist.
  - apply StronglySorted_inv in Hl as [Hl _]. by apply IH.
Qed.

Lemma nodes_sorted_by_index : StronglySorted (NXClique.index_le index) ns.
Proof.
  apply StronglySorted_positions. intros i j x y Hx Hy Hij.
  unfold NXClique.index_le.
  rewrite (index_lookup i x Hx), (index_lookup j y Hy). simpl. lia.
Qed.

(** Sorting [nbrs[u]] by index lists the later nodes of the graph that are
    neighbours of [u], in the order of the graph. *)
Lemma sorted_nbrs i u :
  ns !! i = Some u →
  NXClique.sorted_by_index index (default ∅ (nbrs !! u))
  = filter (in_nbrs nbrs u) (drop (S i) ns).
Proof.
  intros Hi. destruct Hwf as [Hnd Hadj]. unfold NXClique.sorted_by_index.
  assert (NoDup (drop (S i) ns)) as Hnd_drop.
  { eapply sublist_NoDup; [done|apply sublist_drop]. }
  assert (filter (in_nbrs nbrs u) (drop (S i) ns) `sublist_of` ns) as Hsub.
  { etrans; [apply sublist_filter|apply sublist_drop]. }
  apply StronglySorted_unique_strong with (R := NXClique.index_le index).
  - intros x1 x2 Hx1 Hx2 H12 H21.
    rewrite merge_sort_Permutation, elem_of_elements in Hx1.
    change (in_nbrs nbrs u x1) in Hx1.
    apply (in_nbrs_later i u x1 Hi) in Hx1 as [_ Hx1].
    apply list_elem_of_filter in Hx2 as [_ Hx2].
    eapply elem_of_sublist in Hx1; [|apply sublist_drop].
    eapply elem_of_sublist in Hx2; [|apply sublist_drop].
    apply list_elem_of_lookup in Hx1 as [j1 Hj1], Hx2 as [j2 Hj2].
    unfold NXClique.index_le in *.
    rewrite (index_lookup j1 x1 Hj1), (index_lookup j2 x2 Hj2) in *.
    simpl in *. assert (j1 = j2) as -> by lia. congruence.
  - apply (StronglySorted_merge_sort _).
  - eapply StronglySorted_sublist_of; [done|apply nodes_sorted_by_index].
  - rewrite merge_sort_Permutation. apply NoDup_Permutation.
    + apply NoDup_elements.
    + by apply NoDup_filter.
    + intros v. rewrite elem_of_elements, list_elem_of_filter.
      change (v ∈ default ∅ (nbrs !! u)) with (in_nbrs nbrs u v).
      rewrite (in_nbrs_later i u v Hi). tauto.
Qed.

Lemma initial_queue :
  (λ u, ([u], NXClique.sorted_by_index index (default ∅ (nbrs !! u)))) <$> ns
  = NXClique.extensions nbrs [] ns.
Proof.
  rewrite <-imap_const. unfold NXClique.extensions.
  apply imap_ext. intros i u Hi. simpl. f_equal. by apply sorted_nbrs.
Qed.

(** What the generator yields, up to order: the non-empty chains among the
    sublists of the node list. *)
Lemma enumerate_all_cliques_Permutation :
  [] :: NXClique.enumerate_all_cliques G
  ≡ₚ filter (chain (in_nbrs nbrs)) (sublists ns).
Proof.
  set (queue := (λ u, ([u], NXClique.sorted_by_index index (default ∅ (nbrs !! u))))
                  <$> ns).
  assert (NXClique.enumerate_all_cliques G
          = NXClique.drain (NXClique.weight queue) nbrs queue) as ->.
  { unfold NXClique.enumerate_all_cliques, queue, index, nbrs, ns.
    by destruct (NXClique.index_nbrs G). }
  rewrite drain_yields by done. unfold queue. rewrite initial_queue.
  rewrite <-yields_extensions. unfold yields. simpl.
  by rewrite list_fmap_id.
Qed.

End Enumerate.

(** *** What [enumerate_all_cliques] yields *)

Lemma chain_sublist_later {A} (R Adj : A → A → Prop) (ns c : list A) :
  (∀ p u s, ns = p ++ u :: s → ∀ v, v ∈ s → R u v ↔ Adj u v) →
  c `sublist_of` ns → chain R c ↔ chain Adj c.
Proof.
  intros H Hsub. induction Hsub as [|x c ns Hsub IH|x c ns Hsub IH]; [done| |].
  - simpl. rewrite IH.
    + rewrite !Forall_forall. split; intros [Hx Hc]; (split; [|done]);
        intros v Hv; apply (H [] x ns eq_refl v);
        eauto using elem_of_sublist.
    + intros p u s -> v Hv. by apply (H (x :: p) u s).
  - apply IH. intros p u s -> v Hv. by apply (H (x :: p) u s).
Qed.

Section EnumerateSpec.
Context (G : Graph) (Hwf : well_formed G).

Let ns := _node G.
Let nbrs := (NXClique.index_nbrs G).2.
Let adjacent (u v : string) : Prop := v ∈ NXGraph.neighbors G u.

Lemma adjacent_sym u v : adjacent u v → adjacent v u.
Proof. intros H. by apply Hwf in H as (_ & _ & ?). Qed.

Lemma chain_in_nbrs c :
  c `sublist_of` ns → chain (in_nbrs nbrs) c ↔ chain adjacent c.
Proof.
  apply chain_sublist_later. intros p u s Hns v Hv.
  unfold nbrs, adjacent. rewrite (in_nbrs_later G Hwf (length p) u v).
  - fold ns. rewrite Hns. rewrite (cons_middle u p s), (assoc_L (++)).
    rewrite drop_app_length' by (rewrite length_app; simpl; lia). tauto.
  - fold ns. rewrite Hns. by rewrite list_lookup_middle.
Qed.

Lemma elem_of_enumerate_all_cliques c :
  c ∈ NXClique.enumerate_all_cliques G
  ↔ c ≠ [] ∧ c `sublist_of` ns ∧ chain adjacent c.
Proof.
  pose proof (enumerate_all_cliques_Permutation G Hwf) as HP.
  assert (NoDup ([] :: NXClique.enumerate_all_cliques G)) as Hnd.
  { rewrite HP. apply NoDup_filter, NoDup_sublists, Hwf. }
  apply NoDup_cons in Hnd as [Hnil _].
  split.
  - intros Hc. split; [by intros ->|].
    assert (c ∈ [] :: NXClique.enumerate_all_cliques G) as Hc' by by right.
    rewrite HP in Hc'. apply list_elem_of_filter in Hc' as [Hch Hs].
    apply elem_of_sublists in Hs. split; [done|]. by apply chain_in_nbrs.
  - intros (Hne & Hs & Hch).
    assert (c ∈ [] :: NXClique.enumerate_all_cliques G) as Hc'.
    { rewrite HP. apply list_elem_of_filter. split.
      - by apply chain_in_nbrs.
      - by apply elem_of_sublists. }
    apply elem_of_cons in Hc' as [?|?]; done.
Qed.

Lemma NoDup_enumerate_all_cliques : NoDup (NXClique.enumerate_all_cliques G).
Proof.
  pose proof (enumerate_all_cliques_Permutation G Hwf) as HP.
  assert (NoDup ([] :: NXClique.enumerate_all_cliques G)) as Hnd.
  { rewrite HP. apply NoDup_filter, NoDup_sublists, Hwf. }
  by apply NoDup_cons in Hnd as [_ ?].
Qed.

(** Every yielded list is a clique without repetition. *)
Lemma enumerate_all_cliques_sound c :
  c ∈ NXClique.enumerate_all_cliques G →
  NoDup c ∧ clique_of G (list_to_set c).
Proof.
  intros (Hne & Hs & Hch)%elem_of_enumerate_all_cliques.
  assert (NoDup c) as Hnd by (eapply sublist_NoDup; [apply Hwf|done]).
  split; [done|]. split; [|split].
  - destruct c as [|x c]; [done|]. set_solver.
  - intros u Hu%elem_of_list_to_set. by eapply elem_of_sublist.
  - intros u v Hu%elem_of_list_to_set Hv%elem_of_list_to_set Huv.
    by apply (chain_pairwise adjacent c Hnd adjacent_sym).
Qed.

(** Every clique is yielded. *)
Lemma enumerate_all_cliques_complete (S : gset string) :
  clique_of G S →
  ∃ c, c ∈ NXClique.enumerate_all_cliques G ∧ list_to_set c = S.
Proof.
  intros (Hne & Hnodes & Hadj).
  exists (filter (λ v, v ∈ S) ns).
  assert (list_to_set (filter (λ v, v ∈ S) ns) = S) as Hset.
  { apply set_eq. intros v. rewrite elem_of_list_to_set, list_elem_of_filter.
    split; [tauto|]. intros Hv. split; [done|]. by apply Hnodes. }
  split; [|done]. apply elem_of_enumerate_all_cliques. split; [|split].
  - intros Hnil. apply Hne. rewrite <-Hset, Hnil. done.
  - apply sublist_filter.
  - apply chain_pairwise.
    + apply NoDup_filter, Hwf.
    + apply adjacent_sym.
    + intros x y [Hx _]%list_elem_of_filter [Hy _]%list_elem_of_filter Hxy.
      by apply Hadj.
Qed.

(** No clique is yielded twice, in whatever order of its members. *)
Lemma enumerate_all_cliques_once :
  NoDup (list_to_set <$> NXClique.enumerate_all_cliques G : list (gset string)).
Proof.
  apply NoDup_fmap_2_strong; [|apply NoDup_enumerate_all_cliques].
  intros c1 c2 (_ & H1 & _)%elem_of_enumerate_all_cliques
         (_ & H2 & _)%elem_of_enumerate_all_cliques Heq.
  rewrite (sublist_as_filter c1 ns), (sublist_as_filter c2 ns);
    [|apply Hwf|done|apply Hwf|done].
  by rewrite Heq.
Qed.

End EnumerateSpec.

(** *** Building the undirected graph *)

Lemma well_formed_empty : well_formed NXGraph.empty.
Proof.
  split; [apply NoDup_nil_2|]. intros u v Hv.
  unfold NXGraph.neighbors, NXGraph.empty in Hv. simpl in Hv.
  rewrite lookup_empty in Hv. set_solver.
Qed.

Section AddEdge.
Context (G : Graph) (Hwf : well_formed G).

Lemma neighbors_outside u : u ∉ _node G → NXGraph.neighbors G u = ∅.
Proof.
  intros Hu. apply set_eq. intros v. split; [|set_solver].
  intros Hv. destruct Hu. by apply Hwf in Hv as (? & _).
Qed.

Lemma add_node_nodes u x :
  x ∈ _node (NXGraph.add_node u G) ↔ x ∈ _node G ∨ x = u.
Proof.
  unfold NXGraph.add_node. case_decide as Hu; simpl.
  - split; [tauto|]. intros [?| ->]; done.
  - rewrite elem_of_app, list_elem_of_singleton. done.
Qed.

Lemma add_node_neighbors u x :
  NXGraph.neighbors (NXGraph.add_node u G) x = NXGraph.neighbors G x.
Proof.
  unfold NXGraph.add_node. case_decide as Hu; [done|].
  unfold NXGraph.neighbors at 1. simpl.
  destruct (decide (u = x)) as [->|Hne].
  - rewrite lookup_insert_eq. simpl. by rewrite neighbors_outside.
  - by rewrite lookup_insert_ne.
Qed.

Lemma add_node_well_formed u : well_formed (NXGraph.add_node u G).
Proof.
  split.
  - unfold NXGraph.add_node. case_decide as Hu; [apply Hwf|]. simpl.
    apply NoDup_app. split; [apply Hwf|]. split; [|apply NoDup_singleton].
    intros x Hx ->%list_elem_of_singleton. done.
  - intros a b. rewrite !add_node_neighbors, !add_node_nodes.
    intros Hb. apply Hwf in Hb as (? & ? & ?). tauto.
Qed.

End AddEdge.

Lemma add_edge_nodes G a b x :
  x ∈ _node (NXGraph.add_edge a b G) ↔ x ∈ _node G ∨ x = a ∨ x = b.
Proof.
  unfold NXGraph.add_edge. simpl. rewrite !add_node_nodes. tauto.
Qed.

Lemma add_edge_neighbors G a b u v :
  well_formed G →
  v ∈ NXGraph.neighbors (NXGraph.add_edge a b G) u
  ↔ v ∈ NXGraph.neighbors G u ∨ (u = a ∧ v = b) ∨ (u = b ∧ v = a).
Proof.
  intros Hwf.
  pose proof (add_node_well_formed G Hwf a) as Hwf1.
  pose proof (add_node_neighbors (NXGraph.add_node a G) Hwf1 b) as Hn2.
  pose proof (add_node_neighbors G Hwf a) as Hn1.
  unfold NXGraph.add_edge.
  set (G2 := NXGraph.add_node b (NXGraph.add_node a G)) in *.
  assert (∀ x, NXGraph.neighbors G2 x = NXGraph.neighbors G x) as HN
    by (intros x; by rewrite Hn2, Hn1).
  unfold NXGraph.neighbors at 1. simpl.
  change (default ∅ (_adj G2 !! a)) with (NXGraph.neighbors G2 a).
  destruct (decide (b = u)) as [->|Hbu].
  - rewrite lookup_insert_eq. simpl.
    destruct (decide (a = u)) as [->|Hau].
    + rewrite lookup_insert_eq. simpl. rewrite HN. set_solver.
    + rewrite lookup_insert_ne by done.
      change (default ∅ (_adj G2 !! u)) with (NXGraph.neighbors G2 u).
      rewrite HN. set_solver.
  - rewrite lookup_insert_ne by done.
    destruct (decide (a = u)) as [->|Hau].
    + rewrite lookup_insert_eq. simpl. rewrite HN. set_solver.
    + rewrite lookup_insert_ne by done.
      change (default ∅ (_adj G2 !! u)) with (NXGraph.neighbors G2 u).
      rewrite HN. set_solver.
Qed.

Lemma add_edge_well_formed G a b :
  well_formed G → well_formed (NXGraph.add_edge a b G).
Proof.
  intros Hwf. split.
  - unfold NXGraph.add_edge. simpl.
    apply add_node_well_formed, add_node_well_formed, Hwf.
  - intros u v. rewrite !add_edge_neighbors, !add_edge_nodes by done.
    intros [Hv|[[-> ->]|[-> ->]]]; [|tauto..].
    apply Hwf in Hv as (? & ? & ?). tauto.
Qed.

Lemma add_edges_from_pairs (es : list (list string)) G :
  well_formed G → Forall (λ e, length e = 2) es →
  ∃ G', NXGraph.add_edges_from es G = Ok G'
    ∧ well_formed G'
    ∧ (∀ x, x ∈ _node G' ↔ x ∈ _node G ∨ ∃ e, e ∈ es ∧ x ∈ e)
    ∧ (∀ u v, v ∈ NXGraph.neighbors G' u
              ↔ v ∈ NXGraph.neighbors G u
                ∨ ∃ e, e ∈ es ∧ (e = [u; v] ∨ e = [v; u])).
Proof.
  intros Hwf Hes. revert G Hwf.
  induction Hes as [|e es He Hes IH]; intros G Hwf.
  - exists G. split; [done|]. split; [done|]. split.
    + intros x. split; [tauto|]. intros [?|(e & He & _)]; [done|].
      by apply elem_of_nil in He.
    + intros u v. split; [tauto|]. intros [?|(e & He & _)]; [done|].
      by apply elem_of_nil in He.
  - destruct e as [|a [|b [|c e]]]; simpl in He; try lia.
    destruct (IH (NXGraph.add_edge a b G)) as (G' & HG' & Hwf' & Hn & Ha);
      [by apply add_edge_well_formed|].
    exists G'. split; [done|]. split; [done|]. split.
    + intros x. rewrite Hn, add_edge_nodes. split.
      * intros [[?|[->| ->]]|(e & He' & Hx)]; [by left|right..].
        -- exists [a; b]. split; [by left|]. set_solver.
        -- exists [a; b]. split; [by left|]. set_solver.
        -- exists e. split; [by right|done].
      * intros [?|(e & [->|He']%elem_of_cons & Hx)]; [tauto| |].
        -- left. set_solver.
        -- right. by exists e.
    + intros u v. rewrite Ha, add_edge_neighbors by done. split.
      * intros [[?|[[-> ->]|[-> ->]]]|(e & He' & Hx)]; [by left|right..].
        -- exists [a; b]. split; [by left|by left].
        -- exists [a; b]. split; [by left|by right].
        -- exists e. split; [by right|done].
      * intros [?|(e & [->|He']%elem_of_cons & Hx)]; [tauto| |].
        -- left. destruct Hx as [[= -> ->]|[= -> ->]]; tauto.
        -- right. by exists e.
Qed.

Lemma add_edges_from_not_pair (es : list (list string)) G :
  Exists (λ e, length e ≠ 2) es →
  NXGraph.add_edges_from es G = Raise NetworkXError.
Proof.
  intros Hes. revert G. induction Hes as [e es He|e es Hes IH]; intros G.
  - destruct e as [|a [|b [|c e]]]; simpl in *; done.
  - destruct e as [|a [|b [|c e]]]; simpl in *; first [done|apply IH].
Qed.

(** An edge of two distinct endpoints is unpacked as one of its two
    orderings. *)
Lemma iter_pair_size_2 (o : set_order) (e : gset string) :
  size e = 2 →
  ∃ u v, iter_pair o e = [u; v] ∧ u ≠ v ∧ e = {[u; v]}.
Proof.
  intros Hsize. pose proof (iter_pair_perm o e) as HP.
  assert (length (iter_pair o e) = 2) as Hlen.
  { rewrite HP. by rewrite <-Hsize. }
  destruct (iter_pair o e) as [|u [|v [|w l]]] eqn:E; simpl in Hlen; try lia.
  exists u, v. split; [done|].
  assert (NoDup [u; v]) as Hnd by (rewrite HP; apply NoDup_elements).
  split.
  - apply NoDup_cons in Hnd as [Hu _]. set_solver.
  - apply set_eq. intros x. rewrite <-elem_of_elements, <-HP. set_solver.
Qed.

Lemma iter_pair_length (o : set_order) (e : gset string) :
  length (iter_pair o e) = size e.
Proof. by rewrite (iter_pair_perm o e). Qed.

Lemma elem_of_iter_edges (o : set_order) E e : e ∈ iter_edges o E ↔ e ∈ E.
Proof. by rewrite (iter_edges_perm o E), elem_of_elements. Qed.

Lemma pair_eq_inv (a b u v : string) :
  ({[a; b]} : gset string) = {[u; v]} → a ≠ b →
  (a = u ∧ b = v) ∨ (a = v ∧ b = u).
Proof.
  intros Heq Hab.
  assert (a ∈ ({[u; v]} : gset string)) as Ha by (rewrite <-Heq; set_solver).
  assert (b ∈ ({[u; v]} : gset string)) as Hb by (rewrite <-Heq; set_solver).
  set_solver.
Qed.

Lemma elem_of_nodes_of E x : x ∈ nodes_of E ↔ ∃ e, e ∈ E ∧ x ∈ e.
Proof.
  unfold nodes_of. rewrite elem_of_union_list.
  by setoid_rewrite elem_of_elements.
Qed.

(** The graph built from a set of two-element edges. *)
Lemma graph_of_edges_spec (o : set_order) (E : gset (gset string)) :
  (∀ e, e ∈ E → size e = 2) →
  ∃ G, graph_of_edges o E = Ok G
    ∧ well_formed G
    ∧ (∀ x, x ∈ _node G ↔ x ∈ nodes_of E)
    ∧ (∀ u v, v ∈ NXGraph.neighbors G u ↔ u ≠ v ∧ {[u; v]} ∈ E).
Proof.
  intros Hsize. unfold graph_of_edges.
  destruct (add_edges_from_pairs (iter_pair o <$> iter_edges o E) NXGraph.empty)
    as (G & HG & Hwf & Hn & Ha); [apply well_formed_empty| |].
  { apply Forall_fmap, Forall_forall. intros e He%elem_of_iter_edges. simpl.
    rewrite iter_pair_length. by apply Hsize. }
  exists G. split; [done|]. split; [done|]. split.
  - intros x. rewrite Hn, elem_of_nodes_of. simpl. split.
    + intros [Hx|(l & (e & -> & He%elem_of_iter_edges)%list_elem_of_fmap & Hx)].
      { by apply elem_of_nil in Hx. }
      exists e. split; [done|].
      by rewrite (iter_pair_perm o e), elem_of_elements in Hx.
    + intros (e & He & Hx). right. exists (iter_pair o e). split.
      * apply list_elem_of_fmap. exists e. by rewrite elem_of_iter_edges.
      * by rewrite (iter_pair_perm o e), elem_of_elements.
  - intros u v. rewrite Ha. split.
    + intros [Hv|(l & (e & -> & He%elem_of_iter_edges)%list_elem_of_fmap & Hl)].
      { unfold NXGraph.neighbors, NXGraph.empty in Hv. simpl in Hv.
        rewrite lookup_empty in Hv. set_solver. }
      destruct (iter_pair_size_2 o e (Hsize e He)) as (a & b & Hab & Hne & ->).
      rewrite Hab in Hl. destruct Hl as [[= -> ->]|[= -> ->]].
      * done.
      * split; [done|]. by rewrite (comm_L (∪)).
    + intros [Hne He]. right.
      destruct (iter_pair_size_2 o _ (Hsize _ He)) as (a & b & Hab & Hne' & Heq).
      exists [a; b]. split.
      * apply list_elem_of_fmap. exists {[u; v]}.
        by rewrite elem_of_iter_edges.
      * apply pair_eq_inv in Heq as [[-> ->]|[-> ->]]; auto.
Qed.

Lemma graph_of_edges_raises (o : set_order) (E : gset (gset string)) e :
  e ∈ E → size e ≠ 2 → graph_of_edges o E = Raise NetworkXError.
Proof.
  intros He Hsize. apply add_edges_from_not_pair.
  apply Exists_exists. exists (iter_pair o e). split.
  - apply list_elem_of_fmap. exists e. by rewrite elem_of_iter_edges.
  - by rewrite iter_pair_length.
Qed.

(** *** The projections *)

Lemma elem_of_edges g u v rel :
  (u, v, rel) ∈ NX.edges g ↔ rel ∈ edges_between g u v.
Proof.
  unfold NX.edges, edges_between. rewrite list_elem_of_bind. split.
  - intros ([u' d] & H & Hu%elem_of_map_to_list).
    apply list_elem_of_bind in H as ([v' ks] & H & Hv%elem_of_map_to_list).
    apply list_elem_of_bind in H as (rel' & H & Hrel).
    apply list_elem_of_singleton in H as [= -> -> ->].
    rewrite Hu. simpl. by rewrite Hv.
  - intros Hrel. destruct (g !! u) as [d|] eqn:Hu; simpl in Hrel;
      [|by apply elem_of_nil in Hrel].
    destruct (succ d !! v) as [ks|] eqn:Hv; simpl in Hrel;
      [|by apply elem_of_nil in Hrel].
    exists (u, d). split; [|by apply elem_of_map_to_list].
    apply list_elem_of_bind. exists (v, ks).
    split; [|by apply elem_of_map_to_list].
    apply list_elem_of_bind. exists rel. split; [|done].
    by apply list_elem_of_singleton.
Qed.

Lemma edges_source_is_node g u v rel : (u, v, rel) ∈ NX.edges g → is_Some (g !! u).
Proof.
  unfold NX.edges. rewrite list_elem_of_bind.
  intros ([u' d] & H & Hu%elem_of_map_to_list).
  apply list_elem_of_bind in H as ([v' ks] & H & _).
  apply list_elem_of_bind in H as (rel' & H & _).
  apply list_elem_of_singleton in H as [= -> -> ->]. eauto.
Qed.

Lemma friend_edges_loop_spec (es : list (string * string * string))
    (acc : gset (gset string)) (e : gset string) :
  e ∈ foldl (λ (edges : gset (gset string)) (nnd : string * string * string),
               let '(n1, n2, d) := nnd in
               let edge : gset string := {[n1; n2]} in
               if decide (d = "FRIENDS_WITH") then edges ∪ {[edge]} else edges)
            acc es
  ↔ e ∈ acc ∨ ∃ n1 n2, e = {[n1; n2]} ∧ (n1, n2, "FRIENDS_WITH") ∈ es.
Proof.
  revert acc. induction es as [|[[n1 n2] d] es IH]; intros acc; simpl.
  - split; [tauto|]. intros [?|(? & ? & _ & H)]; [done|by apply elem_of_nil in H].
  - rewrite IH. case_decide as Hd.
    + subst d. rewrite elem_of_union, elem_of_singleton. split.
      * intros [[?| ->]|(a & b & -> & H)]; [by left|right..].
        -- exists n1, n2. split; [done|by left].
        -- exists a, b. split; [done|by right].
      * intros [?|(a & b & -> & [[= -> ->]|H]%elem_of_cons)]; [tauto|tauto|].
        right. by exists a, b.
    + split.
      * intros [?|(a & b & -> & H)]; [by left|right].
        exists a, b. split; [done|by right].
      * intros [?|(a & b & -> & [[= -> -> <-]|H]%elem_of_cons)]; [tauto|done|].
        right. by exists a, b.
Qed.

Lemma elem_of_friend_edges g e :
  e ∈ friend_edges g
  ↔ ∃ n1 n2, e = {[n1; n2]} ∧ (n1, n2, "FRIENDS_WITH") ∈ NX.edges g.
Proof.
  unfold friend_edges. rewrite friend_edges_loop_spec. set_solver.
Qed.

Lemma nodes_get_Type_Some g n :
  is_Some (g !! n) → nodes_get_Type g n = Ok (node_attr g n "Type").
Proof. intros [d Hd]. unfold nodes_get_Type, node_attr. by rewrite Hd. Qed.

Lemma person_edges_loop_spec g (es : list (string * string * string))
    (acc : gset (gset string)) :
  Forall (λ nnd, is_Some (g !! nnd.1.1) ∧ is_Some (g !! nnd.1.2)) es →
  ∃ E, person_edges_loop g es acc = Ok E
    ∧ ∀ e, e ∈ E ↔ e ∈ acc ∨ ∃ nnd, e = {[nnd.1.1; nnd.1.2]} ∧ nnd ∈ es
                                    ∧ person_filter g nnd.
Proof.
  intros Hes. revert acc.
  induction Hes as [|[[n1 n2] d] es [H1 H2] Hes IH]; intros acc; simpl in *.
  - exists acc. split; [done|]. intros e. split; [tauto|].
    intros [?|(? & _ & H & _)]; [done|by apply elem_of_nil in H].
  - rewrite (nodes_get_Type_Some g n1 H1), (nodes_get_Type_Some g n2 H2).
    case_decide as Hp.
    + destruct (IH (acc ∪ {[ {[n1; n2]} ]})) as (E & -> & HE).
      exists E. split; [done|]. intros e. rewrite HE, elem_of_union, elem_of_singleton.
      split.
      * intros [[?| ->]|(nnd & -> & H & Hf)]; [by left|right..].
        -- exists (n1, n2, d). split; [done|]. split; [by left|done].
        -- exists nnd. split; [done|]. split; [by right|done].
      * intros [?|(nnd & -> & [->|H]%elem_of_cons & Hf)]; [tauto|tauto|].
        right. by exists nnd.
    + destruct (IH acc) as (E & -> & HE).
      exists E. split; [done|]. intros e. rewrite HE. split.
      * intros [?|(nnd & -> & H & Hf)]; [by left|right].
        exists nnd. split; [done|]. split; [by right|done].
      * intros [?|(nnd & -> & [->|H]%elem_of_cons & Hf)]; [tauto|done|].
        right. by exists nnd.
Qed.

Lemma person_edges_spec g :
  store_closed g →
  ∃ E, person_edges g = Ok E
    ∧ ∀ e, e ∈ E ↔ ∃ nnd, e = {[nnd.1.1; nnd.1.2]} ∧ nnd ∈ NX.edges g
                          ∧ person_filter g nnd.
Proof.
  intros Hc. unfold person_edges.
  destruct (person_edges_loop_spec g (NX.edges g) ∅) as (E & HE & Hspec).
  { unfold store_closed in Hc. rewrite Forall_forall in *.
    intros [[u v] rel] H. split; [|by apply (Hc _ H)].
    by eapply edges_source_is_node. }
  exists E. split; [done|]. intros e. rewrite Hspec. set_solver.
Qed.

Lemma size_pair (a b : string) : size ({[a; b]} : gset string) = 2 ↔ a ≠ b.
Proof.
  split.
  - intros Hs ->. rewrite (idemp_L (∪)), size_singleton in Hs. lia.
  - intros Hab. rewrite size_union by set_solver. by rewrite !size_singleton.
Qed.

Lemma no_loop_friend_sizes g :
  no_loop friend_filter g → ∀ e, e ∈ friend_edges g → size e = 2.
Proof.
  unfold no_loop. rewrite Forall_forall.
  intros Hl e (n1 & n2 & -> & H)%elem_of_friend_edges.
  apply size_pair. by apply (Hl _ H).
Qed.

Lemma no_loop_person_sizes g (E : gset (gset string)) :
  no_loop person_filter g →
  (∀ e, e ∈ E ↔ ∃ nnd, e = {[nnd.1.1; nnd.1.2]} ∧ nnd ∈ NX.edges g
                       ∧ person_filter g nnd) →
  ∀ e, e ∈ E → size e = 2.
Proof.
  unfold no_loop. rewrite Forall_forall.
  intros Hl HE e (nnd & -> & H & Hf)%HE.
  apply size_pair. by apply (Hl _ H).
Qed.

(** **** Populated stores are closed *)

Lemma store_closed_alt g :
  store_closed g ↔ ∀ u v rel, rel ∈ edges_between g u v → is_Some (g !! v).
Proof.
  unfold store_closed. rewrite Forall_forall. split.
  - intros H u v rel Hrel. by apply (H (u, v, rel)), elem_of_edges.
  - intros H [[u v] rel] Hrel%elem_of_edges. by apply (H u v rel).
Qed.

Lemma store_closed_empty : store_closed ∅.
Proof. apply store_closed_alt. intros u v rel H. by apply elem_of_nil in H. Qed.

Lemma add_node_edges_between n ndict g a b :
  edges_between (NX.add_node n ndict g) a b = edges_between g a b.
Proof.
  unfold edges_between. rewrite add_node_lookup. case_decide as Hn; [|done].
  subst. by destruct (g !! a).
Qed.

Lemma add_node_is_Some n ndict g x :
  is_Some (g !! x) → is_Some (NX.add_node n ndict g !! x).
Proof. rewrite add_node_lookup. case_decide; eauto. Qed.

Lemma add_nodes_from_closed (l : list (string * gmap string string)) g :
  store_closed g → store_closed (NX.add_nodes_from l g).
Proof.
  revert g. induction l as [|[n nd] l IH]; intros g Hg; [done|].
  apply IH. apply store_closed_alt. intros u v rel.
  rewrite add_node_edges_between. intros H.
  apply add_node_is_Some. by eapply store_closed_alt.
Qed.

Lemma add_properties_from_file_closed fs path g :
  store_closed g → store_closed (add_properties_from_file fs path g).2.
Proof.
  intros Hg. unfold add_properties_from_file.
  destruct (fs !! path) as [[|header lines]|]; [done| |done].
  unfold bind, lift, modify.
  destruct (parse_property_lines lines ∅) as [parsed|e]; [|done].
  by apply add_nodes_from_closed.
Qed.

Lemma nodes_setdefault_closed id key value g :
  store_closed g → store_closed (nodes_setdefault id key value g).2.
Proof.
  rewrite !store_closed_alt. intros Hg u v rel.
  rewrite nodes_setdefault_edges_between, nodes_setdefault_lookup_is_Some.
  apply Hg.
Qed.

Lemma add_relationship_closed rel id1 type1 id2 type2 g :
  store_closed g → store_closed (add_relationship rel id1 type1 id2 type2 g).2.
Proof.
  intros Hg.
  pose proof (add_relationship_dom rel id1 type1 id2 type2 g) as Hdom.
  destruct (add_relationship_cases rel id1 type1 id2 type2 g)
    as [[_ ->]|[(_ & _ & ->)|(H1 & H2 & Hr)]]; simpl.
  - done.
  - by apply nodes_setdefault_closed.
  - rewrite Hr in *. simpl in *.
    apply store_closed_alt. intros u v r.
    rewrite <-elem_of_dom, Hdom, elem_of_dom.
    rewrite add_edge_edges_between, !nodes_setdefault_edges_between.
    intros [H|H]%elem_of_app; [by eapply store_closed_alt|].
    case_decide as Hc; [|by apply elem_of_nil in H]. by destruct Hc as [-> ->].
Qed.

Lemma add_relationship_lines_closed lines g :
  store_closed g → store_closed (add_relationship_lines lines g).2.
Proof.
  revert g. induction lines as [|l lines IH]; intros g Hg; [done|].
  rewrite add_relationship_lines_cons.
  assert (store_closed (add_relationship_line l g).2) as Hl.
  { destruct (relationship_line_cases l)
      as [Hb|[Hm|(Hne & rel & id1 & t1 & id2 & t2 & Hp)]].
    - by rewrite add_relationship_line_blank.
    - by rewrite add_relationship_line_malformed.
    - rewrite (add_relationship_line_valid _ _ _ _ _ _ _ Hne Hp).
      by apply add_relationship_closed. }
  destruct (add_relationship_line l g) as [[[]|e] g1]; simpl in *; [|done].
  by apply IH.
Qed.

Lemma add_relationships_from_file_closed fs path g :
  store_closed g → store_closed (add_relationships_from_file fs path g).2.
Proof.
  intros Hg. unfold add_relationships_from_file.
  destruct (fs !! path) as [[|header lines]|]; [done| |done].
  by apply add_relationship_lines_closed.
Qed.

(** *** Cliques of the derived graph *)

Lemma clique_of_graph G (E : gset (gset string)) (S : gset string) :
  (∀ x, x ∈ _node G ↔ x ∈ nodes_of E) →
  (∀ u v, v ∈ NXGraph.neighbors G u ↔ u ≠ v ∧ {[u; v]} ∈ E) →
  clique_of G S ↔ clique E S.
Proof.
  intros Hn Ha. unfold clique_of, clique. split.
  - intros (Hne & Hnodes & Hadj). split; [done|]. split.
    + intros x Hx. by apply Hn, Hnodes.
    + intros a b HaS HbS Hab. by apply Ha, Hadj.
  - intros (Hne & Hnodes & Hadj). split; [done|]. split.
    + intros x Hx. by apply Hn, Hnodes.
    + intros a b HaS HbS Hab. apply Ha. split; [done|]. by apply Hadj.
Qed.

(** Enumeration over a set of two-element edges lists all its cliques. *)
Lemma enumerate_graph_of_edges (o : set_order) (E : gset (gset string)) :
  (∀ e, e ∈ E → size e = 2) →
  ∃ G, graph_of_edges o E = Ok G
    ∧ lists_all_cliques E (NXClique.enumerate_all_cliques G).
Proof.
  intros Hsize.
  destruct (graph_of_edges_spec o E Hsize) as (G & HG & Hwf & Hn & Ha).
  exists G. split; [done|]. split; [|split].
  - intros c Hc. destruct (enumerate_all_cliques_sound G Hwf c Hc) as [Hnd Hcl].
    split; [done|]. by apply (clique_of_graph G E _ Hn Ha).
  - intros S HS. apply (enumerate_all_cliques_complete G Hwf).
    by apply (clique_of_graph G E _ Hn Ha).
  - by apply enumerate_all_cliques_once.
Qed.

Lemma nodes_of_triangle (a b c : string) :
  nodes_of (triangle a b c) = {[a; b; c]}.
Proof.
  apply set_eq. intros x. rewrite elem_of_nodes_of. unfold triangle. split.
  - intros (e & He & Hx). rewrite !elem_of_union, !elem_of_singleton in He.
    destruct He as [[->| ->]| ->]; set_solver.
  - intros Hx. rewrite !elem_of_union, !elem_of_singleton in Hx.
    destruct Hx as [[->| ->]| ->].
    + exists {[a; b]}. set_solver.
    + exists {[a; b]}. set_solver.
    + exists {[a; c]}. set_solver.
Qed.

Lemma pair_in_triangle (a b c x y : string) :
  x ∈ ({[a; b; c]} : gset string) → y ∈ ({[a; b; c]} : gset string) → x ≠ y →
  ({[x; y]} : gset string) ∈ triangle a b c.
Proof.
  intros Hx Hy Hxy. unfold triangle.
  rewrite !elem_of_union, !elem_of_singleton in Hx, Hy.
  rewrite !elem_of_union, !elem_of_singleton.
  destruct Hx as [[->| ->]| ->], Hy as [[->| ->]| ->]; try done;
    first [ by (left; left) | by (left; right) | by right
          | left; left; apply (comm_L (∪))
          | left; right; apply (comm_L (∪))
          | right; apply (comm_L (∪)) ].
Qed.

Lemma clique_triangle (a b c : string) (S : gset string) :
  clique (triangle a b c) S ↔ S ≠ ∅ ∧ S ⊆ {[a; b; c]}.
Proof.
  unfold clique. rewrite nodes_of_triangle. split; [tauto|].
  intros [Hne Hsub]. split; [done|]. split; [done|].
  intros x y Hx Hy Hxy. apply pair_in_triangle; auto.
Qed.

Lemma nonempty_subset_of_three (a b c : string) (S : gset string) :
  S ≠ ∅ ∧ S ⊆ {[a; b; c]} ↔ S ∈ seven_cliques a b c.
Proof.
  unfold seven_cliques. rewrite !elem_of_union, !elem_of_singleton. split.
  - intros [Hne Hsub].
    destruct (decide (a ∈ S)) as [Ha|Ha], (decide (b ∈ S)) as [Hb|Hb],
             (decide (c ∈ S)) as [Hc|Hc].
    + right. set_solver.
    + do 3 left. right. set_solver.
    + do 2 left. right. set_solver.
    + do 6 left. set_solver.
    + left. right. set_solver.
    + do 5 left. right. set_solver.
    + do 4 left. right. set_solver.
    + destruct Hne. set_solver.
  - intros [[[[[[->| ->]| ->]| ->]| ->]| ->]| ->]; set_solver.
Qed.

Lemma NoDup_seven (a b c : string) :
  a ≠ b → a ≠ c → b ≠ c →
  NoDup ([ {[a]}; {[b]}; {[c]}; {[a; b]}; {[a; c]}; {[b; c]}; {[a; b; c]} ]
         : list (gset string)).
Proof.
  intros Hab Hac Hbc.
  (* which of a, b, c a set contains tells the seven sets apart *)
  set (members := λ S : gset string,
         (bool_decide (a ∈ S), bool_decide (b ∈ S), bool_decide (c ∈ S))).
  apply (NoDup_fmap_1 members).
  assert (members <$> ([ {[a]}; {[b]}; {[c]}; {[a; b]}; {[a; c]}; {[b; c]};
                         {[a; b; c]} ] : list (gset string))
          = [ (true, false, false); (false, true, false); (false, false, true);
              (true, true, false); (true, false, true); (false, true, true);
              (true, true, true) ]) as ->.
  { unfold members. simpl. repeat f_equal;
      match goal with
      | |- _ = true => apply bool_decide_eq_true_2
      | |- _ = false => apply bool_decide_eq_false_2
      end;
      rewrite ?elem_of_union, ?elem_of_singleton; intuition congruence. }
  apply (bool_decide_unpack _). vm_compute. done.
Qed.

(** In a triangle there are exactly seven cliques. *)
Lemma triangle_has_seven_cliques (a b c : string) (out : list (list string)) :
  a ≠ b → a ≠ c → b ≠ c →
  lists_all_cliques (triangle a b c) out →
  length out = 7
  ∧ (list_to_set (list_to_set <$> out : list (gset string)) : gset (gset string))
    = seven_cliques a b c.
Proof.
  intros Hab Hac Hbc (Hsound & Hcomplete & Honce).
  assert (list_to_set <$> out
          ≡ₚ ([ {[a]}; {[b]}; {[c]}; {[a; b]}; {[a; c]}; {[b; c]}; {[a; b; c]} ]
              : list (gset string))) as HP.
  { apply NoDup_Permutation; [done|by apply NoDup_seven|].
    intros S. rewrite list_elem_of_fmap.
    transitivity (clique (triangle a b c) S).
    - split.
      + intros (l & -> & Hl). by apply Hsound.
      + intros (l & Hl & <-)%Hcomplete. by exists l.
    - rewrite clique_triangle, nonempty_subset_of_three. unfold seven_cliques.
      rewrite !elem_of_cons, elem_of_nil.
      rewrite !elem_of_union, !elem_of_singleton. tauto. }
  split.
  - rewrite <-(length_fmap list_to_set out : length (list_to_set <$> out : list (gset string)) = _).
    by rewrite HP.
  - rewrite HP. unfold seven_cliques. simpl. set_solver.
Qed.

(** *** The clique queries *)


Lemma graph_of_edges_ok_iff (o : set_order) (E : gset (gset string)) :
  (∀ e, e ∈ E → size e = 2) ↔ is_ok (graph_of_edges o E) = true.
Proof.
  split.
  - intros Hsize. by destruct (graph_of_edges_spec o E Hsize) as (G & -> & _).
  - intros Hok e He. destruct (decide (size e = 2)) as [|Hne]; [done|].
    by rewrite (graph_of_edges_raises o E e He Hne) in Hok.
Qed.

(** A [FRIENDS_WITH] self-loop is the only thing that makes
    [find_friend_cliques] raise. *)
Lemma find_friend_cliques_raises (o : set_order) g :
  ¬ no_loop friend_filter g → find_friend_cliques o g = Raise NetworkXError.
Proof.
  intros Hloop. unfold no_loop in Hloop.
  apply not_Forall_Exists in Hloop; [|apply _].
  apply Exists_exists in Hloop as ([[n1 n2] d] & Hin & Hnot). simpl in Hnot.
  destruct (decide (friend_filter g (n1, n2, d))) as [Hf|Hf]; [|tauto].
  destruct (decide (n1 = n2)) as [->|Hne]; [|tauto].
  unfold friend_filter in Hf. simpl in Hf. subst d.
  unfold find_friend_cliques, find_friend_graph.
  rewrite (graph_of_edges_raises o (friend_edges g) {[n2; n2]}); [done| |].
  - apply elem_of_friend_edges. by exists n2, n2.
  - rewrite (idemp_L (∪)), size_singleton. lia.
Qed.

Lemma from_file_closed fs properties relationships :
  store_closed (from_file fs properties relationships ∅).2.
Proof.
  unfold from_file, bind.
  pose proof (add_properties_from_file_closed fs properties ∅ store_closed_empty)
    as Hp.
  destruct (add_properties_from_file fs properties ∅) as [[[]|e] g1];
    simpl in *; [|done].
  by apply add_relationships_from_file_closed.
Qed.

(** X24. On a store in which no edge that passes the filter is a
    self-loop, [find_friend_cliques] and [find_person_cliques] return, and
    what they return lists every clique of the derived undirected graph
    (every non-empty set of its nodes that are pairwise connected, maximal
    or not), each once and nothing else; when the derived graph is a
    triangle, the result has exactly seven members: the three singletons,
    the three pairs and the triple. *)
Theorem clique_enumeration_lists_all_cliques (o : set_order) g :
  (no_loop friend_filter g →
     ∃ out, find_friend_cliques o g = Ok out
       ∧ lists_all_cliques (friend_edges g) out
       ∧ ∀ a b c, a ≠ b → a ≠ c → b ≠ c →
           friend_edges g = triangle a b c →
           length out = 7
           ∧ (list_to_set (list_to_set <$> out : list (gset string))
              : gset (gset string)) = seven_cliques a b c)
  ∧ (store_closed g → no_loop person_filter g →
     ∃ E out, person_edges g = Ok E
       ∧ find_person_cliques o g = Ok out
       ∧ lists_all_cliques E out
       ∧ ∀ a b c, a ≠ b → a ≠ c → b ≠ c →
           E = triangle a b c →
           length out = 7
           ∧ (list_to_set (list_to_set <$> out : list (gset string))
              : gset (gset string)) = seven_cliques a b c).
Proof.
  split.
  - intros Hloop.
    destruct (enumerate_graph_of_edges o (friend_edges g)) as (G & HG & Hall);
      [by apply no_loop_friend_sizes|].
    exists (NXClique.enumerate_all_cliques G).
    unfold find_friend_cliques, find_friend_graph. rewrite HG.
    split; [done|]. split; [done|].
    intros a b c Hab Hac Hbc Htri. rewrite Htri in Hall.
    by apply triangle_has_seven_cliques.
  - intros Hclosed Hloop.
    destruct (person_edges_spec g Hclosed) as (E & HE & Hspec).
    destruct (enumerate_graph_of_edges o E) as (G & HG & Hall);
      [by eapply no_loop_person_sizes|].
    exists E, (NXClique.enumerate_all_cliques G).
    unfold find_person_cliques, find_person_graph. rewrite HE, HG.
    split; [done|]. split; [done|]. split; [done|].
    intros a b c Hab Hac Hbc Htri. rewrite Htri in Hall.
    by apply triangle_has_seven_cliques.
Qed.

Lemma clique_enumeration_lists_all_cliques_witness :
  (∃ out, find_friend_cliques elements_order Sample.g_friends = Ok out
     ∧ lists_all_cliques (friend_edges Sample.g_friends) out
     ∧ length out = 7
     ∧ (list_to_set (list_to_set <$> out : list (gset string))
        : gset (gset string)) = seven_cliques "A" "B" "C")
  ∧ (∃ E out, person_edges Sample.g_persons = Ok E
     ∧ find_person_cliques elements_order Sample.g_persons = Ok out
     ∧ lists_all_cliques E out
     ∧ length out = 7
     ∧ (list_to_set (list_to_set <$> out : list (gset string))
        : gset (gset string)) = seven_cliques "A" "B" "C").
Proof.
  split.
  - destruct (proj1 (clique_enumeration_lists_all_cliques
                       elements_order Sample.g_friends))
      as (out & Hout & Hall & Htri).
    { by_evaluation. }
    exists out. split; [done|]. split; [done|].
    apply (Htri "A" "B" "C"); [discriminate..|]. by_evaluation.
  - destruct (proj2 (clique_enumeration_lists_all_cliques
                       elements_order Sample.g_persons))
      as (E & out & HE & Hout & Hall & Htri).
    { by_evaluation. }
    { by_evaluation. }
    exists E, out. split; [done|]. split; [done|]. split; [done|].
    apply (Htri "A" "B" "C"); [discriminate..|].
    assert (Ok E = Ok (triangle "A" "B" "C")) as [= ->]; [|done].
    rewrite <-HE. by_evaluation.
Defined.

(** C1. The queries do not return the cliques of every populated store:
    the test property file followed by a relationship file whose only line
    is a [FRIENDS_WITH] self-loop on [A] is ingested successfully, and then
    both queries raise [NetworkXError] (whatever the iteration order of the
    sets) instead of returning the cliques of the derived graph.  The
    self-loop becomes a [frozenset] of one element, which
    [Graph.add_edges_from] does not accept as an edge. *)
Lemma self_loop_makes_enumeration_raise :
  (from_file Sample.fs "properties.txt" "selfloop.txt" ∅).1 = Ok tt
  ∧ ∀ o, find_friend_cliques o Sample.g_selfloop = Raise NetworkXError
         ∧ find_person_cliques o Sample.g_selfloop = Raise NetworkXError.
Proof.
  split; [by_evaluation|]. intros o.
  assert (friend_edges Sample.g_selfloop = {[ {["A"]} ]}) as Hf
    by by_evaluation.
  assert (person_edges Sample.g_selfloop = Ok {[ {["A"]} ]}) as Hp
    by by_evaluation.
  assert (graph_of_edges o {[ {["A"]} ]} = Raise NetworkXError) as HG.
  { apply (graph_of_edges_raises o _ {["A"]}); [set_solver|].
    rewrite size_singleton. lia. }
  split.
  - unfold find_friend_cliques, find_friend_graph. rewrite Hf, HG. reflexivity.
  - unfold find_person_cliques, find_person_graph. rewrite Hp, HG. reflexivity.
Qed.

(** The scenario of the tests: the seven cliques of [A], [B], [C]. *)
Example test_find_cliques :
  find_friend_cliques elements_order Sample.g_friends
  = Ok [["C"]; ["B"]; ["A"]; ["C"; "B"]; ["C"; "A"]; ["B"; "A"]; ["C"; "B"; "A"]]
  ∧ find_person_cliques elements_order Sample.g_persons
    = Ok [["C"]; ["B"]; ["A"]; ["C"; "B"]; ["C"; "A"]; ["B"; "A"]; ["C"; "B"; "A"]].
Proof. split; by_evaluation. Qed.



(** Parallel edges and edges in both directions give one pair; an edge with
    another label gives none. *)
Example friend_edges_is_a_set :
  let g := NX.add_edge "B" "A" "FRIENDS_WITH"
             (NX.add_edge "A" "B" "FRIENDS_WITH"
                (NX.add_edge "A" "B" "FRIENDS_WITH"
                   (NX.add_edge "A" "C" "STUDIES_WITH" Sample.g_props))) in
  number_of_edges g "A" "B" = 2
  ∧ number_of_edges g "B" "A" = 1
  ∧ number_of_edges g "A" "C" = 1
  ∧ friend_edges g = {[ {["A"; "B"]} ]}.
Proof. repeat split; by_evaluation. Qed.

(** * Further properties *)

(** *** Blank lines and tokens *)

Lemma lstrip_empty_iff s : PyStr.lstrip s = "" ↔ all_whitespace s = true.
Proof.
  induction s as [|c s IH]; simpl; [done|].
  destruct (PyStr.isspace c); simpl; [done|]. split; discriminate.
Qed.

Lemma all_whitespace_lstrip s : all_whitespace (PyStr.lstrip s) = all_whitespace s.
Proof.
  induction s as [|c s IH]; simpl; [done|].
  destruct (PyStr.isspace c) eqn:E; simpl; [done|]. by rewrite E.
Qed.

Lemma all_whitespace_rev_app s acc :
  all_whitespace (String.rev_app s acc) = all_whitespace s && all_whitespace acc.
Proof.
  revert acc. induction s as [|c s IH]; intros acc; simpl; [done|].
  rewrite IH. simpl. destruct (PyStr.isspace c), (all_whitespace s); done.
Qed.

Lemma all_whitespace_rev s : all_whitespace (String.rev s) = all_whitespace s.
Proof.
  unfold String.rev. rewrite all_whitespace_rev_app. simpl.
  by destruct (all_whitespace s).
Qed.

Lemma rev_app_empty_iff s acc : String.rev_app s acc = "" ↔ s = "" ∧ acc = "".
Proof.
  revert acc. induction s as [|c s IH]; intros acc; simpl.
  - split; [done|]. by intros [_ ?].
  - rewrite IH. split; [by intros [_ ?]|by intros [? _]].
Qed.

Lemma strip_empty_iff s : PyStr.strip s = "" ↔ all_whitespace s = true.
Proof.
  unfold PyStr.strip, PyStr.rstrip, String.rev at 1.
  rewrite rev_app_empty_iff, lstrip_empty_iff, all_whitespace_rev,
    all_whitespace_lstrip.
  tauto.
Qed.

Lemma all_whitespace_strip s : all_whitespace (PyStr.strip s) = all_whitespace s.
Proof.
  unfold PyStr.strip, PyStr.rstrip.
  by rewrite all_whitespace_rev, all_whitespace_lstrip, all_whitespace_rev,
    all_whitespace_lstrip.
Qed.

Lemma split_go_nil_iff cur s :
  PyStr.split_go cur s = [] ↔ cur = "" ∧ all_whitespace s = true.
Proof.
  revert cur. induction s as [|c s IH]; intros cur; simpl.
  - destruct cur; split; try done. by intros [? _].
  - destruct (PyStr.isspace c); simpl.
    + destruct cur as [|c' cur]; [by rewrite IH|].
      split; [done|]. by intros [? _].
    + rewrite IH. split; [by intros [? _]|by intros [_ ?]].
Qed.

Lemma split_nil_iff s : PyStr.split s = [] ↔ all_whitespace s = true.
Proof. unfold PyStr.split. rewrite split_go_nil_iff. tauto. Qed.

Lemma strip_empty_split_strip line :
  PyStr.strip line = "" ↔ PyStr.split (PyStr.strip line) = [].
Proof. by rewrite split_nil_iff, all_whitespace_strip, strip_empty_iff. Qed.

(** X1. A data line is skipped as blank exactly when it consists of
    whitespace only, which is when it has no token; a line that is not
    skipped has at least one token after stripping. *)
Theorem blank_line_iff line :
  (PyStr.strip line = "" ↔ all_whitespace line = true)
  ∧ (PyStr.strip line = "" ↔ PyStr.split line = [])
  ∧ (PyStr.strip line = "" ↔ PyStr.split (PyStr.strip line) = []).
Proof.
  split; [apply strip_empty_iff|]. split.
  - by rewrite strip_empty_iff, split_nil_iff.
  - apply strip_empty_split_strip.
Qed.

(** X2. On a line that is not blank, [parse_property_line] raises
    [IndexError] exactly when the line has a single token; with two tokens
    or more it returns the first token, the second one, and the remaining
    tokens joined by single spaces (the empty string when there is none). *)
Theorem parse_property_line_outcome line :
  PyStr.strip line ≠ "" →
  let tokens := PyStr.split (PyStr.strip line) in
  (parse_property_line (PyStr.strip line) = Raise IndexError ↔ length tokens = 1)
  ∧ (∀ id key value,
       parse_property_line (PyStr.strip line) = Ok (id, key, value)
       ↔ ∃ rest, tokens = id :: key :: rest ∧ value = PyStr.join " " rest).
Proof.
  intros Hne. simpl.
  assert (PyStr.split (PyStr.strip line) ≠ []) as Htok.
  { intros H. apply Hne. by apply strip_empty_split_strip. }
  unfold parse_property_line.
  destruct (PyStr.split (PyStr.strip line)) as [|a [|b rest]]; simpl; [done| |].
  - split; [done|]. intros id key value. split; [done|].
    intros (r & [=] & _).
  - split; [split; [done|intros [=]]|]. intros id key value. split.
    + intros [= <- <- <-]. by exists rest.
    + intros (r & [= <- <- <-] & ->). done.
Qed.

Lemma parse_property_line_outcome_witness :
  (parse_property_line (PyStr.strip ("B" +:+ Sample.lf)) = Raise IndexError
   ↔ length (PyStr.split (PyStr.strip ("B" +:+ Sample.lf))) = 1)
  ∧ (∀ id key value,
       parse_property_line (PyStr.strip ("B" +:+ Sample.lf)) = Ok (id, key, value)
       ↔ ∃ rest, PyStr.split (PyStr.strip ("B" +:+ Sample.lf)) = id :: key :: rest
                 ∧ value = PyStr.join " " rest).
Proof.
  apply (parse_property_line_outcome ("B" +:+ Sample.lf)).
  vm_compute. discriminate.
Defined.

(** *** Property ingestion, line by line *)

Lemma parse_property_line_raises line e :
  parse_property_line line = Raise e → e = IndexError.
Proof.
  unfold parse_property_line.
  destruct (PyStr.split line) as [|a [|b rest]]; simpl; by intros [= <-].
Qed.

Lemma parse_property_lines_raises lines acc e :
  parse_property_lines lines acc = Raise e → e = IndexError.
Proof.
  revert acc. induction lines as [|l lines IH]; intros acc; simpl; [done|].
  case_decide; [apply IH|].
  destruct (parse_property_line (PyStr.strip l)) as [[[id p] v]|e'] eqn:E.
  - apply IH.
  - intros [= <-]. by eapply parse_property_line_raises.
Qed.

Lemma parse_property_lines_ok_iff lines acc :
  is_ok (parse_property_lines lines acc) = true ↔ Forall property_line_ok lines.
Proof.
  revert acc. induction lines as [|l lines IH]; intros acc; simpl.
  - split; [by constructor|done].
  - rewrite Forall_cons. unfold property_line_ok at 1. case_decide as Hb.
    + rewrite IH. tauto.
    + destruct (parse_property_line (PyStr.strip l)) as [[[id p] v]|e] eqn:E.
      * rewrite IH. split; [|tauto]. intros H. split; [|done]. right.
        unfold parse_property_line in E.
        destruct (PyStr.split (PyStr.strip l)) as [|a [|b rest]];
          simpl in *; try done. lia.
      * split; [done|]. intros [[?|Hlen] _]; [done|].
        apply parse_property_line_long in Hlen. by rewrite E in Hlen.
Qed.

Lemma lookup2_insert m id p v n k :
  lookup2 (<[id := <[p := v]> (default ∅ (m !! id))]> m) n k
  = if decide (id = n ∧ p = k) then Some v else lookup2 m n k.
Proof.
  unfold lookup2. destruct (decide (id = n)) as [->|Hn].
  - rewrite lookup_insert_eq. simpl. destruct (decide (p = k)) as [->|Hk].
    + rewrite lookup_insert_eq. by rewrite decide_True.
    + rewrite lookup_insert_ne by done.
      rewrite decide_False by (intros [_ ?]; done).
      by destruct (m !! n).
  - rewrite lookup_insert_ne by done.
    by rewrite decide_False by (intros [? _]; done).
Qed.

Lemma parse_property_lines_last_value lines acc parsed n k :
  parse_property_lines lines acc = Ok parsed →
  lookup2 parsed n k
  = match last_value lines n k with
    | Some v => Some v
    | None => lookup2 acc n k
    end.
Proof.
  revert acc. induction lines as [|l lines IH]; intros acc; simpl.
  { by intros [= ->]. }
  case_decide as Hb.
  - intros H. rewrite (IH _ H). destruct (last_value lines n k); [done|].
    destruct (parse_property_line (PyStr.strip l)) as [[[id p] v]|e]; [|done].
    rewrite decide_False; [done|]. by intros [? _].
  - destruct (parse_property_line (PyStr.strip l)) as [[[id p] v]|e]; [|done].
    intros H. rewrite (IH _ H). destruct (last_value lines n k); [done|].
    rewrite lookup2_insert.
    destruct (decide (id = n ∧ p = k)) as [[-> ->]|Hne].
    + by rewrite decide_True.
    + rewrite decide_False; [done|]. intros (_ & ? & ?). by apply Hne.
Qed.

Lemma parse_property_lines_dom lines acc parsed :
  parse_property_lines lines acc = Ok parsed →
  dom parsed = dom acc ∪ property_ids lines.
Proof.
  revert acc. induction lines as [|l lines IH]; intros acc; simpl.
  { intros [= ->]. set_solver. }
  case_decide as Hb.
  - intros H. rewrite (IH _ H).
    assert (PyStr.split (PyStr.strip l) = []) as -> by by apply strip_empty_split_strip.
    done.
  - unfold parse_property_line.
    destruct (PyStr.split (PyStr.strip l)) as [|a [|b rest]]; simpl; [done..|].
    intros H. rewrite (IH _ H), dom_insert_L. set_solver.
Qed.

Lemma add_nodes_from_node_attr (m : gmap string (gmap string string)) g n k :
  node_attr (NX.add_nodes_from (map_to_list m) g) n k
  = match lookup2 m n k with
    | Some v => Some v
    | None => node_attr g n k
    end.
Proof.
  unfold node_attr, lookup2. rewrite add_nodes_from_map_lookup.
  destruct (m !! n) as [nd|]; simpl; [|done].
  destruct (nd !! k) as [v|] eqn:Hk.
  - by rewrite (lookup_union_Some_l _ _ _ _ Hk).
  - rewrite (lookup_union_r _ _ _ Hk). by destruct (g !! n).
Qed.

Lemma add_nodes_from_dom (m : gmap string (gmap string string)) g :
  dom (NX.add_nodes_from (map_to_list m) g) = dom g ∪ dom m.
Proof.
  apply set_eq. intros n. rewrite elem_of_union, !elem_of_dom.
  rewrite add_nodes_from_map_lookup.
  destruct (m !! n) as [nd|] eqn:Hn.
  - split; [intros _; right; eauto|eauto].
  - split; [tauto|]. intros [?|[? ?]]; done.
Qed.

Lemma add_nodes_from_edges_between (l : list (string * gmap string string)) g a b :
  edges_between (NX.add_nodes_from l g) a b = edges_between g a b.
Proof.
  revert g. induction l as [|[n nd] l IH]; intros g; [done|].
  change (NX.add_nodes_from ((n, nd) :: l) g)
    with (NX.add_nodes_from l (NX.add_node n nd g)).
  by rewrite IH, add_node_edges_between.
Qed.

Lemma add_properties_from_file_all_or_nothing_aux fs path g :
  (add_properties_from_file fs path g).1 ≠ Ok tt →
  (add_properties_from_file fs path g).2 = g.
Proof.
  unfold add_properties_from_file.
  destruct (fs !! path) as [[|header lines]|]; simpl; [done| |done].
  unfold bind, lift, modify.
  by destruct (parse_property_lines lines ∅) as [parsed|e'].
Qed.

(** X3. Property ingestion is all or nothing: when it raises, the store is
    exactly as before the call, whatever was read before the failure.  On a
    source that is read as a header line followed by data lines, what it
    raises is [IndexError], and some data line has a single token. *)
Theorem add_properties_from_file_all_or_nothing fs path g e :
  (add_properties_from_file fs path g).1 = Raise e →
  (add_properties_from_file fs path g).2 = g
  ∧ ∀ header lines, fs !! path = Some (header :: lines) →
      e = IndexError ∧ ¬ Forall property_line_ok lines.
Proof.
  intros He. split.
  { apply add_properties_from_file_all_or_nothing_aux. by rewrite He. }
  intros header lines Hfs. revert He.
  unfold add_properties_from_file. rewrite Hfs. unfold bind, lift, modify.
  destruct (parse_property_lines lines ∅) as [parsed|e'] eqn:E; simpl; [done|].
  intros [= ->]. split; [by eapply parse_property_lines_raises|].
  intros Hok%(parse_property_lines_ok_iff lines ∅). by rewrite E in Hok.
Qed.

Lemma add_properties_from_file_all_or_nothing_witness :
  (add_properties_from_file Sample.fs "short.txt" Sample.g_friends).2
  = Sample.g_friends
  ∧ ∀ header lines, Sample.fs !! "short.txt" = Some (header :: lines) →
      IndexError = IndexError ∧ ¬ Forall property_line_ok lines.
Proof.
  apply (add_properties_from_file_all_or_nothing Sample.fs "short.txt"
           Sample.g_friends IndexError).
  vm_compute. reflexivity.
Defined.

(** X4. Last write wins, per entity and property: after a successful
    property ingestion an attribute holds the value of the last data line
    that gives it, and keeps the value it had when no line gives it. *)
Theorem add_properties_from_file_last_write_wins fs path g header lines g' n k :
  fs !! path = Some (header :: lines) →
  add_properties_from_file fs path g = (Ok tt, g') →
  node_attr g' n k
  = match last_value lines n k with
    | Some value => Some value
    | None => node_attr g n k
    end.
Proof.
  intros Hfs. unfold add_properties_from_file. rewrite Hfs.
  unfold bind, lift, modify.
  destruct (parse_property_lines lines ∅) as [parsed|e] eqn:E; [|done].
  intros [= <-]. rewrite add_nodes_from_node_attr.
  rewrite (parse_property_lines_last_value _ _ _ n k E).
  destruct (last_value lines n k); [done|].
  unfold lookup2. by rewrite lookup_empty.
Qed.

Lemma add_properties_from_file_last_write_wins_witness :
  node_attr (add_properties_from_file Sample.fs "properties.txt" Sample.g_friends).2
    "A" "Name"
  = match last_value (tail Sample.properties_txt) "A" "Name" with
    | Some value => Some value
    | None => node_attr Sample.g_friends "A" "Name"
    end.
Proof.
  apply (add_properties_from_file_last_write_wins Sample.fs "properties.txt"
           Sample.g_friends
           ("ID      Property        Value" +:+ Sample.lf)
           (tail Sample.properties_txt)).
  - vm_compute. reflexivity.
  - vm_compute. reflexivity.
Defined.

(** X5. Property ingestion never touches an edge and never removes a node,
    whatever the source and however the call ends. *)
Theorem add_properties_from_file_keeps_edges_and_nodes fs path g :
  (∀ u v, edges_between (add_properties_from_file fs path g).2 u v
          = edges_between g u v)
  ∧ dom g ⊆ dom (add_properties_from_file fs path g).2.
Proof.
  unfold add_properties_from_file.
  destruct (fs !! path) as [[|header lines]|]; simpl; [done| |done].
  unfold bind, lift, modify.
  destruct (parse_property_lines lines ∅) as [parsed|e]; simpl; [|done].
  split.
  - intros u v. apply add_nodes_from_edges_between.
  - rewrite add_nodes_from_dom. set_solver.
Qed.

Lemma add_properties_from_file_creates_mentioned_aux fs path g header lines :
  fs !! path = Some (header :: lines) →
  ∀ g', add_properties_from_file fs path g = (Ok tt, g') →
        dom g' = dom g ∪ property_ids lines.
Proof.
  intros Hfs g'. unfold add_properties_from_file. rewrite Hfs.
  unfold bind, lift, modify.
  destruct (parse_property_lines lines ∅) as [parsed|e] eqn:E; [|done].
  intros [= <-]. rewrite add_nodes_from_dom.
  rewrite (parse_property_lines_dom _ _ _ E). set_solver.
Qed.

(** X6. A successful property ingestion creates a node for exactly the
    entities that its data lines mention: the node set grows by the first
    tokens of the non-blank lines. *)
Theorem add_properties_from_file_creates_mentioned fs path g header lines g' :
  fs !! path = Some (header :: lines) →
  add_properties_from_file fs path g = (Ok tt, g') →
  dom g' = dom g ∪ property_ids lines.
Proof.
  intros Hfs Hok. by eapply add_properties_from_file_creates_mentioned_aux.
Qed.

Lemma add_properties_from_file_creates_mentioned_witness :
  dom Sample.g_props = dom (∅ : ChallengeGraph) ∪ property_ids (tail Sample.properties_txt).
Proof.
  apply (add_properties_from_file_creates_mentioned Sample.fs "properties.txt" ∅
           ("ID      Property        Value" +:+ Sample.lf)).
  - vm_compute. reflexivity.
  - vm_compute. reflexivity.
Defined.

(** *** Relationship ingestion, line by line *)

Lemma add_relationship_other_attr rel id1 type1 id2 type2 g n k :
  k ≠ "Type" →
  node_attr (add_relationship rel id1 type1 id2 type2 g).2 n k = node_attr g n k.
Proof.
  intros Hk.
  destruct (add_relationship_cases rel id1 type1 id2 type2 g)
    as [[_ ->]|[(_ & _ & ->)|(_ & _ & ->)]]; simpl.
  - done.
  - rewrite nodes_setdefault_node_attr.
    by rewrite decide_False by (intros (_ & ? & _); done).
  - rewrite add_edge_node_attr, !nodes_setdefault_node_attr.
    by rewrite !decide_False by (intros (_ & ? & _); done).
Qed.

Lemma add_relationship_line_other_attr line g n k :
  k ≠ "Type" → node_attr (add_relationship_line line g).2 n k = node_attr g n k.
Proof.
  intros Hk. destruct (relationship_line_cases line)
    as [Hb|[Hm|(Hne & rel & id1 & t1 & id2 & t2 & Hp)]].
  - by rewrite add_relationship_line_blank.
  - by rewrite add_relationship_line_malformed.
  - rewrite (add_relationship_line_valid _ _ _ _ _ _ _ Hne Hp).
    by apply add_relationship_other_attr.
Qed.

Lemma add_relationship_lines_other_attr lines g n k :
  k ≠ "Type" → node_attr (add_relationship_lines lines g).2 n k = node_attr g n k.
Proof.
  intros Hk. revert g. induction lines as [|l lines IH]; intros g; [done|].
  rewrite add_relationship_lines_cons.
  pose proof (add_relationship_line_other_attr l g n k Hk) as Hl.
  destruct (add_relationship_line l g) as [[[]|e] g1]; simpl in *; [|done].
  by rewrite IH.
Qed.

(** X7. Relationship ingestion never creates or removes a node and never
    changes an attribute other than [Type], whatever the source and
    however the call ends. *)
Theorem add_relationships_from_file_keeps_nodes fs path g :
  dom (add_relationships_from_file fs path g).2 = dom g
  ∧ ∀ n k, k ≠ "Type" →
      node_attr (add_relationships_from_file fs path g).2 n k = node_attr g n k.
Proof.
  unfold add_relationships_from_file.
  destruct (fs !! path) as [[|header lines]|]; simpl; [done| |done].
  split; [apply add_relationship_lines_dom|].
  intros n k Hk. by apply add_relationship_lines_other_attr.
Qed.

Lemma add_relationships_from_file_keeps_nodes_witness :
  dom (add_relationships_from_file Sample.fs "relationships.txt" Sample.g_props).2
  = dom Sample.g_props
  ∧ node_attr
      (add_relationships_from_file Sample.fs "relationships.txt" Sample.g_props).2
      "A" "Name"
    = node_attr Sample.g_props "A" "Name".
Proof.
  destruct (add_relationships_from_file_keeps_nodes
              Sample.fs "relationships.txt" Sample.g_props) as [Hdom Hattr].
  split; [exact Hdom|]. apply Hattr. discriminate.
Defined.

(** X8. Relationship ingestion only appends edges: between any ordered pair
    the edges present before the call are, in the same order, the first
    edges present after it, however the call ends. *)
Theorem add_relationships_from_file_only_appends fs path g u v :
  edges_between g u v
  `prefix_of` edges_between (add_relationships_from_file fs path g).2 u v.
Proof.
  unfold add_relationships_from_file.
  destruct (fs !! path) as [[|header lines]|]; simpl; [done| |done].
  destruct (add_relationship_lines_uniform lines g) as (r & added & H).
  destruct (H g eq_refl) as [_ Hadd]. rewrite Hadd. by exists (added u v).
Qed.

Lemma add_relationship_ok_iff rel id1 type1 id2 type2 g :
  (add_relationship rel id1 type1 id2 type2 g).1 = Ok tt
  ↔ id1 ∈ dom g ∧ id2 ∈ dom g.
Proof.
  rewrite !elem_of_dom.
  destruct (add_relationship_cases rel id1 type1 id2 type2 g)
    as [[E ->]|[(E1 & E2 & ->)|(E1 & E2 & ->)]]; simpl.
  - rewrite E. split; [done|]. by intros [[? ?] _].
  - rewrite E2. split; [done|]. by intros [_ [? ?]].
  - done.
Qed.

Lemma add_relationship_raises rel id1 type1 id2 type2 g e :
  (add_relationship rel id1 type1 id2 type2 g).1 = Raise e →
  ∃ id, e = KeyError id ∧ id ∉ dom g.
Proof.
  destruct (add_relationship_cases rel id1 type1 id2 type2 g)
    as [[E ->]|[(E1 & E2 & ->)|(E1 & E2 & ->)]]; simpl; [| |done].
  - intros [= <-]. exists id1. split; [done|]. by apply not_elem_of_dom.
  - intros [= <-]. exists id2. split; [done|]. by apply not_elem_of_dom.
Qed.

Lemma add_relationship_line_ok_iff line g :
  (add_relationship_line line g).1 = Ok tt ↔ relationship_line_ok (dom g) line.
Proof.
  unfold relationship_line_ok.
  destruct (relationship_line_cases line)
    as [Hb|[Hm|(Hne & rel & id1 & t1 & id2 & t2 & Hp)]].
  - rewrite add_relationship_line_blank by done. simpl. tauto.
  - rewrite add_relationship_line_malformed by done. simpl.
    split; [done|]. destruct Hm as [Hne Hlen].
    intros [?|(rel & id1 & t1 & id2 & t2 & Hp & _)]; [done|].
    destruct Hlen. apply parse_relationship_line_ok. by rewrite Hp.
  - rewrite (add_relationship_line_valid _ _ _ _ _ _ _ Hne Hp).
    rewrite add_relationship_ok_iff. split.
    + intros [? ?]. right. by exists rel, id1, t1, id2, t2.
    + intros [?|(rel' & id1' & t1' & id2' & t2' & Hp' & ? & ?)]; [done|].
      rewrite Hp in Hp'. by injection Hp' as <- <- <- <- <-.
Qed.

Lemma add_relationship_line_raises line g e :
  (add_relationship_line line g).1 = Raise e →
  (∃ msg, e = InvalidRelationshipLine msg) ∨ (∃ id, e = KeyError id ∧ id ∉ dom g).
Proof.
  destruct (relationship_line_cases line)
    as [Hb|[Hm|(Hne & rel & id1 & t1 & id2 & t2 & Hp)]].
  - by rewrite add_relationship_line_blank.
  - rewrite add_relationship_line_malformed by done. simpl.
    intros [= <-]. left. eauto.
  - rewrite (add_relationship_line_valid _ _ _ _ _ _ _ Hne Hp).
    intros H. right. by eapply add_relationship_raises.
Qed.

Lemma add_relationship_lines_ok_iff lines g :
  (add_relationship_lines lines g).1 = Ok tt
  ↔ Forall (relationship_line_ok (dom g)) lines.
Proof.
  revert g. induction lines as [|l lines IH]; intros g.
  { split; [by constructor|done]. }
  rewrite add_relationship_lines_cons, Forall_cons.
  rewrite <-add_relationship_line_ok_iff.
  pose proof (add_relationship_line_dom l g) as Hdom.
  destruct (add_relationship_line l g) as [[[]|e] g1]; simpl in *.
  - rewrite IH, Hdom. tauto.
  - split; [done|]. by intros [? _].
Qed.

Lemma add_relationship_lines_raises lines g e :
  (add_relationship_lines lines g).1 = Raise e →
  (∃ msg, e = InvalidRelationshipLine msg) ∨ (∃ id, e = KeyError id ∧ id ∉ dom g).
Proof.
  revert g. induction lines as [|l lines IH]; intros g; [done|].
  rewrite add_relationship_lines_cons.
  pose proof (add_relationship_line_dom l g) as Hdom.
  pose proof (add_relationship_line_raises l g) as Hl.
  destruct (add_relationship_line l g) as [[[]|e'] g1]; simpl in *.
  - intros H. apply IH in H. by rewrite Hdom in H.
  - intros [= <-]. by apply Hl.
Qed.

(** X9. Relationship ingestion of a source with a header succeeds exactly
    when every data line is blank or has five tokens whose two IDs are
    nodes of the store before the call. *)
Theorem add_relationships_from_file_ok_iff fs path g header lines :
  fs !! path = Some (header :: lines) →
  (add_relationships_from_file fs path g).1 = Ok tt
  ↔ Forall (relationship_line_ok (dom g)) lines.
Proof.
  intros Hfs. unfold add_relationships_from_file. rewrite Hfs.
  apply add_relationship_lines_ok_iff.
Qed.

Lemma add_relationships_from_file_ok_iff_witness :
  (add_relationships_from_file Sample.fs "relationships.txt" Sample.g_props).1 = Ok tt
  ↔ Forall (relationship_line_ok (dom Sample.g_props)) (tail Sample.friends_txt).
Proof.
  apply (add_relationships_from_file_ok_iff Sample.fs "relationships.txt"
           Sample.g_props
           ("Relationship    ID1     Type1   ID2     Type2" +:+ Sample.lf)).
  vm_compute. reflexivity.
Defined.

(** X10. On a relationship source that is read as a header line followed
    by data lines, what relationship ingestion raises is
    [InvalidRelationshipLine] or a [KeyError] that names an ID which is not
    a node of the store. *)
Theorem add_relationships_from_file_exceptions fs path g header lines e :
  fs !! path = Some (header :: lines) →
  (add_relationships_from_file fs path g).1 = Raise e →
  (∃ msg, e = InvalidRelationshipLine msg)
  ∨ (∃ id, e = KeyError id ∧ id ∉ dom g).
Proof.
  intros Hfs. unfold add_relationships_from_file. rewrite Hfs.
  apply add_relationship_lines_raises.
Qed.

Lemma add_relationships_from_file_exceptions_witness :
  (∃ msg, KeyError "A" = InvalidRelationshipLine msg)
  ∨ (∃ id, KeyError "A" = KeyError id ∧ id ∉ dom (∅ : ChallengeGraph)).
Proof.
  apply (add_relationships_from_file_exceptions Sample.fs "relationships.txt" ∅
           ("Relationship    ID1     Type1   ID2     Type2" +:+ Sample.lf)
           (tail Sample.friends_txt)).
  - vm_compute. reflexivity.
  - vm_compute. reflexivity.
Defined.

(** *** Counting edges *)

Lemma length_bind {A B} (f : A → list B) (l : list A) :
  length (l ≫= f) = sum_list_with (λ x, length (f x)) l.
Proof.
  induction l as [|x l IH]; [done|]. rewrite bind_cons, length_app, IH. done.
Qed.

Lemma sum_map_to_list_insert {V} (w : string * V → nat) (m : gmap string V) i y :
  sum_list_with w (map_to_list (<[i := y]> m))
  + from_option (λ x, w (i, x)) 0 (m !! i)
  = sum_list_with w (map_to_list m) + w (i, y).
Proof.
  destruct (m !! i) as [x|] eqn:Hi; simpl.
  - rewrite <-(insert_delete_eq m i y).
    rewrite (map_to_list_insert (delete i m) i y) by apply lookup_delete_eq.
    rewrite <-(map_to_list_delete m i x Hi). simpl. lia.
  - rewrite (map_to_list_insert m i y Hi). simpl. lia.
Qed.

Lemma num_edges_node_edges g :
  App.num_edges g
  = sum_list_with (λ ud, length (node_edges ud.1 ud.2)) (map_to_list g).
Proof.
  unfold App.num_edges, NX.edges. rewrite length_bind.
  induction (map_to_list g) as [|[u d] l IH]; [done|]. simpl. by rewrite IH.
Qed.

Lemma length_node_edges u d :
  length (node_edges u d)
  = sum_list_with (λ vk : string * list string, length vk.2) (map_to_list (succ d)).
Proof.
  unfold node_edges. rewrite length_bind.
  induction (map_to_list (succ d)) as [|[v ks] l IH]; [done|]. simpl.
  rewrite IH. f_equal.
  clear. induction ks as [|k ks IH]; [done|].
  rewrite bind_cons. simpl. by rewrite IH.
Qed.

Lemma num_edges_insert g u d x :
  g !! u = Some d →
  App.num_edges (<[u := x]> g) + length (node_edges u d)
  = App.num_edges g + length (node_edges u x).
Proof.
  intros Hu. rewrite !num_edges_node_edges.
  pose proof (sum_map_to_list_insert
                (λ ud : string * node_data, length (node_edges ud.1 ud.2)) g u x)
    as H.
  rewrite Hu in H. simpl in H. done.
Qed.

Lemma num_edges_nodes_setdefault id key value g :
  App.num_edges (nodes_setdefault id key value g).2 = App.num_edges g.
Proof.
  unfold nodes_setdefault. destruct (g !! id) as [d|] eqn:Hd; [|done]. simpl.
  pose proof (num_edges_insert g id d
                (NodeData (setdefault key value (attrs d)) (succ d)) Hd) as H.
  rewrite !length_node_edges in H. simpl in H. lia.
Qed.

Lemma num_edges_add_edge u v rel g :
  is_Some (g !! u) → is_Some (g !! v) →
  App.num_edges (NX.add_edge u v rel g) = S (App.num_edges g).
Proof.
  intros Hu Hv. unfold NX.add_edge.
  rewrite (ensure_node_present u g Hu), (ensure_node_present v g Hv).
  destruct Hu as [d Hd]. rewrite Hd.
  pose proof (num_edges_insert g u d
    (NodeData (attrs d) (<[v := default [] (succ d !! v) ++ [rel]]> (succ d))) Hd)
    as H.
  rewrite !length_node_edges in H. simpl in H.
  pose proof (sum_map_to_list_insert
    (λ vk : string * list string, length vk.2) (succ d) v
    (default [] (succ d !! v) ++ [rel])) as H'.
  simpl in H'. rewrite length_app in H'. simpl in H'.
  destruct (succ d !! v) as [ks|]; simpl in *; lia.
Qed.

Lemma num_edges_add_relationship rel id1 type1 id2 type2 g g' :
  add_relationship rel id1 type1 id2 type2 g = (Ok tt, g') →
  App.num_edges g' = S (App.num_edges g).
Proof.
  destruct (add_relationship_cases rel id1 type1 id2 type2 g)
    as [[_ ->]|[(_ & _ & ->)|(H1 & H2 & ->)]]; [done..|].
  intros [= <-]. rewrite num_edges_add_edge.
  - by rewrite !num_edges_nodes_setdefault.
  - by rewrite !nodes_setdefault_lookup_is_Some.
  - by rewrite !nodes_setdefault_lookup_is_Some.
Qed.

Lemma num_edges_add_relationship_lines lines g g' :
  add_relationship_lines lines g = (Ok tt, g') →
  App.num_edges g' = App.num_edges g + length (non_blank lines).
Proof.
  revert g. induction lines as [|l lines IH]; intros g.
  { intros [= <-]. simpl. lia. }
  rewrite add_relationship_lines_cons.
  destruct (add_relationship_line l g) as [[[]|e] g1] eqn:El; [|done].
  intros H. rewrite (IH _ H). unfold non_blank. rewrite filter_cons.
  destruct (relationship_line_cases l)
    as [Hb|[Hm|(Hne & rel & id1 & t1 & id2 & t2 & Hp)]].
  - rewrite add_relationship_line_blank in El by done.
    injection El as <-. by rewrite decide_False by (intros ?; done).
  - by rewrite add_relationship_line_malformed in El.
  - rewrite (add_relationship_line_valid _ _ _ _ _ _ _ Hne Hp) in El.
    rewrite (num_edges_add_relationship _ _ _ _ _ _ _ El).
    rewrite decide_True by done. simpl. lia.
Qed.

(** X11. A successful relationship ingestion adds exactly one edge for each
    non-blank data line and leaves the number of nodes as it was (the
    figures that the application shows as "Num of edges" and "Num of
    nodes"). *)
Theorem add_relationships_from_file_counts fs path g header lines g' :
  fs !! path = Some (header :: lines) →
  add_relationships_from_file fs path g = (Ok tt, g') →
  App.num_edges g' = App.num_edges g + length (non_blank lines)
  ∧ App.num_nodes g' = App.num_nodes g.
Proof.
  intros Hfs. unfold add_relationships_from_file. rewrite Hfs. intros H.
  split; [by apply num_edges_add_relationship_lines|].
  unfold App.num_nodes. rewrite <-!size_dom.
  pose proof (add_relationship_lines_dom lines g) as Hdom.
  rewrite H in Hdom. simpl in Hdom. by rewrite Hdom.
Qed.

Lemma add_relationships_from_file_counts_witness :
  App.num_edges Sample.g_friends
  = App.num_edges Sample.g_props + length (non_blank (tail Sample.friends_txt))
  ∧ App.num_nodes Sample.g_friends = App.num_nodes Sample.g_props.
Proof.
  apply (add_relationships_from_file_counts Sample.fs "relationships.txt"
           Sample.g_props
           ("Relationship    ID1     Type1   ID2     Type2" +:+ Sample.lf)).
  - vm_compute. reflexivity.
  - vm_compute. reflexivity.
Defined.

(** *** Loading both files *)

(** X12. [from_file] on two sources that have a header succeeds exactly
    when every property line is blank or has two tokens at least, and every
    relationship line is blank or has five tokens whose two IDs are
    mentioned in the property source: an entity that appears in the
    relationships only makes the load fail. *)
Theorem from_file_ok_iff fs properties relationships hp lp hr lr :
  fs !! properties = Some (hp :: lp) →
  fs !! relationships = Some (hr :: lr) →
  (from_file fs properties relationships ∅).1 = Ok tt
  ↔ Forall property_line_ok lp
    ∧ Forall (relationship_line_ok (property_ids lp)) lr.
Proof.
  intros Hp Hr. unfold from_file, bind.
  pose proof (add_properties_from_file_creates_mentioned_aux fs properties ∅ hp lp Hp)
    as Hdom.
  unfold add_properties_from_file in *. rewrite Hp in *.
  unfold bind, lift, modify in *.
  rewrite <-(parse_property_lines_ok_iff lp ∅).
  destruct (parse_property_lines lp ∅) as [parsed|e] eqn:E; simpl in *.
  - unfold add_relationships_from_file. rewrite Hr.
    rewrite add_relationship_lines_ok_iff, (Hdom _ eq_refl).
    rewrite dom_empty_L, (left_id_L ∅ (∪)). tauto.
  - split; [done|]. by intros [? _].
Qed.

Lemma from_file_ok_iff_witness :
  (from_file Sample.fs "properties.txt" "relationships.txt" ∅).1 = Ok tt
  ↔ Forall property_line_ok (tail Sample.properties_txt)
    ∧ Forall (relationship_line_ok (property_ids (tail Sample.properties_txt)))
             (tail Sample.friends_txt).
Proof.
  apply (from_file_ok_iff Sample.fs "properties.txt" "relationships.txt"
           ("ID      Property        Value" +:+ Sample.lf) _
           ("Relationship    ID1     Type1   ID2     Type2" +:+ Sample.lf) _).
  - vm_compute. reflexivity.
  - vm_compute. reflexivity.
Defined.

(** *** The clique queries, further *)

Lemma nodes_get_Type_Ok g n t :
  nodes_get_Type g n = Ok t → t = node_attr g n "Type".
Proof.
  unfold nodes_get_Type, node_attr. destruct (g !! n); [|done]. by intros [= <-].
Qed.

Lemma person_edges_loop_Ok g (es : list (string * string * string))
    (acc E : gset (gset string)) :
  person_edges_loop g es acc = Ok E →
  ∀ e, e ∈ E ↔ e ∈ acc ∨ ∃ nnd, e = {[nnd.1.1; nnd.1.2]} ∧ nnd ∈ es
                                  ∧ person_filter g nnd.
Proof.
  revert acc. induction es as [|[[n1 n2] d] es IH]; intros acc; simpl.
  - intros [= <-] e. split; [tauto|].
    intros [?|(? & _ & H & _)]; [done|by apply elem_of_nil in H].
  - destruct (nodes_get_Type g n1) as [t1|] eqn:E1; [|done].
    destruct (nodes_get_Type g n2) as [t2|] eqn:E2; [|done].
    apply nodes_get_Type_Ok in E1, E2. subst t1 t2.
    case_decide as Hp.
    + intros H e. rewrite (IH _ H), elem_of_union, elem_of_singleton. split.
      * intros [[?| ->]|(nnd & -> & Hin & Hf)]; [by left|right..].
        -- exists (n1, n2, d). split; [done|]. split; [by left|done].
        -- exists nnd. split; [done|]. split; [by right|done].
      * intros [?|(nnd & -> & [->|Hin]%elem_of_cons & Hf)]; [tauto|tauto|].
        right. by exists nnd.
    + intros H e. rewrite (IH _ H). split.
      * intros [?|(nnd & -> & Hin & Hf)]; [by left|right].
        exists nnd. split; [done|]. split; [by right|done].
      * intros [?|(nnd & -> & [->|Hin]%elem_of_cons & Hf)]; [tauto|done|].
        right. by exists nnd.
Qed.

Lemma person_edges_Ok g (E : gset (gset string)) :
  person_edges g = Ok E →
  ∀ e, e ∈ E ↔ ∃ nnd, e = {[nnd.1.1; nnd.1.2]} ∧ nnd ∈ NX.edges g
                      ∧ person_filter g nnd.
Proof.
  intros H e. rewrite (person_edges_loop_Ok g _ _ _ H e). set_solver.
Qed.

Lemma graph_of_edges_Ok (o : set_order) (E : gset (gset string)) G :
  graph_of_edges o E = Ok G →
  lists_all_cliques E (NXClique.enumerate_all_cliques G).
Proof.
  intros HG.
  assert (∀ e, e ∈ E → size e = 2) as Hsize.
  { apply (proj2 (graph_of_edges_ok_iff o E)). by rewrite HG. }
  destruct (enumerate_graph_of_edges o E Hsize) as (G' & HG' & Hall).
  rewrite HG in HG'. by injection HG' as <-.
Qed.

Lemma find_friend_cliques_Ok (o : set_order) g out :
  find_friend_cliques o g = Ok out → lists_all_cliques (friend_edges g) out.
Proof.
  unfold find_friend_cliques, find_friend_graph.
  destruct (graph_of_edges o (friend_edges g)) as [G|e] eqn:HG; [|done].
  intros [= <-]. by eapply graph_of_edges_Ok.
Qed.

Lemma find_person_cliques_Ok (o : set_order) g out :
  find_person_cliques o g = Ok out →
  ∃ E, person_edges g = Ok E ∧ lists_all_cliques E out.
Proof.
  unfold find_person_cliques, find_person_graph.
  destruct (person_edges g) as [E|e] eqn:HE; [|done].
  destruct (graph_of_edges o E) as [G|e] eqn:HG; [|done].
  intros [= <-]. exists E. split; [done|]. by eapply graph_of_edges_Ok.
Qed.

Lemma friend_sizes_no_loop g :
  (∀ e, e ∈ friend_edges g → size e = 2) → no_loop friend_filter g.
Proof.
  intros Hsize. apply Forall_forall. intros [[n1 n2] d] Hin Hf.
  unfold friend_filter in Hf. simpl in *. subst d.
  apply size_pair, Hsize, elem_of_friend_edges. by exists n1, n2.
Qed.

Lemma person_sizes_no_loop g (E : gset (gset string)) :
  person_edges g = Ok E → (∀ e, e ∈ E → size e = 2) → no_loop person_filter g.
Proof.
  intros HE Hsize. apply Forall_forall. intros [[n1 n2] d] Hin Hf. simpl.
  apply size_pair, Hsize, (person_edges_Ok g E HE). by exists (n1, n2, d).
Qed.

(** X13. The clique queries raise nothing but [NetworkXError], and raise it
    exactly when an edge that passes the filter is a self-loop
    ([find_person_cliques]: on a store in which the target of every edge is
    a node, as in every store built by ingestion). *)
Theorem clique_queries_raise_iff (o : set_order) g e :
  (find_friend_cliques o g = Raise e
   ↔ e = NetworkXError ∧ ¬ no_loop friend_filter g)
  ∧ (store_closed g →
     find_person_cliques o g = Raise e
     ↔ e = NetworkXError ∧ ¬ no_loop person_filter g).
Proof.
  split.
  - split.
    + intros H. destruct (decide (no_loop friend_filter g)) as [Hl|Hl].
      * destruct (enumerate_graph_of_edges o (friend_edges g)) as (G & HG & _);
          [by apply no_loop_friend_sizes|].
        unfold find_friend_cliques, find_friend_graph in H. by rewrite HG in H.
      * rewrite (find_friend_cliques_raises o g Hl) in H.
        by injection H as <-.
    + intros [-> Hl]. by apply find_friend_cliques_raises.
  - intros Hc. destruct (person_edges_spec g Hc) as (E & HE & Hspec).
    unfold find_person_cliques, find_person_graph. rewrite HE.
    destruct (graph_of_edges o E) as [G|e'] eqn:HG.
    + split; [done|]. intros [_ Hl]. destruct Hl.
      apply (person_sizes_no_loop g E HE).
      apply (proj2 (graph_of_edges_ok_iff o E)). by rewrite HG.
    + assert (¬ ∀ e, e ∈ E → size e = 2) as Hsize.
      { intros Hs%(graph_of_edges_ok_iff o E). by rewrite HG in Hs. }
      assert (e' = NetworkXError) as ->.
      { destruct (decide (set_Forall (λ e, size e = 2) E)) as [Hs|Hs]; [done|].
        apply not_set_Forall_Exists in Hs; [|apply _].
        destruct Hs as (x & Hx & Hnx).
        rewrite (graph_of_edges_raises o E x Hx Hnx) in HG. by injection HG. }
      split.
      * intros [= <-]. split; [done|]. intros Hl. apply Hsize.
        by eapply no_loop_person_sizes.
      * by intros [-> _].
Qed.

Lemma clique_queries_raise_iff_witness :
  find_person_cliques elements_order Sample.g_selfloop = Raise NetworkXError
  ↔ NetworkXError = NetworkXError ∧ ¬ no_loop person_filter Sample.g_selfloop.
Proof.
  apply (proj2 (clique_queries_raise_iff elements_order Sample.g_selfloop
                  NetworkXError)).
  by_evaluation.
Defined.

Lemma clique_subset E (S S' : gset string) :
  clique E S → S' ≠ ∅ → S' ⊆ S → clique E S'.
Proof.
  intros (Hne & Hn & Hp) Hne' Hsub. split; [done|]. split; [set_solver|].
  intros a b Ha Hb. apply Hp; set_solver.
Qed.

Lemma lists_all_cliques_subset E out c (S : gset string) :
  lists_all_cliques E out → c ∈ out → S ≠ ∅ → S ⊆ list_to_set c →
  ∃ c', c' ∈ out ∧ list_to_set c' = S.
Proof.
  intros (Hsound & Hcomplete & _) Hc Hne Hsub.
  apply Hcomplete. eapply clique_subset; [|done..]. by apply Hsound.
Qed.

(** X14. The results are closed under taking parts: with every clique that
    a query returns it also returns every non-empty subset of it (so the
    results are not the maximal cliques only). *)
Theorem clique_queries_return_every_part (o : set_order) g out c (S : gset string) :
  find_friend_cliques o g = Ok out ∨ find_person_cliques o g = Ok out →
  c ∈ out → S ≠ ∅ → S ⊆ list_to_set c →
  ∃ c', c' ∈ out ∧ list_to_set c' = S.
Proof.
  intros [H|H] Hc Hne Hsub.
  - eapply lists_all_cliques_subset;
      [by apply (find_friend_cliques_Ok o g out)|done..].
  - destruct (find_person_cliques_Ok o g out H) as (E & _ & Hall).
    by eapply lists_all_cliques_subset.
Qed.

Lemma clique_queries_return_every_part_witness :
  ∃ c', c' ∈ [["C"]; ["B"]; ["A"]; ["C"; "B"]; ["C"; "A"]; ["B"; "A"];
              ["C"; "B"; "A"]]
        ∧ list_to_set c' = ({["A"; "C"]} : gset string).
Proof.
  apply (clique_queries_return_every_part elements_order Sample.g_friends
           _ ["C"; "B"; "A"]).
  - left. by_evaluation.
  - set_solver.
  - set_solver.
  - set_solver.
Defined.

Lemma NoDup_singleton_set (c : list string) (x : string) :
  NoDup c → (list_to_set c : gset string) = {[x]} → c = [x].
Proof.
  intros Hnd Hset.
  assert (∀ y, y ∈ c ↔ y = x) as Hmem.
  { intros y. by rewrite <-(elem_of_list_to_set (C := gset string)), Hset,
      elem_of_singleton. }
  destruct c as [|a c].
  - assert (x ∈ ([] : list string)) as H by by apply Hmem.
    by apply elem_of_nil in H.
  - assert (a = x) as -> by (apply Hmem; by left).
    destruct c as [|b c]; [done|].
    assert (b = x) as -> by (apply Hmem; right; by left).
    apply NoDup_cons in Hnd as [Hx _]. destruct Hx. by left.
Qed.

Lemma lists_all_cliques_members E out (x : string) :
  lists_all_cliques E out →
  ((∃ c, c ∈ out ∧ x ∈ c) ↔ x ∈ nodes_of E)
  ∧ ([x] ∈ out ↔ x ∈ nodes_of E).
Proof.
  intros (Hsound & Hcomplete & _).
  assert (x ∈ nodes_of E → [x] ∈ out) as Hsingle.
  { intros Hx. destruct (Hcomplete {[x]}) as (c & Hc & Hset).
    - split; [set_solver|]. split; [set_solver|].
      intros a b ->%elem_of_singleton ->%elem_of_singleton. done.
    - destruct (Hsound c Hc) as [Hnd _].
      by rewrite <-(NoDup_singleton_set c x Hnd Hset). }
  assert ((∃ c, c ∈ out ∧ x ∈ c) → x ∈ nodes_of E) as Hmem.
  { intros (c & Hc & Hx). destruct (Hsound c Hc) as (_ & _ & Hn & _).
    apply Hn. by apply elem_of_list_to_set. }
  split; split; auto.
  - intros Hx. exists [x]. split; [auto|by left].
  - intros Hx. apply Hmem. exists [x]. split; [done|by left].
Qed.

(** X15. A node occurs in the result of [find_friend_cliques] exactly when
    it is an endpoint of a [FRIENDS_WITH] edge, and then it is returned as
    a clique of its own; nodes without such an edge are not listed, and a
    store without [FRIENDS_WITH] edges gives the empty result. *)
Theorem find_friend_cliques_members (o : set_order) g out :
  find_friend_cliques o g = Ok out →
  (∀ x, ((∃ c, c ∈ out ∧ x ∈ c) ↔ [x] ∈ out)
        ∧ ([x] ∈ out
           ↔ ∃ a b, (a, b, "FRIENDS_WITH") ∈ NX.edges g ∧ (x = a ∨ x = b)))
  ∧ ((∀ a b, (a, b, "FRIENDS_WITH") ∉ NX.edges g) → out = []).
Proof.
  intros Hout. pose proof (find_friend_cliques_Ok o g out Hout) as Hall.
  assert (∀ x, x ∈ nodes_of (friend_edges g)
               ↔ ∃ a b, (a, b, "FRIENDS_WITH") ∈ NX.edges g ∧ (x = a ∨ x = b))
    as Hnodes.
  { intros x. rewrite elem_of_nodes_of. split.
    - intros (e & (a & b & -> & Hin)%elem_of_friend_edges & Hx).
      exists a, b. split; [done|]. set_solver.
    - intros (a & b & Hin & Hx). exists {[a; b]}. split.
      + apply elem_of_friend_edges. by exists a, b.
      + set_solver. }
  split.
  - intros x. destruct (lists_all_cliques_members _ out x Hall) as [H1 H2].
    rewrite <-Hnodes. split; [by rewrite H1, H2|done].
  - intros Hnone. destruct out as [|c out]; [done|].
    destruct Hall as (Hsound & _).
    destruct (Hsound c) as (_ & Hne & Hn & _); [by left|].
    apply set_choose_L in Hne as [x Hx]. apply Hn, Hnodes in Hx.
    destruct Hx as (a & b & Hin & _). by destruct (Hnone a b).
Qed.

Lemma find_friend_cliques_members_witness :
  let out := [["C"]; ["B"]; ["A"]; ["C"; "B"]; ["C"; "A"]; ["B"; "A"];
              ["C"; "B"; "A"]] in
  (∀ x, ((∃ c, c ∈ out ∧ x ∈ c) ↔ [x] ∈ out)
        ∧ ([x] ∈ out
           ↔ ∃ a b, (a, b, "FRIENDS_WITH") ∈ NX.edges Sample.g_friends
                    ∧ (x = a ∨ x = b)))
  ∧ ((∀ a b, (a, b, "FRIENDS_WITH") ∉ NX.edges Sample.g_friends) → out = []).
Proof.
  apply (find_friend_cliques_members elements_order Sample.g_friends).
  by_evaluation.
Defined.

Lemma clique_mono (E E' : gset (gset string)) (S : gset string) :
  E ⊆ E' → clique E S → clique E' S.
Proof.
  intros Hsub (Hne & Hn & Hp). split; [done|]. split.
  - intros x Hx. apply Hn in Hx. rewrite elem_of_nodes_of in *.
    destruct Hx as (e & He & Hx). exists e. split; [by apply Hsub|done].
  - intros a b Ha Hb Hab. by apply Hsub, Hp.
Qed.

Lemma find_person_cliques_raises (o : set_order) g e :
  store_closed g →
  find_person_cliques o g = Raise e →
  e = NetworkXError ∧ ¬ no_loop person_filter g.
Proof.
  intros Hc. destruct (person_edges_spec g Hc) as (E & HE & Hspec).
  unfold find_person_cliques, find_person_graph. rewrite HE.
  destruct (graph_of_edges o E) as [G|e'] eqn:HG; [done|].
  assert (¬ ∀ x, x ∈ E → size x = 2) as Hsize.
  { intros Hs%(graph_of_edges_ok_iff o E). by rewrite HG in Hs. }
  intros [= <-]. split.
  - destruct (decide (set_Forall (λ x, size x = 2) E)) as [Hs|Hs]; [done|].
    apply not_set_Forall_Exists in Hs; [|apply _].
    destruct Hs as (x & Hx & Hnx).
    rewrite (graph_of_edges_raises o E x Hx Hnx) in HG. by injection HG.
  - intros Hl. apply Hsize. by eapply no_loop_person_sizes.
Qed.

(** X16. On a store in which the target of every edge is a node and both
    endpoints of every [FRIENDS_WITH] edge have type [Person], when
    [find_friend_cliques] returns, [find_person_cliques] either returns
    every clique that [find_friend_cliques] returns (as a set of nodes), or
    raises [NetworkXError], and then some edge between two persons is a
    self-loop. *)
Theorem friend_cliques_are_person_cliques (o : set_order) g outf :
  store_closed g →
  find_friend_cliques o g = Ok outf →
  (∀ a b, (a, b, "FRIENDS_WITH") ∈ NX.edges g →
          node_attr g a "Type" = Some "Person"
          ∧ node_attr g b "Type" = Some "Person") →
  (∃ outp, find_person_cliques o g = Ok outp
     ∧ ∀ c, c ∈ outf →
         ∃ c', c' ∈ outp ∧ (list_to_set c' : gset string) = list_to_set c)
  ∨ (find_person_cliques o g = Raise NetworkXError
     ∧ ¬ no_loop person_filter g).
Proof.
  intros Hclosed Hf Htypes.
  destruct (find_person_cliques o g) as [outp|e] eqn:Hp.
  - left. exists outp. split; [done|]. intros c Hc.
    pose proof (find_friend_cliques_Ok o g outf Hf) as (Hsound & _ & _).
    destruct (find_person_cliques_Ok o g outp Hp) as (E & HE & _ & Hcomplete & _).
    apply Hcomplete. apply (clique_mono (friend_edges g)); [|by apply Hsound].
    intros x (a & b & -> & Hin)%elem_of_friend_edges.
    apply (person_edges_Ok g E HE). exists (a, b, "FRIENDS_WITH").
    split; [done|]. split; [done|].
    destruct (Htypes a b Hin) as [Ha Hb]. split; simpl; congruence.
  - right. destruct (find_person_cliques_raises o g e Hclosed Hp) as [-> Hl].
    by split.
Qed.

Lemma friend_cliques_are_person_cliques_witness :
  (∃ outp, find_person_cliques elements_order Sample.g_persons = Ok outp
     ∧ ∀ c, c ∈ [["C"]; ["A"]; ["C"; "A"]] →
         ∃ c', c' ∈ outp ∧ (list_to_set c' : gset string) = list_to_set c)
  ∨ (find_person_cliques elements_order Sample.g_persons = Raise NetworkXError
     ∧ ¬ no_loop person_filter Sample.g_persons).
Proof.
  apply (friend_cliques_are_person_cliques elements_order Sample.g_persons
           [["C"]; ["A"]; ["C"; "A"]]).
  - by_evaluation.
  - by_evaluation.
  - intros a b Hin.
    assert (Forall (λ nnd : string * string * string,
                      nnd.2 = "FRIENDS_WITH" →
                      node_attr Sample.g_persons nnd.1.1 "Type" = Some "Person"
                      ∧ node_attr Sample.g_persons nnd.1.2 "Type" = Some "Person")
                   (NX.edges Sample.g_persons)) as Hall by by_evaluation.
    rewrite Forall_forall in Hall. by apply (Hall (a, b, "FRIENDS_WITH")).
Defined.

(** *** The order of the results *)

Lemma extensions_base_length nbrs base cnbrs :
  Forall (λ entry, length entry.1 = S (length base))
         (NXClique.extensions nbrs base cnbrs).
Proof.
  induction cnbrs as [|u cnbrs IH]; [constructor|].
  rewrite extensions_cons. constructor; [|done].
  simpl. rewrite length_app. simpl. lia.
Qed.

Lemma drain_sizes fuel nbrs (queue : list (list string * list string)) k :
  Forall (λ entry, k ≤ length entry.1 ≤ S k) queue →
  StronglySorted (λ e1 e2, length e1.1 ≤ length e2.1) queue →
  Forall (λ c, k ≤ length c) (NXClique.drain fuel nbrs queue)
  ∧ StronglySorted (λ c1 c2, length c1 ≤ length c2)
                   (NXClique.drain fuel nbrs queue).
Proof.
  revert queue k. induction fuel as [|fuel IH]; intros queue k Hk Hs; simpl.
  { split; constructor. }
  destruct queue as [|[base cnbrs] queue]; [split; constructor|].
  apply Forall_cons in Hk as [Hb Hk]. simpl in Hb.
  apply StronglySorted_cons in Hs as [Hb' Hs]. simpl in Hb'.
  pose proof (extensions_base_length nbrs base cnbrs) as Hext.
  rewrite Forall_forall in Hk, Hb', Hext.
  destruct (IH (queue ++ NXClique.extensions nbrs base cnbrs) (length base))
    as [Hge Hsorted].
  - apply Forall_forall. intros e [He|He]%elem_of_app.
    + specialize (Hk e He). specialize (Hb' e He). lia.
    + specialize (Hext e He). lia.
  - apply StronglySorted_app_2.
    + intros e1 e2 H1 H2. specialize (Hk e1 H1). specialize (Hext e2 H2). lia.
    + done.
    + induction (NXClique.extensions nbrs base cnbrs) as [|e l IHl];
        [constructor|].
      constructor.
      * apply IHl. intros x Hx. apply Hext. by right.
      * apply Forall_forall. intros x Hx.
        rewrite (Hext e) by (by left). rewrite (Hext x) by (by right). done.
  - split.
    + constructor; [lia|]. eapply Forall_impl; [done|]. simpl. intros; lia.
    + by constructor.
Qed.

Lemma enumerate_all_cliques_sizes G :
  StronglySorted (λ c1 c2 : list string, length c1 ≤ length c2)
                 (NXClique.enumerate_all_cliques G).
Proof.
  unfold NXClique.enumerate_all_cliques.
  destruct (NXClique.index_nbrs G) as [index nbrs].
  apply (drain_sizes _ nbrs _ 1).
  - apply Forall_fmap, Forall_forall. intros u _. simpl. lia.
  - induction (_node G) as [|u ns IH]; [constructor|].
    rewrite fmap_cons. constructor; [done|].
    apply Forall_fmap, Forall_forall. intros v _. simpl. lia.
Qed.

(** X17. The clique queries return the cliques by size: no clique comes
    before a smaller one (singletons first, then pairs, then triples ...). *)
Theorem clique_queries_return_by_size (o : set_order) g out :
  find_friend_cliques o g = Ok out ∨ find_person_cliques o g = Ok out →
  StronglySorted (λ c1 c2 : list string, length c1 ≤ length c2) out.
Proof.
  intros [H|H].
  - unfold find_friend_cliques in H.
    destruct (find_friend_graph o g) as [G|e]; [|done].
    injection H as <-. apply enumerate_all_cliques_sizes.
  - unfold find_person_cliques in H.
    destruct (find_person_graph o g) as [G|e]; [|done].
    injection H as <-. apply enumerate_all_cliques_sizes.
Qed.

Lemma clique_queries_return_by_size_witness :
  StronglySorted (λ c1 c2 : list string, length c1 ≤ length c2)
    [["C"]; ["B"]; ["A"]; ["C"; "B"]; ["C"; "A"]; ["B"; "A"]; ["C"; "B"; "A"]].
Proof.
  apply (clique_queries_return_by_size elements_order Sample.g_friends).
  left. by_evaluation.
Defined.

(** *** What the application shows *)

Lemma keep_size_3_spec E out shown :
  lists_all_cliques E out →
  App.keep_size_3 (Ok out) = Ok shown →
  (∀ c, c ∈ shown → length c = 3 ∧ NoDup c ∧ clique E (list_to_set c))
  ∧ (∀ S, clique E S → size S = 3 → ∃ c, c ∈ shown ∧ list_to_set c = S)
  ∧ NoDup (list_to_set <$> shown : list (gset string)).
Proof.
  intros (Hsound & Hcomplete & Honce) [= <-]. split; [|split].
  - intros c [Hlen Hc]%list_elem_of_filter. split; [done|]. by apply Hsound.
  - intros S HS Hsize. destruct (Hcomplete S HS) as (c & Hc & Hset).
    exists c. split; [|done]. apply list_elem_of_filter. split; [|done].
    destruct (Hsound c Hc) as [Hnd _].
    by rewrite <-(size_list_to_set (C := gset string) c Hnd), Hset.
  - apply (sublist_NoDup _ _ Honce), fmap_sublist, sublist_filter.
Qed.

(** X18. The application keeps the cliques of exactly three members: what
    it shows as friend (person) cliques are the three-node cliques of the
    derived graph, each once; larger cliques are never shown as such,
    singletons and pairs neither, and when the query raises so does the
    application. *)
Theorem app_shows_triangles_only (o : set_order) G shown :
  (App.friend_cliques o G = Ok shown →
     (∀ c, c ∈ shown →
           length c = 3 ∧ NoDup c ∧ clique (friend_edges G) (list_to_set c))
     ∧ (∀ S, clique (friend_edges G) S → size S = 3 →
             ∃ c, c ∈ shown ∧ list_to_set c = S)
     ∧ NoDup (list_to_set <$> shown : list (gset string)))
  ∧ (App.person_cliques o G = Ok shown →
     ∃ E, person_edges G = Ok E
       ∧ (∀ c, c ∈ shown → length c = 3 ∧ NoDup c ∧ clique E (list_to_set c))
       ∧ (∀ S, clique E S → size S = 3 → ∃ c, c ∈ shown ∧ list_to_set c = S)
       ∧ NoDup (list_to_set <$> shown : list (gset string)))
  ∧ (∀ e, (find_friend_cliques o G = Raise e → App.friend_cliques o G = Raise e)
          ∧ (find_person_cliques o G = Raise e → App.person_cliques o G = Raise e)).
Proof.
  split; [|split].
  - unfold App.friend_cliques.
    destruct (find_friend_cliques o G) as [out|e] eqn:Hout; [|done].
    apply keep_size_3_spec. by apply (find_friend_cliques_Ok o G).
  - unfold App.person_cliques.
    destruct (find_person_cliques o G) as [out|e] eqn:Hout; [|done].
    destruct (find_person_cliques_Ok o G out Hout) as (E & HE & Hall).
    intros H. exists E. split; [done|]. by apply (keep_size_3_spec E out).
  - intros e. unfold App.friend_cliques, App.person_cliques.
    split; by intros ->.
Qed.

Lemma app_shows_triangles_only_witness :
  (∀ c, c ∈ [["C"; "B"; "A"]] →
        length c = 3 ∧ NoDup c
        ∧ clique (friend_edges Sample.g_friends) (list_to_set c))
  ∧ (∀ S, clique (friend_edges Sample.g_friends) S → size S = 3 →
          ∃ c, c ∈ [["C"; "B"; "A"]] ∧ list_to_set c = S)
  ∧ NoDup (list_to_set <$> [["C"; "B"; "A"]] : list (gset string)).
Proof.
  apply (proj1 (app_shows_triangles_only elements_order Sample.g_friends
                  [["C"; "B"; "A"]])).
  by_evaluation.
Defined.

(** *** Endpoints and labels after a successful ingestion *)

Lemma add_relationship_Ok_effect rel id1 type1 id2 type2 g g' :
  add_relationship rel id1 type1 id2 type2 g = (Ok tt, g') →
  is_Some (node_attr g' id1 "Type")
  ∧ is_Some (node_attr g' id2 "Type")
  ∧ rel ∈ edges_between g' id1 id2.
Proof.
  destruct (add_relationship_cases rel id1 type1 id2 type2 g)
    as [[_ ->]|[(_ & _ & ->)|(H1 & H2 & ->)]]; [done..|].
  intros [= <-]. rewrite !add_edge_node_attr, add_edge_edges_between.
  split; [|split].
  - assert (is_Some (node_attr (nodes_setdefault id1 "Type" type1 g).2 id1 "Type"))
      as [t Ht].
    { rewrite nodes_setdefault_node_attr. rewrite decide_True by done. eauto. }
    rewrite (nodes_setdefault_keeps_attr _ _ _ _ _ _ _ Ht). eauto.
  - rewrite nodes_setdefault_node_attr. rewrite decide_True; [eauto|].
    split; [done|]. split; [done|]. by apply nodes_setdefault_lookup_is_Some.
  - rewrite decide_True by done. apply elem_of_app. right. by left.
Qed.

Lemma add_relationship_lines_keeps_edge lines g u v rel :
  rel ∈ edges_between g u v →
  rel ∈ edges_between (add_relationship_lines lines g).2 u v.
Proof.
  intros Hin.
  destruct (add_relationship_lines_uniform lines g) as (r & added & H).
  destruct (H g eq_refl) as [_ Hadd]. rewrite Hadd. apply elem_of_app. by left.
Qed.

Lemma add_relationship_lines_Ok_effect lines g g' line rel id1 type1 id2 type2 :
  add_relationship_lines lines g = (Ok tt, g') →
  line ∈ lines → PyStr.strip line ≠ "" →
  parse_relationship_line (PyStr.strip line) = Ok (rel, id1, type1, id2, type2) →
  is_Some (node_attr g' id1 "Type")
  ∧ is_Some (node_attr g' id2 "Type")
  ∧ rel ∈ edges_between g' id1 id2.
Proof.
  intros Hrun Hin Hne Hp. revert g Hrun.
  induction lines as [|l lines IH]; intros g Hrun; [by apply elem_of_nil in Hin|].
  rewrite add_relationship_lines_cons in Hrun.
  destruct (add_relationship_line l g) as [[[]|e] g1] eqn:El; [|done].
  apply elem_of_cons in Hin as [<-|Hin]; [|by apply (IH Hin g1)].
  rewrite (add_relationship_line_valid _ _ _ _ _ _ _ Hne Hp) in El.
  destruct (add_relationship_Ok_effect _ _ _ _ _ _ _ El) as ([t1 H1] & [t2 H2] & H3).
  assert (g' = (add_relationship_lines lines g1).2) as -> by by rewrite Hrun.
  rewrite (add_relationship_lines_keeps_attr lines g1 _ _ _ H1).
  rewrite (add_relationship_lines_keeps_attr lines g1 _ _ _ H2).
  split; [eauto|]. split; [eauto|]. by apply add_relationship_lines_keeps_edge.
Qed.

(** X19. After a successful relationship ingestion, for every non-blank
    data line both of its endpoints have a [Type] attribute and the store
    has an edge from the first to the second with the line's label. *)
Theorem add_relationships_from_file_records_every_line
    fs path g header lines g' line rel id1 type1 id2 type2 :
  fs !! path = Some (header :: lines) →
  add_relationships_from_file fs path g = (Ok tt, g') →
  line ∈ lines → PyStr.strip line ≠ "" →
  parse_relationship_line (PyStr.strip line) = Ok (rel, id1, type1, id2, type2) →
  is_Some (node_attr g' id1 "Type")
  ∧ is_Some (node_attr g' id2 "Type")
  ∧ rel ∈ edges_between g' id1 id2.
Proof.
  intros Hfs. unfold add_relationships_from_file. rewrite Hfs.
  apply add_relationship_lines_Ok_effect.
Qed.

Lemma add_relationships_from_file_records_every_line_witness :
  is_Some (node_attr Sample.g_persons "A" "Type")
  ∧ is_Some (node_attr Sample.g_persons "B" "Type")
  ∧ "STUDIES_WITH" ∈ edges_between Sample.g_persons "A" "B".
Proof.
  apply (add_relationships_from_file_records_every_line Sample.fs "persons.txt"
           Sample.g_props
           ("Relationship    ID1     Type1   ID2     Type2" +:+ Sample.lf)
           (tail Sample.persons_txt) Sample.g_persons
           ("STUDIES_WITH    A       Person  B       Person" +:+ Sample.lf)
           "STUDIES_WITH" "A" "Person" "B" "Person").
  - vm_compute. reflexivity.
  - vm_compute. reflexivity.
  - simpl. set_solver.
  - vm_compute. discriminate.
  - vm_compute. reflexivity.
Defined.

(** *** Attributes under repeated relationship ingestion *)

Lemma add_relationship_touched rel id1 type1 id2 type2 (g : ChallengeGraph) :
  ∃ touched : gset string,
    ∀ h : ChallengeGraph, dom h = dom g →
      (∀ n, n ∈ touched →
            is_Some (node_attr (add_relationship rel id1 type1 id2 type2 h).2 n "Type"))
      ∧ (∀ n, n ∉ touched →
              node_attr (add_relationship rel id1 type1 id2 type2 h).2 n "Type"
              = node_attr h n "Type").
Proof.
  destruct (decide (id1 ∈ dom g)) as [Hin1|Hout1];
    [destruct (decide (id2 ∈ dom g)) as [Hin2|Hout2]|].
  - exists {[id1; id2]}. intros h Hdom. rewrite <-Hdom in Hin1, Hin2.
    apply elem_of_dom in Hin1, Hin2.
    destruct (add_relationship_cases rel id1 type1 id2 type2 h)
      as [[E _]|[(_ & E & _)|(_ & _ & Hr)]].
    + rewrite E in Hin1. by destruct Hin1.
    + rewrite E in Hin2. by destruct Hin2.
    + destruct (add_relationship_Ok_effect _ _ _ _ _ _ _ Hr) as (H1 & H2 & _).
      rewrite Hr. simpl. split.
      * intros n [Hn|Hn]%elem_of_union; apply elem_of_singleton in Hn;
          by subst n.
      * intros n Hn. rewrite add_edge_node_attr, !nodes_setdefault_node_attr.
        rewrite !decide_False; [done|intros (-> & _)..]; set_solver.
  - exists {[id1]}. intros h Hdom. rewrite <-Hdom in Hin1, Hout2.
    apply elem_of_dom in Hin1. apply not_elem_of_dom in Hout2.
    destruct (add_relationship_cases rel id1 type1 id2 type2 h)
      as [[E _]|[(_ & _ & ->)|(_ & E & _)]].
    + rewrite E in Hin1. by destruct Hin1.
    + simpl. split.
      * intros n Hn. apply elem_of_singleton in Hn. subst n.
        rewrite nodes_setdefault_node_attr.
        rewrite decide_True by done. eauto.
      * intros n Hn. rewrite nodes_setdefault_node_attr.
        rewrite decide_False; [done|intros (-> & _)]; set_solver.
    + rewrite Hout2 in E. by destruct E.
  - exists ∅. intros h Hdom. rewrite <-Hdom in Hout1. apply not_elem_of_dom in Hout1.
    destruct (add_relationship_cases rel id1 type1 id2 type2 h)
      as [[_ ->]|[(E & _ & _)|(E & _ & _)]].
    + simpl. split; [set_solver|done].
    + rewrite Hout1 in E. by destruct E.
    + rewrite Hout1 in E. by destruct E.
Qed.

Lemma add_relationship_line_touched line (g : ChallengeGraph) :
  ∃ touched : gset string,
    ∀ h : ChallengeGraph, dom h = dom g →
      (∀ n, n ∈ touched → is_Some (node_attr (add_relationship_line line h).2 n "Type"))
      ∧ (∀ n, n ∉ touched →
              node_attr (add_relationship_line line h).2 n "Type"
              = node_attr h n "Type").
Proof.
  destruct (relationship_line_cases line)
    as [Hb|[Hm|(Hne & rel & id1 & t1 & id2 & t2 & Hp)]].
  - exists ∅. intros h _. rewrite add_relationship_line_blank by done.
    split; [set_solver|done].
  - exists ∅. intros h _. rewrite add_relationship_line_malformed by done.
    split; [set_solver|done].
  - destruct (add_relationship_touched rel id1 t1 id2 t2 g) as (T & H).
    exists T. intros h Hdom.
    rewrite (add_relationship_line_valid _ _ _ _ _ _ _ Hne Hp). by apply H.
Qed.

Lemma add_relationship_lines_touched lines (g : ChallengeGraph) :
  ∃ touched : gset string,
    ∀ h : ChallengeGraph, dom h = dom g →
      (∀ n, n ∈ touched → is_Some (node_attr (add_relationship_lines lines h).2 n "Type"))
      ∧ (∀ n, n ∉ touched →
              node_attr (add_relationship_lines lines h).2 n "Type"
              = node_attr h n "Type").
Proof.
  revert g. induction lines as [|l lines IH]; intros g.
  { exists ∅. intros h _. split; [set_solver|done]. }
  destruct (add_relationship_line_touched l g) as (T1 & H1).
  destruct (add_relationship_line_uniform l g) as (r1 & added1 & Hr1).
  destruct r1 as [[]|e].
  - destruct (IH g) as (T2 & H2). exists (T1 ∪ T2). intros h Hdom.
    rewrite add_relationship_lines_cons.
    destruct (H1 h Hdom) as [Hs1 Hu1]. destruct (Hr1 h Hdom) as [Hr _].
    pose proof (add_relationship_line_dom l h) as Hd.
    destruct (add_relationship_line l h) as [[[]|e] h1]; simpl in *; [|done].
    destruct (H2 h1) as [Hs2 Hu2]; [congruence|]. split.
    + intros n Hn. destruct (decide (n ∈ T2)) as [?|Hn2]; [by apply Hs2|].
      assert (n ∈ T1) as Hn1 by set_solver.
      destruct (Hs1 n Hn1) as [t Ht].
      rewrite (add_relationship_lines_keeps_attr lines h1 _ _ _ Ht). eauto.
    + intros n Hn. rewrite Hu2, Hu1 by set_solver. done.
  - exists T1. intros h Hdom. rewrite add_relationship_lines_cons.
    destruct (H1 h Hdom) as [Hs1 Hu1]. destruct (Hr1 h Hdom) as [Hr _].
    destruct (add_relationship_line l h) as [[[]|e'] h1]; simpl in *; [done|].
    by split.
Qed.

(** X20. Ingesting a relationship source a second time changes no
    attribute of any node: only the edges are appended again. *)
Theorem relationship_reingestion_keeps_attributes fs path g n :
  let once := add_relationships_from_file fs path g in
  let twice := add_relationships_from_file fs path once.2 in
  node_attrs twice.2 n = node_attrs once.2 n.
Proof.
  simpl. unfold add_relationships_from_file.
  destruct (fs !! path) as [[|header lines]|]; simpl; [done| |done].
  set (g1 := (add_relationship_lines lines g).2).
  set (g2 := (add_relationship_lines lines g1).2).
  assert (dom g1 = dom g) as Hd1 by apply add_relationship_lines_dom.
  assert (dom g2 = dom g1) as Hd2 by apply add_relationship_lines_dom.
  assert (∀ k, node_attr g2 n k = node_attr g1 n k) as Hattr.
  { intros k. destruct (decide (k = "Type")) as [->|Hk];
      [|by apply add_relationship_lines_other_attr].
    destruct (add_relationship_lines_touched lines g) as (T & H).
    destruct (H g eq_refl) as [Hs _]. destruct (H g1 Hd1) as [_ Hu].
    destruct (decide (n ∈ T)) as [Hn|Hn]; [|by apply Hu].
    destruct (Hs n Hn) as [t Ht]. fold g1 in Ht. rewrite Ht.
    by apply add_relationship_lines_keeps_attr. }
  unfold node_attrs. unfold node_attr in Hattr.
  destruct (g1 !! n) as [d1|] eqn:E1.
  - assert (is_Some (g2 !! n)) as [d2 E2].
    { apply elem_of_dom. rewrite Hd2. by apply elem_of_dom_2 in E1. }
    rewrite E2 in *. simpl in *. f_equal. apply map_eq. intros k. apply Hattr.
  - assert (g2 !! n = None) as ->; [|done].
    apply not_elem_of_dom. rewrite Hd2. by apply not_elem_of_dom.
Qed.

(** *** Node IDs *)

Lemma no_whitespace_rev_app s acc :
  no_whitespace (String.rev_app s acc) = no_whitespace s && no_whitespace acc.
Proof.
  revert acc. induction s as [|c s IH]; intros acc; simpl; [done|].
  rewrite IH. simpl. destruct (PyStr.isspace c), (no_whitespace s); done.
Qed.

Lemma split_go_tokens cur s :
  no_whitespace cur = true →
  Forall (λ t, t ≠ "" ∧ no_whitespace t = true) (PyStr.split_go cur s).
Proof.
  assert (∀ cur, cur ≠ "" → no_whitespace cur = true →
                 String.rev cur ≠ "" ∧ no_whitespace (String.rev cur) = true)
    as Hrev.
  { intros cur' Hne Hnw. unfold String.rev. split.
    - intros [? _]%rev_app_empty_iff. done.
    - rewrite no_whitespace_rev_app, Hnw. done. }
  revert cur. induction s as [|c s IH]; intros cur Hcur; simpl.
  - destruct cur as [|c' cur]; [constructor|].
    constructor; [by apply Hrev|constructor].
  - destruct (PyStr.isspace c) eqn:Ec.
    + destruct cur as [|c' cur]; [by apply IH|].
      constructor; [by apply Hrev|by apply IH].
    + apply IH. simpl. by rewrite Ec.
Qed.

Lemma property_ids_tokens lines n :
  n ∈ property_ids lines → n ≠ "" ∧ no_whitespace n = true.
Proof.
  induction lines as [|l lines IH]; simpl; [set_solver|].
  pose proof (split_go_tokens "" (PyStr.strip l) eq_refl) as Htok.
  fold (PyStr.split (PyStr.strip l)) in Htok.
  destruct (PyStr.split (PyStr.strip l)) as [|id toks]; [done|].
  apply Forall_cons in Htok as [Hid _].
  intros [->%elem_of_singleton|?]%elem_of_union; [done|by apply IH].
Qed.

(** X21. Every node that property ingestion creates has an ID that is not
    empty and contains no whitespace. *)
Theorem add_properties_from_file_node_ids fs path g n :
  n ∈ dom (add_properties_from_file fs path g).2 →
  n ∈ dom g ∨ (n ≠ "" ∧ no_whitespace n = true).
Proof.
  destruct (add_properties_from_file fs path g) as [[[]|e] g'] eqn:E; simpl.
  - unfold add_properties_from_file in E.
    destruct (fs !! path) as [[|header lines]|] eqn:Hfs; [done| |done].
    assert (add_properties_from_file fs path g = (Ok tt, g')) as E'
      by (unfold add_properties_from_file; by rewrite Hfs).
    rewrite (add_properties_from_file_creates_mentioned_aux _ _ _ _ _ Hfs g' E').
    intros [?|?%property_ids_tokens]%elem_of_union; [by left|by right].
  - pose proof (add_properties_from_file_all_or_nothing_aux fs path g) as Hsame.
    rewrite E in Hsame. simpl in Hsame. rewrite Hsame by done. by left.
Qed.

Lemma add_properties_from_file_node_ids_witness :
  "A" ∈ dom (∅ : ChallengeGraph) ∨ ("A" ≠ "" ∧ no_whitespace "A" = true).
Proof.
  apply (add_properties_from_file_node_ids Sample.fs "properties.txt" ∅ "A").
  by_evaluation.
Defined.

(** *** Iteration order and invariants *)

Lemma lists_all_cliques_Permutation E out out' :
  lists_all_cliques E out → lists_all_cliques E out' →
  (list_to_set <$> out : list (gset string)) ≡ₚ list_to_set <$> out'.
Proof.
  intros (Hs & Hc & Hn) (Hs' & Hc' & Hn').
  apply NoDup_Permutation; [done..|]. intros S.
  rewrite !list_elem_of_fmap. split.
  - intros (c & -> & Hin). destruct (Hc' (list_to_set c)) as (c' & ? & ?);
      [by apply Hs|]. by exists c'.
  - intros (c & -> & Hin). destruct (Hc (list_to_set c)) as (c' & ? & ?);
      [by apply Hs'|]. by exists c'.
Qed.

(** X22. The result of a clique query does not depend on the order in which
    Python iterates over the sets, except for the order of the cliques and
    of their members: under another iteration order the query returns
    again, with the same cliques (as sets of nodes), as many times. *)
Theorem clique_queries_independent_of_set_order (o o' : set_order) g out :
  (find_friend_cliques o g = Ok out →
   ∃ out', find_friend_cliques o' g = Ok out'
     ∧ (list_to_set <$> out' : list (gset string)) ≡ₚ list_to_set <$> out)
  ∧ (find_person_cliques o g = Ok out →
     ∃ out', find_person_cliques o' g = Ok out'
       ∧ (list_to_set <$> out' : list (gset string)) ≡ₚ list_to_set <$> out).
Proof.
  split.
  - intros H. pose proof (find_friend_cliques_Ok o g out H) as Hall.
    unfold find_friend_cliques, find_friend_graph in *.
    destruct (graph_of_edges o (friend_edges g)) as [G|e] eqn:HG; [|done].
    assert (∀ e, e ∈ friend_edges g → size e = 2) as Hsize.
    { apply (proj2 (graph_of_edges_ok_iff o _)). by rewrite HG. }
    destruct (enumerate_graph_of_edges o' _ Hsize) as (G' & -> & Hall').
    eexists. split; [done|]. by apply (lists_all_cliques_Permutation (friend_edges g)).
  - intros H. destruct (find_person_cliques_Ok o g out H) as (E & HE & Hall).
    unfold find_person_cliques, find_person_graph in *. rewrite HE in *.
    destruct (graph_of_edges o E) as [G|e] eqn:HG; [|done].
    assert (∀ e, e ∈ E → size e = 2) as Hsize.
    { apply (proj2 (graph_of_edges_ok_iff o _)). by rewrite HG. }
    destruct (enumerate_graph_of_edges o' _ Hsize) as (G' & -> & Hall').
    eexists. split; [done|]. by apply (lists_all_cliques_Permutation E).
Qed.

Lemma clique_queries_independent_of_set_order_witness :
  ∃ out', find_friend_cliques elements_order Sample.g_friends = Ok out'
    ∧ (list_to_set <$> out' : list (gset string))
      ≡ₚ list_to_set <$> [["C"]; ["B"]; ["A"]; ["C"; "B"]; ["C"; "A"];
                          ["B"; "A"]; ["C"; "B"; "A"]].
Proof.
  apply (proj1 (clique_queries_independent_of_set_order
                  elements_order elements_order Sample.g_friends _)).
  by_evaluation.
Defined.

(** X23. Ingestion keeps the store closed: when the target of every edge is
    a node before a property or relationship ingestion, it is so after it,
    however the call ends; so it is in every store built from the empty
    one by ingestion. *)
Theorem ingestion_keeps_store_closed fs path g :
  store_closed g →
  store_closed (add_properties_from_file fs path g).2
  ∧ store_closed (add_relationships_from_file fs path g).2.
Proof.
  intros Hg. split.
  - by apply add_properties_from_file_closed.
  - by apply add_relationships_from_file_closed.
Qed.

Lemma ingestion_keeps_store_closed_witness :
  store_closed (add_properties_from_file Sample.fs "properties.txt" Sample.g_friends).2
  ∧ store_closed
      (add_relationships_from_file Sample.fs "properties.txt" Sample.g_friends).2.
Proof.
  apply (ingestion_keeps_store_closed Sample.fs "properties.txt" Sample.g_friends).
  by_evaluation.
Defined.
